(** * Parking management: entry/exit billing and the space ledger

    A shallow embedding of the billing and bookkeeping core of the
    NE_Restful parking application:

    - [calculateParkingFee] of the dashboard
      (NE_Restful/src/pages/VehicleManagement.tsx),
    - the entry controller [registerEntry] / [registerExit],
    - the parking controller [createParking] / [updateParking] /
      [deleteParking] with the validation chains of parking.routes.ts and
      entry.routes.ts,
    - the report controller [getParkingOccupancyReport].

    Modelling conventions.
    - Instants are JavaScript time values: whole milliseconds since the
      epoch, in [Z]. An invalid [Date] (time value NaN) is [None].
    - A finite JavaScript number is the rational it denotes ([Q]); the
      arithmetic of the dashboard calculator and of the occupancy rate
      rounds every result to binary64 ([binary64], [None] for a result
      that is not finite). A number of a request body, and a fee handed
      to the calculator, is given by the decimal that [toString] prints
      for it, the shortest that denotes it: the double is [binary64] of
      that decimal, and that decimal is what Prisma sends to a
      [DECIMAL] column.
    - A [DECIMAL(10,2)] column holds rationals with two decimals and at most
      eight digits before the point, an [INTEGER] column 32-bit
      integers; a write that does not fit throws ([toDecimal],
      [fitsInteger]). The charge [Number(hourlyFee) * hours] of
      [registerExit] is taken exactly before it is written: for a fee
      with two decimals and an amount the column can hold, the binary64
      product rounds back to the exact one.
    - The two tables are finite maps keyed by their unique columns:
      parkings by [code], entries by [id].
    - Every request is handled atomically, one after the other; the wall
      clock ([new Date()]) and the identifier drawn by [@default(uuid())]
      are inputs of the request ([Env]). *)

From Stdlib Require Import ZArith QArith Qround Qabs Lia.
From stdpp Require Import gmap strings list fin_maps sorting.

Local Open Scope Z_scope.

(** ** JavaScript helpers *)

(** A value passed where the dashboard expects [string | Date | null |
    undefined]: a falsy value (null, undefined, the empty string), a truthy
    value that [new Date] cannot parse, or a value denoting an instant. *)
Inductive DateInput :=
| Absent
| Unparseable
| Instant (ms : Z).

(** [new Date(d).getTime()], with [None] for NaN. *)
Definition getTime (d : DateInput) : option Z :=
  match d with
  | Instant ms => Some ms
  | _ => None
  end.

(** Truthiness of a date argument ([!d] is its negation). *)
Definition truthy (d : DateInput) : bool :=
  match d with
  | Absent => false
  | _ => true
  end.

(** The exit instant the calculator settles on:
    [exitDateTime ? new Date(exitDateTime) : new Date()]. *)
Definition computedExit (now : Z) (exitDateTime : DateInput) : option Z :=
  if truthy exitDateTime then getTime exitDateTime else Some now.

(** ** JavaScript numbers

    The finite binary64 numbers are the integer multiples [m * 2^e] of
    powers of two with [|m| < 2^53] and [-1074 <= e <= 971]; all of them
    are whole multiples of [2^-1074]. Counted in that unit, the binary64
    numbers below [2^53] units are the integers, and those from [2^k] to
    [2^(k+1)] units, for [k >= 53], the multiples of [2^(k-52)]. *)

(** The integer nearest to [a / b] for [b > 0], the even one of two that
    are equally near. *)
Definition roundHalfEven (a b : Z) : Z :=
  let q := a / b in
  match 2 * (a mod b) ?= b with
  | Lt => q
  | Gt => q + 1
  | Eq => if Z.even q then q else q + 1
  end.

(** The binary64 number nearest to [a / b] units, for [a >= 0] and
    [b > 0], were the exponent unbounded above. *)
Definition roundUnits (a b : Z) : Z :=
  let k := Z.log2 (a / b) in
  if k <? 53 then roundHalfEven a b
  else let g := 2 ^ (k - 52) in roundHalfEven a (b * g) * g.

(** [2^1074]: the number of units in one. *)
Definition quantum : positive := 2 ^ 1074.

(** The result of an arithmetic operation whose exact value is [x]: the
    nearest binary64 number, ties to even; [None] when that is an
    infinity, from [2^1024] on. *)
Definition binary64 (x : Q) : option Q :=
  let units := roundUnits (Z.abs (Qnum x) * Z.pos quantum) (Z.pos (Qden x)) in
  if units <? 2 ^ 2098
  then Some (Qred (Z.sgn (Qnum x) * units # quantum))
  else None.

(** A number of units that is a binary64 number. *)
Definition representable (M : Z) : Prop :=
  ∃ m j, 0 <= j ∧ 0 <= m < 2 ^ 53 ∧ M = m * 2 ^ j.

(** A rational that is a finite binary64 number and not negative. *)
Definition isBinary64 (d : Q) : Prop :=
  ∃ M, representable M ∧ M < 2 ^ 2098 ∧ (d == M # quantum)%Q.

(** ** Fee calculator of the dashboard *)

(** [hourlyFee] is [None] for a value that is not a number (undefined, null,
    NaN), otherwise the finite number as it is written; the double it denotes,
    [binary64 fee], has the sign of [fee] or is zero, and with a zero fee
    the product below is zero as well. [now] is the value of [new Date()]
    used when no exit is given. The result is [None] when it is not a
    finite number. *)
Definition calculateParkingFee (now : Z) (hourlyFee : option Q)
    (entryDateTime exitDateTime : DateInput) : option Q :=
  match hourlyFee with
  | None => Some 0%Q
  | Some fee =>
    if Qle_bool fee 0 || negb (truthy entryDateTime) then Some 0%Q
    else
      let entry := getTime entryDateTime in
      let exit := computedExit now exitDateTime in
      match entry, exit with
      | Some en, Some ex =>
        if ex <? en then Some 0%Q
        else
          hourlyFee ← binary64 fee;
          durationMs ← binary64 (inject_Z (ex - en));
          durationMinutes ← binary64 (durationMs / inject_Z (1000 * 60));
          hours ← binary64 (durationMinutes / 60);
          let hoursCharged := Qceiling hours in
          binary64 (inject_Z hoursCharged * hourlyFee)
      | _, _ => Some 0%Q
      end
  end.

(** ** Charge computed on exit by the entry controller *)

Definition durationInHours (exitDateTime entryDateTime : Z) : Z :=
  let durationInMs := exitDateTime - entryDateTime in
  Qceiling (inject_Z durationInMs / inject_Z (1000 * 60 * 60)).

Definition chargedAmountOf (hourlyFee : Q) (exitDateTime entryDateTime : Z) : Q :=
  (hourlyFee * inject_Z (durationInHours exitDateTime entryDateTime))%Q.

(** ** The persistent store (prisma/schema.prisma)

    [id], [createdAt] and [updatedAt] of a parking play no part in any
    operation and are left out, as are the timestamps of an entry. The
    unique column [code] of a parking and the primary key [id] of an entry
    are the keys of the two maps. *)

Module Parking.
Record t := mk {
  name : string;
  totalSpaces : Z;
  availableSpaces : Z;
  location : string;
  hourlyFee : Q
}.
End Parking.

Module Entry.
Record t := mk {
  plateNumber : string;
  parkingCode : string;
  entryDateTime : Z;
  exitDateTime : option Z;
  chargedAmount : option Q
}.
End Entry.

Record Store := mkStore {
  parkings : gmap string Parking.t;
  entries : gmap string Entry.t
}.

(** The database right after the migration: both tables empty. *)
Definition emptyStore : Store := mkStore ∅ ∅.

(** What a request reads from its environment: the clock and the
    identifier the database would give to a row created by the request. *)
Record Env := mkEnv {
  now : Z;
  uuid : string
}.

(** *** Column types (migration.sql)

    A value its column cannot hold is refused, by Prisma or by the
    database: the call throws and its statement writes nothing. *)

(** [INTEGER]: a 32-bit integer. *)
Definition fitsInteger (z : Z) : bool := (- 2 ^ 31 <=? z) && (z <? 2 ^ 31).

(** The value in hundredths, rounded half away from zero. *)
Definition hundredths (q : Q) : Z :=
  Z.sgn (Qnum q) * Qfloor (Qabs q * 100 + (1 # 2)).

(** [DECIMAL(10,2)]: what the column holds after a write of [q], [None]
    when the rounded value needs more than eight digits before the
    point. *)
Definition toDecimal (q : Q) : option Q :=
  let n := hundredths q in
  if Z.abs n <? 10 ^ 10 then Some (Qred (n # 100)) else None.

(** *** Queries on the entries table *)

(** [where: { plateNumber, parkingCode, exitDateTime: null }] *)
Definition whereActive (plate code : string) (e : Entry.t) : Prop :=
  Entry.plateNumber e = plate ∧ Entry.parkingCode e = code
  ∧ Entry.exitDateTime e = None.

(** [where: { parkingCode, exitDateTime: null }] *)
Definition whereOpenIn (code : string) (e : Entry.t) : Prop :=
  Entry.parkingCode e = code ∧ Entry.exitDateTime e = None.

(** [where: { parkingCode }], the rows the foreign key of the entries table
    looks at. *)
Definition whereIn (code : string) (e : Entry.t) : Prop :=
  Entry.parkingCode e = code.

#[global] Instance whereActive_dec plate code e : Decision (whereActive plate code e).
Proof. unfold whereActive. apply _. Defined.

#[global] Instance whereOpenIn_dec code e : Decision (whereOpenIn code e).
Proof. unfold whereOpenIn. apply _. Defined.

#[global] Instance whereIn_dec code e : Decision (whereIn code e).
Proof. unfold whereIn. apply _. Defined.

Definition findMany (P : Entry.t → Prop) `{!∀ e, Decision (P e)}
    (m : gmap string Entry.t) : gmap string Entry.t :=
  filter (λ kv, P kv.2) m.

Definition findFirst (P : Entry.t → Prop) `{!∀ e, Decision (P e)}
    (m : gmap string Entry.t) : option (string * Entry.t) :=
  head (map_to_list (findMany P m)).

Definition count (P : Entry.t → Prop) `{!∀ e, Decision (P e)}
    (m : gmap string Entry.t) : Z :=
  Z.of_nat (size (findMany P m)).

(** *** Updates of a parking row *)

(** [data: { availableSpaces: { increment: d } }] *)
Definition incrementAvailable (d : Z) (p : Parking.t) : Parking.t :=
  Parking.mk (Parking.name p) (Parking.totalSpaces p)
             (Parking.availableSpaces p + d)
             (Parking.location p) (Parking.hourlyFee p).

(** JavaScript [x || d] where [x] may be undefined ([None]); 0 and the empty
    string are falsy. *)
Definition orZ (x : option Z) (d : Z) : Z :=
  match x with
  | Some v => if v =? 0 then d else v
  | None => d
  end.

Definition orQ (x : option Q) (d : Q) : Q :=
  match x with
  | Some v => if Qeq_bool v 0 then d else v
  | None => d
  end.

Definition orString (x : option string) (d : string) : string :=
  match x with
  | Some v => if String.eqb v "" then d else v
  | None => d
  end.

(** ** Responses (utils/response.ts); messages are left out *)

Module Ticket.
Record t := mk {
  ticketNumber : string;
  plateNumber : string;
  parkingName : string;
  entryDateTime : Z;
  hourlyFee : Q
}.
End Ticket.

Module Bill.
Record t := mk {
  billNumber : string;
  plateNumber : string;
  parkingName : string;
  entryDateTime : Z;
  exitDateTime : option Z;
  durationInHours : Z;
  hourlyFee : Q;
  totalAmount : option Q
}.
End Bill.

Inductive Data :=
| ParkingData (code : string) (parking : Parking.t)
| EntryTicket (id : string) (entry : Entry.t) (ticket : Ticket.t)
| EntryBill (id : string) (entry : Entry.t) (bill : Bill.t)
| NullData.

Record Response := mkResponse {
  status : Z;
  success : bool;
  data : option Data
}.

Module ServerResponse.
Definition success (d : Data) : Response := mkResponse 200 true (Some d).
Definition created (d : Data) : Response := mkResponse 201 true (Some d).
Definition error : Response := mkResponse 500 false None.
Definition badRequest : Response := mkResponse 400 false None.
Definition conflict : Response := mkResponse 409 false None.
Definition notFound : Response := mkResponse 404 false None.
End ServerResponse.

(** ** Entry controller *)

Definition registerEntry (env : Env) (plateNumber parkingCode : string)
    (s : Store) : Store * Response :=
  match parkings s !! parkingCode with
  | None => (s, ServerResponse.notFound)
  | Some parking =>
    if Parking.availableSpaces parking <=? 0 then (s, ServerResponse.badRequest)
    else
      match findFirst (whereActive plateNumber parkingCode) (entries s) with
      | Some _ => (s, ServerResponse.conflict)
      | None =>
        (* prisma.entry.create: a primary key already in use makes the
           call throw, which the handler answers with 500 *)
        match entries s !! uuid env with
        | Some _ => (s, ServerResponse.error)
        | None =>
          let entry := Entry.mk plateNumber parkingCode (now env) None None in
          let s' := mkStore
                      (alter (incrementAvailable (-1)) parkingCode (parkings s))
                      (<[uuid env := entry]> (entries s)) in
          let ticket := Ticket.mk (uuid env) (Entry.plateNumber entry)
                          (Parking.name parking) (Entry.entryDateTime entry)
                          (Parking.hourlyFee parking) in
          (s', ServerResponse.created (EntryTicket (uuid env) entry ticket))
        end
      end
  end.

Definition registerExit (env : Env) (id : string) (s : Store)
    : Store * Response :=
  match entries s !! id with
  | None => (s, ServerResponse.notFound)
  | Some entry =>
    match Entry.exitDateTime entry with
    | Some _ => (s, ServerResponse.conflict)
    | None =>
      (* include: { parking: true }; were the parking missing,
         entry.parking.hourlyFee would throw before any update *)
      match parkings s !! Entry.parkingCode entry with
      | None => (s, ServerResponse.error)
      | Some parking =>
        let exitDateTime := now env in
        let hours := durationInHours exitDateTime (Entry.entryDateTime entry) in
        let hourlyFee := Parking.hourlyFee parking in
        let chargedAmount :=
          chargedAmountOf hourlyFee exitDateTime (Entry.entryDateTime entry) in
        (* prisma.entry.update: the amount goes into a DECIMAL(10,2) column *)
        match toDecimal chargedAmount with
        | None => (s, ServerResponse.error)
        | Some stored =>
          let updatedEntry :=
            Entry.mk (Entry.plateNumber entry) (Entry.parkingCode entry)
                     (Entry.entryDateTime entry)
                     (Some exitDateTime) (Some stored) in
          let entries' := <[id := updatedEntry]> (entries s) in
          (* prisma.parking.update, a second statement: when the count
             leaves the INTEGER column it throws and the entry stays
             closed *)
          if fitsInteger (Parking.availableSpaces parking + 1) then
            let s' := mkStore
                        (alter (incrementAvailable 1) (Entry.parkingCode entry)
                               (parkings s))
                        entries' in
            let bill := Bill.mk id (Entry.plateNumber updatedEntry)
                          (Parking.name parking)
                          (Entry.entryDateTime updatedEntry)
                          (Entry.exitDateTime updatedEntry)
                          hours
                          (Parking.hourlyFee parking)
                          (Entry.chargedAmount updatedEntry) in
            (s', ServerResponse.success (EntryBill id updatedEntry bill))
          else (mkStore (parkings s) entries', ServerResponse.error)
        end
      end
    end
  end.

(** ** Parking controller *)

Definition createParking (code name : string) (totalSpaces : Z)
    (location : string) (hourlyFee : Q) (s : Store) : Store * Response :=
  match parkings s !! code with
  | Some _ => (s, ServerResponse.conflict)
  | None =>
    (* prisma.parking.create: totalSpaces and availableSpaces are INTEGER
       columns, hourlyFee a DECIMAL(10,2) column *)
    match toDecimal hourlyFee with
    | None => (s, ServerResponse.error)
    | Some fee =>
      if fitsInteger totalSpaces then
        let parking := Parking.mk name totalSpaces totalSpaces location fee in
        (mkStore (<[code := parking]> (parkings s)) (entries s),
         ServerResponse.created (ParkingData code parking))
      else (s, ServerResponse.error)
    end
  end.

(** The body fields are [None] when undefined. *)
Definition updateParking (code : string) (name : option string)
    (totalSpaces : option Z) (location : option string)
    (hourlyFee : option Q) (s : Store) : Store * Response :=
  match parkings s !! code with
  | None => (s, ServerResponse.notFound)
  | Some existingParking =>
    let availableSpacesAdjustment :=
      match totalSpaces with
      | Some t =>
        if t =? Parking.totalSpaces existingParking then 0
        else t - Parking.totalSpaces existingParking
      | None => 0
      end in
    let total := orZ totalSpaces (Parking.totalSpaces existingParking) in
    let available :=
      Parking.availableSpaces existingParking + availableSpacesAdjustment in
    (* prisma.parking.update: one statement, which throws when a value
       does not fit its column *)
    match toDecimal (orQ hourlyFee (Parking.hourlyFee existingParking)) with
    | None => (s, ServerResponse.error)
    | Some fee =>
      if fitsInteger total && fitsInteger available then
        let updatedParking :=
          Parking.mk (orString name (Parking.name existingParking))
                     total available
                     (orString location (Parking.location existingParking))
                     fee in
        (mkStore (<[code := updatedParking]> (parkings s)) (entries s),
         ServerResponse.success (ParkingData code updatedParking))
      else (s, ServerResponse.error)
    end
  end.

Definition deleteParking (code : string) (s : Store) : Store * Response :=
  match parkings s !! code with
  | None => (s, ServerResponse.notFound)
  | Some _ =>
    if 0 <? count (whereOpenIn code) (entries s)
    then (s, ServerResponse.conflict)
    else
      (* entries_parkingCode_fkey is ON DELETE RESTRICT: with a closed
         entry still referring to the parking the delete throws *)
      if 0 <? count (whereIn code) (entries s)
      then (s, ServerResponse.error)
      else (mkStore (delete code (parkings s)) (entries s),
            ServerResponse.success NullData)
  end.

(** ** Routes: validation chains in front of the controllers

    Authentication and the admin check are taken as passed. Read-only
    routes and the user routes do not touch the two tables and are not
    requests of this model. *)

Inductive Request :=
| POST_parkings (code name : string) (totalSpaces : Z) (location : string)
                (hourlyFee : Q)
| PUT_parkings (code : string) (name : option string)
               (totalSpaces : option Z) (location : option string)
               (hourlyFee : option Q)
| DELETE_parkings (code : string)
| POST_entries (plateNumber parkingCode : string)
| PUT_entries_exit (id : string).

(** [notEmpty()] *)
Definition notEmpty (x : string) : bool := negb (String.eqb x "").

(** [isInt({ min: 1 })] on a value that is an integer *)
Definition isIntMin1 (x : Z) : bool := 1 <=? x.

(** [isFloat({ min: 0 })] *)
Definition isFloatMin0 (x : Q) : bool := Qle_bool 0 x.

(** [optional()] in front of a validator *)
Definition optional {A} (v : A → bool) (x : option A) : bool :=
  match x with
  | Some a => v a
  | None => true
  end.

Definition handle (env : Env) (r : Request) (s : Store) : Store * Response :=
  match r with
  | POST_parkings code name totalSpaces location hourlyFee =>
    if notEmpty code && notEmpty name && isIntMin1 totalSpaces
       && notEmpty location && isFloatMin0 hourlyFee
    then createParking code name totalSpaces location hourlyFee s
    else (s, ServerResponse.badRequest)
  | PUT_parkings code name totalSpaces location hourlyFee =>
    if notEmpty code && optional isIntMin1 totalSpaces
       && optional isFloatMin0 hourlyFee
    then updateParking code name totalSpaces location hourlyFee s
    else (s, ServerResponse.badRequest)
  | DELETE_parkings code =>
    if notEmpty code then deleteParking code s
    else (s, ServerResponse.badRequest)
  | POST_entries plateNumber parkingCode =>
    if notEmpty plateNumber && notEmpty parkingCode
    then registerEntry env plateNumber parkingCode s
    else (s, ServerResponse.badRequest)
  | PUT_entries_exit id =>
    if notEmpty id then registerExit env id s
    else (s, ServerResponse.badRequest)
  end.

(** A sequence of requests, each with its environment, handled in order. *)
Fixpoint run (reqs : list (Env * Request)) (s : Store) : Store :=
  match reqs with
  | [] => s
  | (env, r) :: reqs' => run reqs' (handle env r s).1
  end.

(** The states the routes can bring a fresh database to. *)
Definition reachable (s : Store) : Prop :=
  ∃ reqs, s = run reqs emptyStore.

(** ** Report controller *)

Module OccupancyRow.
Record t := mk {
  parkingCode : string;
  parkingName : string;
  totalSpaces : Z;
  occupiedSpaces : Z;
  availableSpaces : Z;
  occupancyRate : option Q
}.
End OccupancyRow.

(** [(a / b) * 100] on JavaScript numbers, for integers that are (below
    [2^53]); [None] when the result is not a finite number (division by
    zero gives NaN or an infinity). *)
Definition ratePercent (a b : Z) : option Q :=
  if b =? 0 then None
  else
    quotient ← binary64 (inject_Z a / inject_Z b);
    binary64 (quotient * 100).

Definition occupancyRow (s : Store) (kv : string * Parking.t) : OccupancyRow.t :=
  let activeEntries := count (whereOpenIn kv.1) (entries s) in
  OccupancyRow.mk kv.1 (Parking.name kv.2) (Parking.totalSpaces kv.2)
    activeEntries (Parking.availableSpaces kv.2)
    (ratePercent activeEntries (Parking.totalSpaces kv.2)).

Definition getParkingOccupancyReport (s : Store) : list OccupancyRow.t :=
  occupancyRow s <$> map_to_list (parkings s).

(** Rounding up of an integer quotient. *)
Definition ceil_div (a b : Z) : Z := - ((- a) / b).

(** ** The charge as the specification words it

    Duration in whole minutes (fractional minutes truncated), hours charged
    the ceiling of minutes over sixty, at least one hour for any positive
    duration. *)

Definition wholeMinutes (ms : Z) : Z := ms / (1000 * 60).

Definition hoursOfWholeMinutes (ms : Z) : Z :=
  let h := ceil_div (wholeMinutes ms) 60 in
  if 0 <? ms then Z.max 1 h else h.

Definition chargeOfWholeMinutes (fee : Q) (entry exit : Z) : Q :=
  (inject_Z (hoursOfWholeMinutes (exit - entry)) * fee)%Q.

(** ** Properties of a store *)

(** 1 when the proposition holds, 0 otherwise. *)
Definition indicator (P : Prop) `{!Decision P} : Z :=
  if decide P then 1 else 0.

(** The number of open entries of a parking. *)
Definition occupied (code : string) (s : Store) : Z :=
  count (whereOpenIn code) (entries s).

(** [0 <= availableSpaces <= totalSpaces] for every parking. *)
Definition withinBounds (s : Store) : Prop :=
  ∀ c p, parkings s !! c = Some p →
    0 <= Parking.availableSpaces p <= Parking.totalSpaces p.

(** The ledger equation: free spaces are the total less the open entries. *)
Definition ledgerBalanced (s : Store) : Prop :=
  ∀ c p, parkings s !! c = Some p →
    Parking.availableSpaces p = Parking.totalSpaces p - occupied c s.

(** The foreign key of the entries table. *)
Definition foreignKey (s : Store) : Prop :=
  ∀ i e, entries s !! i = Some e → is_Some (parkings s !! Entry.parkingCode e).

(** [chargedAmount] is set exactly when [exitDateTime] is. *)
Definition chargedIffExited (s : Store) : Prop :=
  ∀ i e, entries s !! i = Some e →
    (is_Some (Entry.chargedAmount e) ↔ is_Some (Entry.exitDateTime e)).

(** A request keeps room for the vehicles inside unless it is an update
    that is carried out (answered 200) and sets the total of a parking
    below the number of its open entries. *)
Definition keepsRoom (env : Env) (r : Request) (s : Store) : Prop :=
  match r with
  | PUT_parkings code _ (Some t) _ _ =>
    status (handle env r s).2 = 200 → occupied code s <= t
  | _ => True
  end.

Fixpoint roomKept (reqs : list (Env * Request)) (s : Store) : Prop :=
  match reqs with
  | [] => True
  | (env, r) :: reqs' => keepsRoom env r s ∧ roomKept reqs' (handle env r s).1
  end.

(** The change of [availableSpaces] of parking [c] that the specification
    allows a request answered by [resp] in state [s]: the delta of the
    totals for a successful update of [c] that gives a total, minus one for
    a registered entry into [c], plus one for a registered exit from [c],
    and nothing otherwise. *)
Definition allowedDelta (r : Request) (resp : Response) (s : Store)
    (c : string) : Z :=
  match r with
  | PUT_parkings code _ (Some t) _ _ =>
    match parkings s !! code with
    | Some p =>
      if bool_decide (code = c) && (status resp =? 200)
      then t - Parking.totalSpaces p else 0
    | None => 0
    end
  | POST_entries _ code =>
    if bool_decide (code = c) && (status resp =? 201) then -1 else 0
  | PUT_entries_exit id =>
    match entries s !! id with
    | Some e =>
      if bool_decide (Entry.parkingCode e = c) && (status resp =? 200)
      then 1 else 0
    | None => 0
    end
  | _ => 0
  end.

(** Registering the vehicles of [reqs] one after the other into parking
    [code]; [None] as soon as one registration is not answered by 201. *)
Fixpoint registerEntries (reqs : list (Env * string)) (code : string)
    (s : Store) : option Store :=
  match reqs with
  | [] => Some s
  | (env, plate) :: reqs' =>
    let '(s', resp) := registerEntry env plate code s in
    if status resp =? 201 then registerEntries reqs' code s' else None
  end.

(** ** Sample data for concrete runs *)

(** A one-character tag per number below 50, all distinct. *)
Definition tag (k : nat) : string :=
  String (Ascii.ascii_of_nat (48 + k)) EmptyString.

(** [n] arriving vehicles with distinct plates, one per millisecond, each
    with the identifier its entry will get. *)
Definition arrivals (n : nat) : list (Env * string) :=
  (λ k, (mkEnv (Z.of_nat k) ("entry-" +:+ tag k), "RA" +:+ tag k)) <$> seq 0 n.

(** A fresh database with the one parking P001 of the seed script, with
    the given number of spaces. *)
Definition seeded (totalSpaces : Z) : Store :=
  (createParking "P001" "Central Parking" totalSpaces "Downtown" (5 # 2)
     emptyStore).1.

(** The seeded database after the first [k] arrivals drove into P001. *)
Definition parked (k : nat) (totalSpaces : Z) : Store :=
  default emptyStore (registerEntries (arrivals k) "P001" (seeded totalSpaces)).

(** ** Read-only controllers

    Their answers carry lists and joined rows; [Reply] is the response
    envelope over the type of its data. *)

Record Reply (A : Type) := mkReply {
  replyStatus : Z;
  replySuccess : bool;
  replyData : option A
}.
Arguments mkReply {A} _ _ _.
Arguments replyStatus {A} _.
Arguments replySuccess {A} _.
Arguments replyData {A} _.

Definition replySuccessWith {A} (d : A) : Reply A := mkReply 200 true (Some d).
Definition replyNotFound {A} : Reply A := mkReply 404 false None.
Definition replyBadRequest {A} : Reply A := mkReply 400 false None.

(** An entry as [include: { parking: true }] returns it. *)
Module EntryRow.
Record t := mk {
  id : string;
  entry : Entry.t;
  parking : option Parking.t
}.
End EntryRow.

Definition includeParking (s : Store) (kv : string * Entry.t) : EntryRow.t :=
  EntryRow.mk kv.1 kv.2 (parkings s !! Entry.parkingCode kv.2).

(** [where: { exitDateTime: null }] *)
Definition whereOpen (e : Entry.t) : Prop := Entry.exitDateTime e = None.

#[global] Instance whereOpen_dec e : Decision (whereOpen e).
Proof. unfold whereOpen. apply _. Defined.

Definition getAllEntries (s : Store) : Reply (list EntryRow.t) :=
  replySuccessWith (includeParking s <$> map_to_list (entries s)).

Definition getActiveEntries (s : Store) : Reply (list EntryRow.t) :=
  replySuccessWith
    (includeParking s <$> map_to_list (findMany whereOpen (entries s))).

Definition getEntryById (id : string) (s : Store) : Reply EntryRow.t :=
  match entries s !! id with
  | None => replyNotFound
  | Some entry => replySuccessWith (includeParking s (id, entry))
  end.

Definition getAllParkings (s : Store) : Reply (list (string * Parking.t)) :=
  replySuccessWith (map_to_list (parkings s)).

Definition getParkingByCode (code : string) (s : Store)
    : Reply (string * Parking.t) :=
  match parkings s !! code with
  | None => replyNotFound
  | Some parking => replySuccessWith (code, parking)
  end.

(** [where: { availableSpaces: { gt: 0 } }] *)
Definition getAvailableParkings (s : Store)
    : Reply (list (string * Parking.t)) :=
  replySuccessWith
    (map_to_list
       (filter (λ kv : string * Parking.t, 0 < Parking.availableSpaces kv.2)
               (parkings s))).

(** The rows of a list answer (none when the answer carries no data). *)
Definition listed {A} (r : Reply (list A)) : list A :=
  default [] (replyData r).

(** ** Authentication middleware (middlewares/auth.middleware.ts) *)

Inductive Role := ADMIN | USER.

#[global] Instance Role_eq_dec : EqDecision Role.
Proof. solve_decision. Defined.

Module User.
Record t := mk {
  firstName : string;
  lastName : string;
  email : string;
  password : string;
  role : Role
}.
End User.

(** What [authenticate] attaches to the request. *)
Module ReqUser.
Record t := mk {
  id : string;
  email : string;
  role : Role
}.
End ReqUser.

Definition unauthorized : Response := mkResponse 401 false None.
Definition forbidden : Response := mkResponse 403 false None.

(** [s.split(sep)] for a one-character separator. *)
Fixpoint split (sep : Ascii.ascii) (s : string) : list string :=
  match s with
  | EmptyString => [EmptyString]
  | String c rest =>
    if Ascii.eqb c sep then EmptyString :: split sep rest
    else match split sep rest with
         | [] => [String c EmptyString]
         | w :: ws => String c w :: ws
         end
  end.

(** What [jwt.verify] with the server's secret makes of a token: it
    throws (a [JsonWebTokenError], which [TokenExpiredError] is too), or
    it returns a payload, whose [id] is a string or is not. *)
Inductive Verified :=
| TokenRejected
| PayloadWithoutId
| PayloadWithId (id : string).

(** [verify] stands for [jwt.verify]; [users] is the users table, keyed by
    [id]; [authorization] the header of the request. With an [id] that is
    not a string [prisma.user.findUnique] throws, which is no
    [JsonWebTokenError]: the handler answers 500. *)
Definition authenticate (verify : string → Verified)
    (users : gmap string User.t) (authorization : option string)
    : Response + ReqUser.t :=
  match authorization with
  | None => inl unauthorized
  | Some authHeader =>
    if negb (String.prefix "Bearer " authHeader) then inl unauthorized
    else
      match split Ascii.Space authHeader !! 1%nat with
      | None => inl unauthorized
      | Some token =>
        if String.eqb token "" then inl unauthorized
        else
          match verify token with
          | TokenRejected => inl unauthorized
          | PayloadWithoutId => inl ServerResponse.error
          | PayloadWithId id =>
            match users !! id with
            | None => inl unauthorized
            | Some user =>
              inr (ReqUser.mk id (User.email user) (User.role user))
            end
          end
      end
  end.

(** [None] stands for the call of [next()]. *)
Definition authorizeAdmin (user : option ReqUser.t) : option Response :=
  match user with
  | None => Some unauthorized
  | Some u =>
    if bool_decide (ReqUser.role u ≠ ADMIN) then Some forbidden else None
  end.

(** The mutating routes with their whole middleware chain: [authenticate],
    then [authorizeAdmin] on the parking routes, then validation and the
    controller. *)
Definition api (verify : string → Verified) (users : gmap string User.t)
    (authorization : option string) (env : Env) (r : Request) (s : Store)
    : Store * Response :=
  match authenticate verify users authorization with
  | inl denied => (s, denied)
  | inr user =>
    match r with
    | POST_parkings _ _ _ _ _ | PUT_parkings _ _ _ _ _ | DELETE_parkings _ =>
      match authorizeAdmin (Some user) with
      | Some denied => (s, denied)
      | None => handle env r s
      end
    | POST_entries _ _ | PUT_entries_exit _ => handle env r s
    end
  end.

(** Whether the character occurs in the string. *)
Fixpoint occursIn (c : Ascii.ascii) (s : string) : bool :=
  match s with
  | EmptyString => false
  | String c' rest => Ascii.eqb c' c || occursIn c rest
  end.

(** A parking without its count of available spaces: what only the
    administrative routes may change. *)
Definition fixedPart (p : Parking.t) : string * Z * string * Q :=
  (Parking.name p, Parking.totalSpaces p, Parking.location p,
   Parking.hourlyFee p).

(** ** Date-range reports (report controller)

    The query parameters are modelled like the dates of the dashboard
    calculator: missing or empty ([Absent]), not parseable by [new Date], or
    denoting an instant. [tz] is the offset of the server's local time from
    UTC in milliseconds, taken as constant. *)

Definition msPerDay : Z := 24 * 60 * 60 * 1000.

(** [d.setHours(23, 59, 59, 999)]: the last millisecond of the local day
    of [t]. *)
Definition setHoursEndOfDay (tz t : Z) : Z :=
  (t + tz) / msPerDay * msPerDay + (msPerDay - 1) - tz.

(** [where: { exitDateTime: { gte: start, lte: end } }]; a null exit
    satisfies no comparison. *)
Definition whereExitBetween (start stop : Z) (e : Entry.t) : Prop :=
  match Entry.exitDateTime e with
  | Some t => start <= t ∧ t <= stop
  | None => False
  end.

(** [where: { entryDateTime: { gte: start, lte: end } }] *)
Definition whereEntryBetween (start stop : Z) (e : Entry.t) : Prop :=
  start <= Entry.entryDateTime e ∧ Entry.entryDateTime e <= stop.

#[global] Instance whereExitBetween_dec start stop e :
  Decision (whereExitBetween start stop e).
Proof. unfold whereExitBetween. destruct (Entry.exitDateTime e); apply _. Defined.

#[global] Instance whereEntryBetween_dec start stop e :
  Decision (whereEntryBetween start stop e).
Proof. unfold whereEntryBetween. apply _. Defined.


(** [orderBy: { <column>: 'asc' }] on the rows of a query, as a merge sort
    of the table scan. *)
Definition keyLe (key : Entry.t → Z) : relation (string * Entry.t) :=
  λ a b, key a.2 <= key b.2.

#[global] Instance keyLe_dec key a b : Decision (keyLe key a b).
Proof. unfold keyLe. apply _. Defined.

Definition orderByAsc (key : Entry.t → Z) (rows : list (string * Entry.t))
    : list (string * Entry.t) :=
  merge_sort (keyLe key) rows.

Module OutgoingReport.
Record t := mk {
  startDate : Z;
  endDate : Z;
  totalEntries : Z;
  totalAmountCharged : Q;
  entries : list EntryRow.t
}.
End OutgoingReport.

Module IncomingReport.
Record t := mk {
  startDate : Z;
  endDate : Z;
  totalEntries : Z;
  entries : list EntryRow.t
}.
End IncomingReport.



Definition getIncomingCarsByDateRange (tz : Z) (startDate endDate : DateInput)
    (s : Store) : Reply IncomingReport.t :=
  if negb (truthy startDate) || negb (truthy endDate) then replyBadRequest
  else
    match getTime startDate, getTime endDate with
    | Some start, Some stop0 =>
      let stop := setHoursEndOfDay tz stop0 in
      let incomingCars :=
        orderByAsc Entry.entryDateTime
          (map_to_list (findMany (whereEntryBetween start stop) (entries s))) in
      replySuccessWith
        (IncomingReport.mk start stop (Z.of_nat (length incomingCars))
           (includeParking s <$> incomingCars))
    | _, _ => replyBadRequest
    end.

Module EntriesReportRow.
Record t := mk {
  id : string;
  plateNumber : string;
  parkingName : string;
  entryDateTime : Z;
  exitDateTime : option Z;
  chargedAmount : option Q
}.
End EntriesReportRow.

Definition replyError {A} : Reply A := mkReply 500 false None.

(** One row of [generateEntriesReport]; reading [entry.parking.name] of an
    entry without parking throws. *)
Definition entriesReportRow (s : Store) (kv : string * Entry.t)
    : option EntriesReportRow.t :=
  match parkings s !! Entry.parkingCode kv.2 with
  | Some parking =>
    Some (EntriesReportRow.mk kv.1 (Entry.plateNumber kv.2)
            (Parking.name parking) (Entry.entryDateTime kv.2)
            (Entry.exitDateTime kv.2) (Entry.chargedAmount kv.2))
  | None => None
  end.

Definition generateEntriesReport (startDate endDate : DateInput) (s : Store)
    : Reply (list EntriesReportRow.t) :=
  if negb (truthy startDate) || negb (truthy endDate) then replyBadRequest
  else
    match getTime startDate, getTime endDate with
    | Some start, Some stop =>
      if stop <? start then replyBadRequest
      else
        match mapM (entriesReportRow s)
                (map_to_list
                   (findMany (whereEntryBetween start stop) (entries s))) with
        | Some report => replySuccessWith report
        | None => replyError
        end
    | _, _ => replyBadRequest
    end.

(** ** Dashboard statistics (the dashboard page)

    Computed from the answers of [GET /parkings], [GET /entries/active] and
    [GET /entries]; [totalUsers] is what the page counted from
    [GET /users]. *)

Module DashboardStats.
Record t := mk {
  totalParkings : Z;
  availableSpaces : Z;
  occupiedSpaces : Z;
  totalVehicles : Z;
  totalUsers : option Z;
  recentEntries : list (EntryRow.t * string)
}.
End DashboardStats.

(** Insertion for [sort((a, b) => time(b) - time(a))]: [x], which stood
    before the rows of [l], goes before the first row it need not follow. *)
Fixpoint insertRecent (x : EntryRow.t) (l : list EntryRow.t)
    : list EntryRow.t :=
  match l with
  | [] => [x]
  | y :: l' =>
    if Entry.entryDateTime (EntryRow.entry y)
       - Entry.entryDateTime (EntryRow.entry x) <=? 0
    then x :: y :: l'
    else y :: insertRecent x l'
  end.

(** The stable sort by entry instant, latest first. *)
Definition sortRecent (l : list EntryRow.t) : list EntryRow.t :=
  foldr insertRecent [] l.

(** [parkings.find(p => p.code === code)?.name || 'Unknown'] *)
Definition parkingNameOf (parkings : list (string * Parking.t))
    (code : string) : string :=
  orString
    (Parking.name <$> (snd <$> List.find (λ p, String.eqb p.1 code) parkings))
    "Unknown".

Definition dashboardStats (isAdmin : bool) (totalUsers : Z)
    (parkings : list (string * Parking.t))
    (activeEntries allEntries : list EntryRow.t) : DashboardStats.t :=
  DashboardStats.mk
    (Z.of_nat (length parkings))
    (foldl (λ sum p, sum + Parking.availableSpaces p.2) 0 parkings)
    (Z.of_nat (length activeEntries))
    (Z.of_nat (length allEntries))
    (if isAdmin then Some totalUsers else None)
    ((λ entry, (entry,
                parkingNameOf parkings
                  (Entry.parkingCode (EntryRow.entry entry))))
       <$> take 5 (sortRecent allEntries)).

(** The sum of a list of integers. *)
Definition sumZ (l : list Z) : Z := foldr Z.add 0 l.

(** ** Invariants kept by the routes *)

(** At most one open entry per plate and parking. *)
Definition oneOpenEntryPerVehicle (s : Store) : Prop :=
  ∀ i j e e', entries s !! i = Some e → entries s !! j = Some e' →
    Entry.exitDateTime e = None → Entry.exitDateTime e' = None →
    Entry.plateNumber e = Entry.plateNumber e' →
    Entry.parkingCode e = Entry.parkingCode e' →
    i = j.

(** What the validation chains admit into the parkings table. *)
Definition parkingsValidated (s : Store) : Prop :=
  ∀ c p, parkings s !! c = Some p →
    1 <= Parking.totalSpaces p ∧ (0 <= Parking.hourlyFee p)%Q.

(** Every value of the parkings table fits its column. *)
Definition columnsFit (s : Store) : Prop :=
  ∀ c p, parkings s !! c = Some p →
    fitsInteger (Parking.totalSpaces p) = true
    ∧ fitsInteger (Parking.availableSpaces p) = true
    ∧ toDecimal (Parking.hourlyFee p) = Some (Parking.hourlyFee p).

(** A short day on a fresh database: P001 is created with two spaces, two
    vehicles drive in, the first one leaves after a little more than an
    hour. *)
Definition busyDay : list (Env * Request) :=
  [(mkEnv 0 "p1", POST_parkings "P001" "Central Parking" 2 "Downtown" (5 # 2));
   (mkEnv 1000 "e1", POST_entries "RAB123A" "P001");
   (mkEnv 2000 "e2", POST_entries "RAC456B" "P001");
   (mkEnv 3900000 "x1", PUT_entries_exit "e1")].

(** * Properties *)

(** ** Rounding *)

Lemma Qceiling_inject_div (a b : Z) :
  Qceiling (inject_Z a / inject_Z b) = ceil_div a b.
Proof.
  unfold Qceiling, ceil_div. f_equal.
  rewrite Zdiv_Qdiv. apply Qfloor_comp.
  rewrite inject_Z_opp. unfold Qdiv. ring.
Qed.

Lemma ceil_div_nonneg (a b : Z) : 0 <= a -> 0 < b -> 0 <= ceil_div a b.
Proof.
  intros Ha Hb. unfold ceil_div.
  assert ((- a) / b <= 0) by (apply Z.div_le_upper_bound; lia). lia.
Qed.

Lemma ceil_div_pos (a b : Z) : 0 < a -> 0 < b -> 1 <= ceil_div a b.
Proof.
  intros Ha Hb. unfold ceil_div.
  assert ((- a) / b < 0) by (apply Z.div_lt_upper_bound; lia). lia.
Qed.

Lemma ceil_div_bounds (a b : Z) :
  0 < b → a <= ceil_div a b * b < a + b.
Proof.
  intros Hb. unfold ceil_div.
  pose proof (Z.div_mod (- a) b ltac:(lia)) as Hdm.
  pose proof (Z.mod_pos_bound (- a) b Hb) as Hmod. nia.
Qed.

Lemma Qceiling_unique (q : Q) (k : Z) :
  (inject_Z (k - 1) < q)%Q → (q <= inject_Z k)%Q → Qceiling q = k.
Proof.
  intros Hlo Hhi.
  pose proof (Qceiling_lt q) as H1. pose proof (Qle_ceiling q) as H2.
  assert (Qceiling q - 1 < k).
  { rewrite Zlt_Qlt. eapply Qlt_le_trans; done. }
  assert (k - 1 < Qceiling q).
  { rewrite Zlt_Qlt. eapply Qlt_le_trans; done. }
  lia.
Qed.

Lemma Qfloor_unique (q : Q) (k : Z) :
  (inject_Z k <= q)%Q → (q < inject_Z (k + 1))%Q → Qfloor q = k.
Proof.
  intros Hlo Hhi.
  pose proof (Qfloor_le q) as H1. pose proof (Qlt_floor q) as H2.
  assert (Qfloor q < k + 1).
  { rewrite Zlt_Qlt. eapply Qle_lt_trans; done. }
  assert (k < Qfloor q + 1).
  { rewrite Zlt_Qlt. eapply Qle_lt_trans; done. }
  lia.
Qed.

(** ** Rounding to binary64 *)

Lemma roundHalfEven_le (a b N : Z) :
  0 < b → a <= N * b → roundHalfEven a b <= N.
Proof.
  intros Hb Ha. unfold roundHalfEven.
  pose proof (Z.div_mod a b ltac:(lia)) as Hdm.
  pose proof (Z.mod_pos_bound a b Hb) as Hr.
  assert (a / b <= N) by (apply Z.div_le_upper_bound; lia).
  destruct (Z.compare_spec (2 * (a mod b)) b) as [E|E|E]; [|lia|].
  - destruct (Z.even (a / b)); [lia|].
    assert (a / b < N) by nia. lia.
  - assert (a / b < N) by nia. lia.
Qed.

Lemma roundHalfEven_ge (a b N : Z) :
  0 < b → N * b <= a → N <= roundHalfEven a b.
Proof.
  intros Hb Ha. unfold roundHalfEven.
  assert (N <= a / b) by (apply Z.div_le_lower_bound; lia).
  destruct (2 * (a mod b) ?= b); [destruct (Z.even (a / b))| |]; lia.
Qed.

Lemma roundHalfEven_error (a b : Z) :
  0 < b → 2 * Z.abs (roundHalfEven a b * b - a) <= b.
Proof.
  intros Hb. unfold roundHalfEven.
  pose proof (Z.div_mod a b ltac:(lia)) as Hdm.
  pose proof (Z.mod_pos_bound a b Hb) as Hr.
  destruct (Z.compare_spec (2 * (a mod b)) b) as [E|E|E];
    [destruct (Z.even (a / b))| |]; nia.
Qed.

Lemma log2_large (a b : Z) :
  0 < b → 53 <= Z.log2 (a / b) →
  let k := Z.log2 (a / b) in
  0 < 2 ^ (k - 52) ∧ 2 ^ k = 2 ^ 52 * 2 ^ (k - 52) ∧ 2 ^ k * b <= a.
Proof.
  intros Hb Hk k.
  assert (Hq : 0 < a / b).
  { destruct (Z.le_gt_cases (a / b) 0) as [H0|]; [|done].
    pose proof (Z.log2_nonpos (a / b) H0). lia. }
  destruct (Z.log2_spec (a / b) Hq) as [Hlo _]. fold k in Hlo.
  split; [apply Z.pow_pos_nonneg; lia|]. split.
  - rewrite <- Z.pow_add_r by lia. f_equal. lia.
  - pose proof (Z.mul_div_le a b Hb). nia.
Qed.

Lemma roundUnits_le (a b M : Z) :
  0 < b → representable M → a <= M * b → roundUnits a b <= M.
Proof.
  intros Hb (m & j & Hj & Hm & ->) Hle. unfold roundUnits.
  destruct (Z.log2 (a / b) <? 53) eqn:Hk; [by apply roundHalfEven_le|].
  apply Z.ltb_ge in Hk.
  destruct (log2_large a b Hb Hk) as (Hg & Hk2 & Hab).
  set (k := Z.log2 (a / b)) in *.
  assert (Hj2 : 0 < 2 ^ j) by (apply Z.pow_pos_nonneg; lia).
  assert (Hjk : k - 52 <= j).
  { destruct (Z.le_gt_cases (k - 52) j) as [|Hlt]; [done|]. exfalso.
    assert (2 ^ j * 2 ^ 53 <= 2 ^ k).
    { rewrite <- Z.pow_add_r by lia. apply Z.pow_le_mono_r; lia. }
    assert (m * 2 ^ j < 2 ^ k) by nia.
    assert (m * 2 ^ j * b < 2 ^ k * b) by (apply Z.mul_lt_mono_pos_r; lia).
    lia. }
  assert (Hsplit : 2 ^ j = 2 ^ (j - (k - 52)) * 2 ^ (k - 52)).
  { rewrite <- Z.pow_add_r by lia. f_equal. lia. }
  set (g := 2 ^ (k - 52)) in *.
  assert (roundHalfEven a (b * g) <= m * 2 ^ (j - (k - 52))).
  { apply roundHalfEven_le; [lia|]. rewrite Hsplit in Hle. lia. }
  rewrite Hsplit. nia.
Qed.

Lemma roundUnits_ge (a b M : Z) :
  0 < b → representable M → M * b <= a → M <= roundUnits a b.
Proof.
  intros Hb (m & j & Hj & Hm & ->) Hle. unfold roundUnits.
  destruct (Z.log2 (a / b) <? 53) eqn:Hk; [by apply roundHalfEven_ge|].
  apply Z.ltb_ge in Hk.
  destruct (log2_large a b Hb Hk) as (Hg & Hk2 & Hab).
  set (k := Z.log2 (a / b)) in *.
  assert (Hj2 : 0 < 2 ^ j) by (apply Z.pow_pos_nonneg; lia).
  set (g := 2 ^ (k - 52)) in *.
  assert (Hbig : 2 ^ 52 <= roundHalfEven a (b * g)).
  { apply roundHalfEven_ge; [lia|]. nia. }
  destruct (Z.le_gt_cases (k - 52) j) as [Hjk|Hjk].
  - assert (Hsplit : 2 ^ j = 2 ^ (j - (k - 52)) * g).
    { unfold g. rewrite <- Z.pow_add_r by lia. f_equal. lia. }
    assert (m * 2 ^ (j - (k - 52)) <= roundHalfEven a (b * g)).
    { apply roundHalfEven_ge; [lia|]. rewrite Hsplit in Hle. lia. }
    rewrite Hsplit. nia.
  - assert (2 ^ j * 2 ^ 53 <= 2 ^ k).
    { rewrite <- Z.pow_add_r by lia. apply Z.pow_le_mono_r; lia. }
    assert (m * 2 ^ j < 2 ^ k) by nia.
    assert (2 ^ k <= roundHalfEven a (b * g) * g) by nia.
    lia.
Qed.

Lemma roundUnits_error (a b : Z) :
  0 < b → 2 ^ 53 * b <= a →
  2 ^ 53 * Z.abs (roundUnits a b * b - a) <= a.
Proof.
  intros Hb Hab. unfold roundUnits.
  assert (Hk : 53 <= Z.log2 (a / b)).
  { rewrite <- (Z.log2_pow2 53) by lia. apply Z.log2_le_mono.
    apply Z.div_le_lower_bound; lia. }
  destruct (Z.log2 (a / b) <? 53) eqn:E; [apply Z.ltb_lt in E; lia|].
  destruct (log2_large a b Hb Hk) as (Hg & Hk2 & Hab').
  set (k := Z.log2 (a / b)) in *. set (g := 2 ^ (k - 52)) in *.
  pose proof (roundHalfEven_error a (b * g) ltac:(lia)) as Herr.
  replace (roundHalfEven a (b * g) * g * b - a)
    with (roundHalfEven a (b * g) * (b * g) - a) by ring.
  set (e := Z.abs _) in *. 
  assert (2 ^ 52 * (b * g) <= a) by nia.
  replace (2 ^ 53) with (2 ^ 52 * 2) by reflexivity. nia.
Qed.

Lemma roundHalfEven_scale (a b c : Z) :
  0 < b → 0 < c → roundHalfEven (a * c) (b * c) = roundHalfEven a b.
Proof.
  intros Hb Hc. unfold roundHalfEven.
  rewrite Z.div_mul_cancel_r by lia.
  rewrite Zmult_mod_distr_r.
  replace (2 * (a mod b * c)) with (2 * (a mod b) * c) by ring.
  by rewrite <- Zmult_compare_compat_r by lia.
Qed.

Lemma roundUnits_scale (a b c : Z) :
  0 < b → 0 < c → roundUnits (a * c) (b * c) = roundUnits a b.
Proof.
  intros Hb Hc. unfold roundUnits. rewrite Z.div_mul_cancel_r by lia.
  destruct (_ <? 53) eqn:Hk; [by apply roundHalfEven_scale|].
  apply Z.ltb_ge in Hk. set (g := 2 ^ _).
  assert (0 < g) by (apply Z.pow_pos_nonneg; lia).
  replace (b * c * g) with (b * g * c) by ring.
  rewrite roundHalfEven_scale by lia. done.
Qed.

Lemma roundUnits_zero (b : Z) : 0 < b → roundUnits 0 b = 0.
Proof.
  intros Hb.
  assert (H0 : representable 0) by (exists 0, 0; lia).
  pose proof (roundUnits_le 0 b 0 Hb H0 ltac:(lia)).
  pose proof (roundUnits_ge 0 b 0 Hb H0 ltac:(lia)). lia.
Qed.

Lemma roundUnits_nonneg (a b : Z) : 0 <= a → 0 < b → 0 <= roundUnits a b.
Proof.
  intros Ha Hb. apply roundUnits_ge; [done| |lia].
  exists 0, 0. lia.
Qed.

(** [binary64] depends on the value of the rational only. *)
Lemma binary64_comp (x y : Q) : (x == y)%Q → binary64 x = binary64 y.
Proof.
  intros Hxy. unfold binary64.
  assert (Hsgn : Z.sgn (Qnum x) = Z.sgn (Qnum y)).
  { unfold Qeq in Hxy. destruct x as [[|n|n] d], y as [[|n'|n'] d'];
      simpl in *; lia. }
  assert (Hunits :
    roundUnits (Z.abs (Qnum x) * Z.pos quantum) (Z.pos (Qden x))
    = roundUnits (Z.abs (Qnum y) * Z.pos quantum) (Z.pos (Qden y))).
  { rewrite <- (roundUnits_scale _ (Z.pos (Qden x)) (Z.pos (Qden y)))
      by lia.
    rewrite <- (roundUnits_scale (Z.abs (Qnum y) * _) (Z.pos (Qden y))
                  (Z.pos (Qden x))) by lia.
    f_equal; [|lia]. unfold Qeq in Hxy.
    assert (Z.abs (Qnum x) * Z.pos (Qden y) = Z.abs (Qnum y) * Z.pos (Qden x)).
    { rewrite <- (Z.abs_eq (Z.pos (Qden y))), <- (Z.abs_eq (Z.pos (Qden x)))
        by lia. rewrite <- !Z.abs_mul. by rewrite Hxy. }
    nia. }
  rewrite Hunits, Hsgn. done.
Qed.

Lemma binary64_between (x lo hi : Q) :
  isBinary64 lo → isBinary64 hi → (lo <= x)%Q → (x <= hi)%Q →
  ∃ y, binary64 x = Some y ∧ (lo <= y)%Q ∧ (y <= hi)%Q.
Proof.
  intros (L & HL & _ & Hlo) (H & HH & Hfin & Hhi) Hlox Hxhi.
  assert (HL0 : 0 <= L).
  { destruct HL as (m & j & Hj & Hm & ->).
    assert (0 < 2 ^ j) by (apply Z.pow_pos_nonneg; lia). nia. }
  assert (Hlox' : (L # quantum <= x)%Q) by by rewrite <- Hlo.
  assert (Hxhi' : (x <= H # quantum)%Q) by by rewrite <- Hhi.
  destruct x as [n d]. unfold binary64. unfold Qle in Hlox', Hxhi'.
  cbn [Qnum Qden] in *.
  assert (Hn : 0 <= n) by nia.
  rewrite Z.abs_eq by done.
  set (units := roundUnits (n * Z.pos quantum) (Z.pos d)).
  assert (Hge : L <= units) by (apply roundUnits_ge; [lia | done | lia]).
  assert (Hle : units <= H) by (apply roundUnits_le; [lia | done | lia]).
  assert (Hs : Z.sgn n * units = units).
  { destruct (decide (n = 0)) as [->|]; [|rewrite Z.sgn_pos; lia].
    subst units. rewrite Z.mul_0_l, roundUnits_zero; lia. }
  destruct (units <? 2 ^ 2098) eqn:E; [|apply Z.ltb_ge in E; lia].
  eexists. split; [done|]. rewrite Hs, Hlo, Hhi, Qred_correct.
  unfold Qle. cbn [Qnum Qden]. split; nia.
Qed.

Lemma binary64_exact (d : Q) :
  isBinary64 d → ∃ y, binary64 d = Some y ∧ (y == d)%Q.
Proof.
  intros Hd.
  destruct (binary64_between d d d Hd Hd) as (y & Hy & Hlo & Hhi);
    [apply Qle_refl | apply Qle_refl |].
  exists y. split; [done|]. by apply Qle_antisym.
Qed.

(** Away from the subnormal numbers rounding changes a value by at most
    one part in 2^53. *)
Lemma binary64_error (x y : Q) :
  (1 # 2 ^ 1021 <= x)%Q → binary64 x = Some y →
  (x * (1 - (1 # 2 ^ 53)) <= y)%Q ∧ (y <= x * (1 + (1 # 2 ^ 53)))%Q.
Proof.
  intros Hx. unfold binary64. destruct x as [n d].
  assert (Hn : 0 < n).
  { unfold Qle in Hx. simpl in Hx. lia. }
  cbn [Qnum Qden]. rewrite Z.abs_eq, Z.sgn_pos by lia.
  set (units := roundUnits (n * Z.pos quantum) (Z.pos d)).
  destruct (units <? 2 ^ 2098); [|done]. intros [= <-].
  rewrite Qred_correct, Z.mul_1_l.
  pose proof (roundUnits_error (n * Z.pos quantum) (Z.pos d) ltac:(lia)) as He.
  fold units in He.
  assert (Hbig : 2 ^ 53 * Z.pos d <= n * Z.pos quantum).
  { unfold Qle in Hx. simpl in Hx.
    replace (Z.pos quantum) with (2 ^ 53 * Z.pos (2 ^ 1021)) by reflexivity.
    nia. }
  specialize (He Hbig).
  set (U := Z.pos quantum) in *. set (D := Z.pos d) in *.
  unfold Qle, Qmult, Qminus, Qplus, Qopp. simpl.
  fold D. fold U.
  set (P := Z.pos (2 ^ 53)).
  assert (HP : 2 ^ 53 = P) by reflexivity. rewrite HP in He.
  rewrite !Pos2Z.inj_mul. fold D U P. 
  assert (0 < U) by (unfold U; lia). assert (0 < D) by (unfold D; lia).
  assert (0 < P) by (unfold P; lia).
  split; nia.
Qed.

Lemma isBinary64_intro (d : Q) (m j : Z) :
  0 <= m < 2 ^ 53 → 0 <= j <= 2045 →
  (d * inject_Z (Z.pos quantum) == inject_Z (m * 2 ^ j))%Q →
  isBinary64 d.
Proof.
  intros Hm Hj Hd. exists (m * 2 ^ j). split; [exists m, j; split; [lia | done]|]. split.
  - assert (0 < 2 ^ j) by (apply Z.pow_pos_nonneg; lia).
    assert (2 ^ j <= 2 ^ 2045) by (apply Z.pow_le_mono_r; lia).
    replace (2 ^ 2098) with (2 ^ 53 * 2 ^ 2045) by reflexivity.
    apply Z.le_lt_trans with ((2 ^ 53 - 1) * 2 ^ j); [nia|].
    apply Z.lt_le_trans with (2 ^ 53 * 2 ^ j); [nia|].
    apply Z.mul_le_mono_nonneg_l; lia.
  - rewrite Qmake_Qdiv, <- Hd. field. discriminate.
Qed.

(** Integers below [2^53] are binary64 numbers. *)
Lemma isBinary64_integer (z : Z) : 0 <= z < 2 ^ 53 → isBinary64 (inject_Z z).
Proof.
  intros Hz. apply (isBinary64_intro _ z 1074); [done | lia |].
  by rewrite <- inject_Z_mult.
Qed.

(** So are their quotients by a power of two. *)
Lemma isBinary64_dyadic (m e : Z) :
  0 <= m < 2 ^ 53 → 0 <= e <= 1074 →
  isBinary64 (inject_Z m / inject_Z (2 ^ e)).
Proof.
  intros Hm He. apply (isBinary64_intro _ m (1074 - e)); [done | lia |].
  assert (Hpos : 0 < 2 ^ e) by (apply Z.pow_pos_nonneg; lia).
  assert (Hsplit : Z.pos quantum = 2 ^ (1074 - e) * 2 ^ e).
  { rewrite <- Z.pow_add_r by lia. by replace (1074 - e + e) with 1074 by lia. }
  rewrite Hsplit, !inject_Z_mult. field.
  intros H0. apply (inject_Z_injective (2 ^ e) 0) in H0. lia.
Qed.

(** ** Rounding to the DECIMAL(10,2) column *)

Lemma hundredths_of (q : Q) (n : Z) : (q == n # 100)%Q → hundredths q = n.
Proof.
  intros Hq. unfold hundredths.
  assert (Hsgn : Z.sgn (Qnum q) = Z.sgn n).
  { unfold Qeq in Hq. simpl in Hq. destruct q as [[|a|a] d], n; simpl in *; lia. }
  assert (Hfloor : Qfloor (Qabs q * 100 + (1 # 2)) = Z.abs n).
  { apply Qfloor_unique.
    - rewrite (Qabs_wd _ _ Hq), <- Zabs_Qabs.
      unfold Qle, Qmult, Qplus, inject_Z. simpl. lia.
    - rewrite (Qabs_wd _ _ Hq), <- Zabs_Qabs.
      unfold Qlt, Qmult, Qplus, inject_Z. simpl. lia. }
  rewrite Hsgn, Hfloor, Z.mul_comm. apply Z.abs_sgn.
Qed.

Lemma toDecimal_Some (q d : Q) :
  toDecimal q = Some d →
  Z.abs (hundredths q) < 10 ^ 10 ∧ d = Qred (hundredths q # 100).
Proof.
  unfold toDecimal. destruct (_ <? _) eqn:E; [|done].
  intros [= <-]. apply Z.ltb_lt in E. done.
Qed.

Lemma toDecimal_of (q : Q) (n : Z) :
  (q == n # 100)%Q → Z.abs n < 10 ^ 10 →
  toDecimal q = Some (Qred (n # 100)).
Proof.
  intros Hq Hn. unfold toDecimal. rewrite (hundredths_of q n Hq).
  apply Z.ltb_lt in Hn. by rewrite Hn.
Qed.

(** Writing a value read from the column back leaves it as it is. *)
Lemma toDecimal_stored (q d : Q) : toDecimal q = Some d → toDecimal d = Some d.
Proof.
  intros [Hfits ->]%toDecimal_Some.
  apply toDecimal_of; [apply Qred_correct | done].
Qed.

Lemma hundredths_nonneg (q : Q) : (0 <= q)%Q → 0 <= hundredths q.
Proof.
  intros Hq. unfold hundredths.
  assert (0 <= Qnum q) by (unfold Qle in Hq; simpl in Hq; lia).
  assert (0 <= Qfloor (Qabs q * 100 + (1 # 2))).
  { rewrite <- (Qfloor_Z 0). apply Qfloor_resp_le.
    pose proof (Qabs_nonneg q) as Ha.
    apply Qle_trans with (Qabs q * 100 + 0)%Q; [|by apply Qplus_le_r].
    rewrite Qplus_0_r. by apply Qmult_le_0_compat. }
  apply Z.mul_nonneg_nonneg; [by apply Z.sgn_nonneg | done].
Qed.

Lemma toDecimal_nonneg (q d : Q) :
  (0 <= q)%Q → toDecimal q = Some d → (0 <= d)%Q.
Proof.
  intros Hq [_ ->]%toDecimal_Some. rewrite Qred_correct.
  pose proof (hundredths_nonneg q Hq). unfold Qle. simpl. lia.
Qed.

(** The product of a stored amount and an integer has two decimals: when
    it fits the column it is stored as it is. *)
Lemma toDecimal_multiple (q fee d : Q) (h : Z) :
  toDecimal q = Some fee → toDecimal (fee * inject_Z h) = Some d →
  (d == fee * inject_Z h)%Q.
Proof.
  intros [_ ->]%toDecimal_Some [_ ->]%toDecimal_Some.
  rewrite Qred_correct. set (n := hundredths q).
  rewrite (hundredths_of _ (n * h)).
  - rewrite Qred_correct. unfold Qeq, Qmult, inject_Z. simpl. lia.
  - rewrite Qred_correct. unfold Qeq, Qmult, inject_Z. simpl. lia.
Qed.

(** A positive value below half a hundredth is stored as zero. *)
Lemma toDecimal_small (q : Q) :
  (0 <= q)%Q → (q < 1 # 200)%Q → toDecimal q = Some 0%Q.
Proof.
  intros Hq Hsmall.
  assert (Hfloor : Qfloor (Qabs q * 100 + (1 # 2)) = 0).
  { apply Qfloor_unique; rewrite Qabs_pos by done;
      destruct q as [a d]; unfold Qle, Qlt, Qmult, Qplus, inject_Z in *;
      simpl in *; lia. }
  unfold toDecimal, hundredths. rewrite Hfloor, Z.mul_0_r. done.
Qed.

(** ** Queries *)

Section queries.
Context (P : Entry.t → Prop) `{!∀ e, Decision (P e)}.
Implicit Types m : gmap string Entry.t.

Lemma findFirst_None m :
  findFirst P m = None ↔ ∀ i e, m !! i = Some e → ¬ P e.
Proof.
  unfold findFirst, findMany.
  rewrite head_None, map_to_list_empty_iff, map_empty_filter.
  rewrite map_Forall_lookup. done.
Qed.

Lemma findFirst_Some m i e :
  m !! i = Some e → P e → is_Some (findFirst P m).
Proof.
  intros Hi HP. destruct (findFirst P m) eqn:E; [eauto|].
  rewrite findFirst_None in E. by destruct (E i e).
Qed.

Lemma count_nonneg m : 0 <= count P m.
Proof. unfold count. lia. Qed.

Lemma count_insert_delete m i e :
  count P (<[i:=e]> m) = count P (delete i m) + indicator (P e).
Proof.
  unfold count, findMany, indicator.
  rewrite <- (insert_delete_eq m).
  rewrite map_filter_insert. simpl.
  destruct (decide (P e)).
  - rewrite map_size_insert_None; [lia|].
    apply map_lookup_filter_None. left. apply lookup_delete_eq.
  - rewrite delete_id by apply lookup_delete_eq. lia.
Qed.

Lemma count_delete m i :
  count P m = count P (delete i m)
              + match m !! i with Some e => indicator (P e) | None => 0 end.
Proof.
  destruct (m !! i) as [e|] eqn:E.
  - rewrite <- count_insert_delete. by rewrite insert_id.
  - rewrite delete_id by done. lia.
Qed.

Lemma count_insert m i e :
  count P (<[i:=e]> m)
  = count P m
    - match m !! i with Some e0 => indicator (P e0) | None => 0 end
    + indicator (P e).
Proof. rewrite count_insert_delete, (count_delete m i). lia. Qed.

Lemma count_zero m :
  count P m = 0 ↔ ∀ i e, m !! i = Some e → ¬ P e.
Proof.
  unfold count, findMany.
  transitivity (filter (λ kv : string * Entry.t, P kv.2) m = ∅).
  - rewrite <- map_size_empty_iff. lia.
  - rewrite map_empty_filter, map_Forall_lookup. done.
Qed.
End queries.

(** ** The charge *)

Lemma durationInHours_ceil (ex en : Z) :
  durationInHours ex en = ceil_div (ex - en) 3600000.
Proof. unfold durationInHours. apply Qceiling_inject_div. Qed.

(** *** The hours of the dashboard calculator *)

Lemma Qdiv_inject_le (a b c d : Z) :
  0 < b → 0 < d → a * d <= c * b →
  (inject_Z a / inject_Z b <= inject_Z c / inject_Z d)%Q.
Proof.
  intros Hb Hd Hle. destruct b as [|b|b], d as [|d|d]; try lia.
  unfold Qle, Qdiv, Qmult, Qinv, inject_Z. simpl. lia.
Qed.

Lemma Qdiv_inject_lt (a b c d : Z) :
  0 < b → 0 < d → a * d < c * b →
  (inject_Z a / inject_Z b < inject_Z c / inject_Z d)%Q.
Proof.
  intros Hb Hd Hle. destruct b as [|b|b], d as [|d|d]; try lia.
  unfold Qlt, Qdiv, Qmult, Qinv, inject_Z. simpl. lia.
Qed.

Lemma Qdiv_inject_eq (a b c d : Z) :
  0 < b → 0 < d → a * d = c * b →
  (inject_Z a / inject_Z b == inject_Z c / inject_Z d)%Q.
Proof.
  intros Hb Hd Hle. destruct b as [|b|b], d as [|d|d]; try lia.
  unfold Qeq, Qdiv, Qmult, Qinv, inject_Z. simpl. lia.
Qed.

Lemma Qdiv_1 (q : Q) : (q == q / inject_Z 1)%Q.
Proof. unfold Qdiv, Qinv, inject_Z. simpl. by rewrite Qmult_1_r. Qed.

Lemma Qdiv_div_inject (a b c : Z) :
  0 < b → 0 < c →
  (inject_Z a / inject_Z b / inject_Z c == inject_Z a / inject_Z (b * c))%Q.
Proof.
  intros Hb Hc. destruct b as [|b|b], c as [|c|c]; try lia.
  unfold Qeq, Qdiv, Qmult, Qinv, inject_Z. simpl. lia.
Qed.

(** The two divisions of the calculator, each rounded to binary64, do not
    move the quotient across an integer: for a stay of up to [2^31] hours
    the hours charged are the ceiling of the milliseconds over
    3,600,000. *)
Lemma calculator_hours (ms : Z) :
  0 <= ms <= 3600000 * 2 ^ 31 →
  ∃ durationMs durationMinutes hours,
    binary64 (inject_Z ms) = Some durationMs
    ∧ binary64 (durationMs / inject_Z (1000 * 60)) = Some durationMinutes
    ∧ binary64 (durationMinutes / 60) = Some hours
    ∧ Qceiling hours = ceil_div ms 3600000.
Proof.
  intros Hms. change (2 ^ 31) with 2147483648 in Hms.
  change (1000 * 60) with 60000. change 60%Q with (inject_Z 60).
  assert (H53 : 2 ^ 53 = 9007199254740992) by reflexivity.
  destruct (binary64_exact (inject_Z ms)) as (d0 & Hd0 & Heq0);
    [apply isBinary64_integer; lia|].
  exists d0.
  pose proof (ceil_div_bounds ms 3600000 ltac:(lia)) as Hk.
  set (k := ceil_div ms 3600000) in *.
  assert (Hx1 : binary64 (d0 / inject_Z 60000)
                = binary64 (inject_Z ms / inject_Z 60000)).
  { apply binary64_comp. by rewrite Heq0. }
  rewrite Hx1.
  destruct (decide (ms = k * 3600000)) as [Hexact|Hfrac].
  - (* a whole number of hours: both quotients are exact *)
    destruct (binary64_exact (inject_Z (60 * k))) as (d1 & Hd1 & Heq1);
      [apply isBinary64_integer; lia|].
    destruct (binary64_exact (inject_Z k)) as (d2 & Hd2 & Heq2);
      [apply isBinary64_integer; lia|].
    exists d1, d2. split; [done|]. split; [|split].
    + rewrite <- Hd1. apply binary64_comp.
      rewrite (Qdiv_1 (inject_Z (60 * k))). apply Qdiv_inject_eq; lia.
    + rewrite <- Hd2. apply binary64_comp. rewrite Heq1.
      rewrite (Qdiv_1 (inject_Z k)). apply Qdiv_inject_eq; lia.
    + rewrite (Qceiling_comp _ _ Heq2). apply Qceiling_Z.
  - (* otherwise both stay strictly between k - 1 and k *)
    set (lo1 := (inject_Z (60 * (k - 1) * 65536 + 1) / inject_Z 65536)%Q).
    set (lo2 := (inject_Z ((k - 1) * 4194304 + 1) / inject_Z 4194304)%Q).
    assert (Hlo1 : isBinary64 lo1).
    { apply (isBinary64_dyadic (60 * (k - 1) * 65536 + 1) 16); lia. }
    assert (Hlo2 : isBinary64 lo2).
    { apply (isBinary64_dyadic ((k - 1) * 4194304 + 1) 22); lia. }
    assert (Hhi1 : isBinary64 (inject_Z (60 * k)))
      by (apply isBinary64_integer; lia).
    assert (Hhi2 : isBinary64 (inject_Z k))
      by (apply isBinary64_integer; lia).
    destruct (binary64_between (inject_Z ms / inject_Z 60000)
                lo1 (inject_Z (60 * k)) Hlo1 Hhi1)
      as (d1 & Hd1 & Hge1 & Hle1).
    { apply Qdiv_inject_le; lia. }
    { rewrite (Qdiv_1 (inject_Z (60 * k))). apply Qdiv_inject_le; lia. }
    destruct (binary64_between (d1 / inject_Z 60) lo2 (inject_Z k) Hlo2 Hhi2)
      as (d2 & Hd2 & Hge2 & Hle2).
    { apply Qle_trans with (lo1 / inject_Z 60)%Q.
      - unfold lo1, lo2. rewrite Qdiv_div_inject by lia.
        apply Qdiv_inject_le; lia.
      - apply Qmult_le_compat_r; [done | discriminate]. }
    { apply Qle_trans with (inject_Z (60 * k) / inject_Z 60)%Q.
      - apply Qmult_le_compat_r; [done | discriminate].
      - rewrite (Qdiv_1 (inject_Z k)). apply Qdiv_inject_le; lia. }
    exists d1, d2. split; [done|]. split; [done|]. split; [done|].
    apply Qceiling_unique; [|done].
    eapply Qlt_le_trans; [|exact Hge2].
    rewrite (Qdiv_1 (inject_Z (k - 1))). apply Qdiv_inject_lt; lia.
Qed.

Lemma binary64_zero : binary64 0 = Some 0%Q.
Proof. reflexivity. Qed.

Lemma binary64_nonneg (x y : Q) : (0 <= x)%Q → binary64 x = Some y → (0 <= y)%Q.
Proof.
  unfold binary64. destruct x as [n d]. unfold Qle at 1. simpl.
  rewrite Z.mul_1_r. intros Hn.
  destruct (_ <? _); [|done]. intros [= <-]. rewrite Qred_correct.
  pose proof (roundUnits_nonneg (Z.abs n * Z.pos quantum) (Z.pos d)
                ltac:(lia) ltac:(lia)) as Hu.
  unfold Qle. simpl. rewrite Z.mul_1_r.
  apply Z.mul_nonneg_nonneg; [by apply Z.sgn_nonneg | done].
Qed.

(** What the calculator returns for an entry instant and an exit at or
    after it: the binary64 product of the hours and the fee (the double
    the fee denotes). *)
Lemma calculateParkingFee_instants (now : Z) (fee : Q) (en ex : Z)
    (exitDateTime : DateInput) :
  (0 <= fee)%Q → 0 <= ex - en <= 3600000 * 2 ^ 31 →
  computedExit now exitDateTime = Some ex →
  calculateParkingFee now (Some fee) (Instant en) exitDateTime
  = hourlyFee ← binary64 fee;
    binary64 (inject_Z (ceil_div (ex - en) 3600000) * hourlyFee).
Proof.
  intros Hfee Hord Hex. unfold calculateParkingFee. rewrite Hex.
  cbn [truthy negb getTime]. rewrite orb_false_r.
  destruct (Qle_bool fee 0) eqn:E.
  - apply Qle_bool_iff in E.
    assert (Hzero : (fee == 0)%Q) by by apply Qle_antisym.
    rewrite (binary64_comp _ _ Hzero), binary64_zero. cbn [mbind option_bind].
    rewrite (binary64_comp _ 0); [done|]. ring.
  - destruct (ex <? en) eqn:E'; [apply Z.ltb_lt in E'; lia|].
    destruct (binary64 fee) as [hourlyFee|]; [|done]. cbn [mbind option_bind].
    destruct (calculator_hours (ex - en) Hord)
      as (d0 & d1 & d2 & Hd0 & Hd1 & Hd2 & Hhours).
    rewrite Hd0. cbn [mbind option_bind]. rewrite Hd1. cbn [mbind option_bind].
    rewrite Hd2. cbn [mbind option_bind]. by rewrite Hhours.
Qed.

Lemma hoursOfWholeMinutes_exact (ms : Z) :
  0 <= ms → ms mod (1000 * 60) = 0 →
  hoursOfWholeMinutes ms = ceil_div ms 3600000.
Proof.
  intros Hms Hmod. unfold hoursOfWholeMinutes, wholeMinutes.
  assert (Hm : ms = 60000 * (ms / (1000 * 60))).
  { rewrite (Z.div_mod ms (1000 * 60)) at 1 by lia. rewrite Hmod. lia. }
  set (m := ms / (1000 * 60)) in *.
  assert (Heq : ceil_div ms 3600000 = ceil_div m 60).
  { unfold ceil_div. f_equal. rewrite Hm.
    replace (- (60000 * m)) with ((- m) * 60000) by ring.
    replace 3600000 with (60 * 60000) by reflexivity.
    apply Z.div_mul_cancel_r; lia. }
  rewrite Heq. destruct (0 <? ms) eqn:E; [|reflexivity].
  apply Z.ltb_lt in E.
  assert (1 <= ceil_div m 60) by (apply ceil_div_pos; lia). lia.
Qed.

(** C1 (as amended): for a fee [f >= 0] and an exit at or after the entry
    (a stay of up to [2^31] hours) the hours charged, by [registerExit]
    and by the dashboard calculator (the exit given, or omitted and taken
    from the clock), are [ceiling(duration_ms / 3600000)], the duration
    taken in milliseconds, not truncated to whole minutes. Every positive
    duration is charged at least one hour; whenever the duration is a
    whole number of minutes the hours are the ceiling of the minutes over
    sixty. The charge is the hours times the fee: [registerExit] stores
    [hours * f] itself for a fee with two decimals, when the column can
    hold it; the dashboard shows the binary64 product of the hours and the
    double the fee denotes, which for a fee that is a double is [hours * f]
    whenever that is a binary64 number, and at most one part in [2^53]
    away from it otherwise. A stay of 65 minutes at 2.5 is charged 5.0 and
    a stay of one minute 2.5. *)
Theorem charge_rounds_milliseconds_up_to_hours
    (now : Z) (f : Q) (entry exit : Z) (exitDateTime : DateInput)
    (Hfee : (0 <= f)%Q) (Hord : entry <= exit)
    (Hlong : exit - entry <= 3600000 * 2 ^ 31)
    (Hexit : computedExit now exitDateTime = Some exit) :
  let hours := ceil_div (exit - entry) 3600000 in
  let shown := calculateParkingFee now (Some f) (Instant entry) exitDateTime in
  let billed := toDecimal (chargedAmountOf f exit entry) in
  shown = (hourlyFee ← binary64 f; binary64 (inject_Z hours * hourlyFee))
  ∧ (isBinary64 f →
     shown = binary64 (inject_Z hours * f)
     ∧ (isBinary64 (inject_Z hours * f) →
        ∃ charge, shown = Some charge ∧ (charge == inject_Z hours * f)%Q)
     ∧ (∀ charge, shown = Some charge →
          (1 # 2 ^ 1021 <= inject_Z hours * f)%Q →
          (inject_Z hours * f * (1 - (1 # 2 ^ 53)) <= charge)%Q
          ∧ (charge <= inject_Z hours * f * (1 + (1 # 2 ^ 53)))%Q))
  ∧ durationInHours exit entry = hours
  ∧ (∀ n, (f == n # 100)%Q → Z.abs (n * hours) < 10 ^ 10 →
       ∃ charge, billed = Some charge ∧ (charge == inject_Z hours * f)%Q)
  ∧ (0 < exit - entry → 1 <= hours)
  ∧ ((exit - entry) mod (1000 * 60) = 0 →
     hours = hoursOfWholeMinutes (exit - entry))
  ∧ (exit - entry = 65 * (1000 * 60) → (f == 5 # 2)%Q →
     shown = Some 5%Q ∧ billed = Some 5%Q)
  ∧ (exit - entry = 1 * (1000 * 60) → (f == 5 # 2)%Q →
     shown = Some (5 # 2)%Q ∧ billed = Some (5 # 2)%Q).
Proof.
  intros hours shown billed.
  assert (Hgeneral : shown = (hourlyFee ← binary64 f;
                              binary64 (inject_Z hours * hourlyFee))).
  { unfold shown.
    by rewrite (calculateParkingFee_instants now f entry exit);
      [|done | lia | done]. }
  assert (Hshown : ∀ f', isBinary64 f' → (f == f')%Q →
            shown = binary64 (inject_Z hours * f')).
  { intros f' Hnumber Hf'. rewrite Hgeneral, (binary64_comp f f' Hf').
    destruct (binary64_exact f' Hnumber) as (f64 & -> & Hf64).
    cbn [mbind option_bind]. apply binary64_comp. by rewrite Hf64. }
  assert (Hbilled : ∀ n, (f == n # 100)%Q → Z.abs (n * hours) < 10 ^ 10 →
            billed = Some (Qred (n * hours # 100))
            ∧ (Qred (n * hours # 100) == inject_Z hours * f)%Q).
  { intros n Hn Hfits. unfold billed, chargedAmountOf.
    rewrite durationInHours_ceil. fold hours.
    assert (Heq : (f * inject_Z hours == n * hours # 100)%Q).
    { rewrite Hn. unfold Qeq, Qmult, inject_Z. simpl. lia. }
    split; [by apply toDecimal_of|].
    by rewrite Qred_correct, <- Heq, Qmult_comm. }
  assert (Hhalf : isBinary64 (5 # 2)) by (apply (isBinary64_dyadic 5 1); lia).
  split; [done|]. split; [|split; [|split; [|split; [|split; [|split]]]]].
  - intros Hnumber.
    pose proof (Hshown f Hnumber ltac:(reflexivity)) as Hf.
    split; [done|]. split.
    + intros Hexact. rewrite Hf. by apply binary64_exact.
    + intros charge Hcharge Hnormal. rewrite Hf in Hcharge.
      by apply binary64_error.
  - apply durationInHours_ceil.
  - intros n Hn Hfits. destruct (Hbilled n Hn Hfits) as [-> Heq]. by eexists.
  - intros Hpos. apply ceil_div_pos; lia.
  - intros Hmod. symmetry. apply hoursOfWholeMinutes_exact; [lia | done].
  - intros Hd Hf. specialize (Hshown (5 # 2)%Q Hhalf Hf).
    subst hours. rewrite Hd in Hshown, Hbilled. split.
    + rewrite Hshown. by vm_compute.
    + destruct (Hbilled 250) as [-> _];
        [rewrite Hf; reflexivity | reflexivity | by vm_compute].
  - intros Hd Hf. specialize (Hshown (5 # 2)%Q Hhalf Hf).
    subst hours. rewrite Hd in Hshown, Hbilled. split.
    + rewrite Hshown. by vm_compute.
    + destruct (Hbilled 250) as [-> _];
        [rewrite Hf; reflexivity | reflexivity | by vm_compute].
Qed.

Lemma charge_rounds_milliseconds_up_to_hours_witness :
  (0 <= 5 # 2)%Q ∧ 0 <= 3600001 ∧
  calculateParkingFee 0 (Some (5 # 2)%Q) (Instant 0) (Instant 3600001)
  = Some 5%Q.
Proof.
  split; [vm_compute; discriminate|]. split; [lia|].
  destruct (charge_rounds_milliseconds_up_to_hours
              0 (5 # 2) 0 3600001 (Instant 3600001)) as [Hshown _];
    [vm_compute; discriminate | lia | vm_compute; discriminate
    | reflexivity |].
  rewrite Hshown. by vm_compute.
Defined.

(** C1 (as stated) fails: one millisecond past the hour the code charges
    two hours, where whole minutes (60) would give one. *)
Lemma charge_of_whole_minutes_counterexample :
  calculateParkingFee 0 (Some (5 # 2)%Q) (Instant 0) (Instant 3600001)
  = Some 5%Q
  ∧ toDecimal (chargedAmountOf (5 # 2) 3600001 0) = Some 5%Q
  ∧ (chargeOfWholeMinutes (5 # 2) 0 3600001 == 5 # 2)%Q
  ∧ ¬ (5 == chargeOfWholeMinutes (5 # 2) 0 3600001)%Q.
Proof. repeat split; vm_compute; congruence. Qed.

Lemma chargedAmountOf_nonneg (f : Q) (exit entry : Z) :
  (0 <= f)%Q → entry <= exit → (0 <= chargedAmountOf f exit entry)%Q.
Proof.
  intros Hf Hord. unfold chargedAmountOf. rewrite durationInHours_ceil.
  apply Qmult_le_0_compat; [done|].
  change 0%Q with (inject_Z 0). rewrite <- Zle_Qle.
  apply ceil_div_nonneg; lia.
Qed.

Lemma calculateParkingFee_zero
    (now : Z) (hourlyFee : option Q) (entryDateTime exitDateTime : DateInput) :
  hourlyFee = None
  ∨ (∃ f, hourlyFee = Some f ∧ (f <= 0)%Q)
  ∨ entryDateTime = Absent
  ∨ entryDateTime = Unparseable
  ∨ computedExit now exitDateTime = None
  ∨ (∃ en ex, getTime entryDateTime = Some en
              ∧ computedExit now exitDateTime = Some ex ∧ ex < en) →
  calculateParkingFee now hourlyFee entryDateTime exitDateTime = Some 0%Q.
Proof.
  unfold calculateParkingFee.
  intros [-> | [(f & -> & Hf) | [-> | [-> | [Hexit | (en & ex & Hen & Hex & Hlt)]]]]].
  - reflexivity.
  - apply Qle_bool_iff in Hf. by rewrite Hf.
  - destruct hourlyFee as [f|]; [|done]. by rewrite orb_true_r.
  - destruct hourlyFee as [f|]; [|done]. simpl.
    by destruct (Qle_bool f 0).
  - destruct hourlyFee as [f|]; [|done]. rewrite Hexit.
    destruct (_ || _); [done|]. by destruct (getTime entryDateTime).
  - destruct hourlyFee as [f|]; [|done]. rewrite Hen, Hex.
    destruct (_ || _); [done|].
    apply Z.ltb_lt in Hlt. by rewrite Hlt.
Qed.

(** C3, the defect: with the clock of the exit request two hours before
    the recorded entry, [registerExit] closes the entry with the amount
    -5.00, where the dashboard calculator returns zero for the same fee and
    the same two instants. *)
Theorem registerExit_bills_a_negative_amount :
  let s := run [(mkEnv 0 "p1", POST_parkings "P001" "Central Parking" 100
                                  "Downtown" (5 # 2));
                (mkEnv 7200000 "e1", POST_entries "RAB123A" "P001")]
               emptyStore in
  let out := registerExit (mkEnv 0 "u") "e1" s in
  Entry.entryDateTime <$> entries s !! "e1" = Some 7200000
  ∧ Parking.hourlyFee <$> parkings s !! "P001" = Some (5 # 2)%Q
  ∧ status out.2 = 200
  ∧ Entry.exitDateTime <$> entries out.1 !! "e1" = Some (Some 0)
  ∧ Entry.chargedAmount <$> entries out.1 !! "e1" = Some (Some (-5)%Q)
  ∧ calculateParkingFee 0 (Some (5 # 2)%Q) (Instant 7200000) (Instant 0)
    = Some 0%Q.
Proof. vm_compute. repeat split. Qed.

(** ** The controllers, request by request *)

Ltac unfold_controllers :=
  unfold handle, registerEntry, registerExit, createParking, updateParking,
    deleteParking in *.

(** C4: [registerEntry] answers 404 when no parking has the code, 400 when
    the parking has no available space (zero, or below), 409 when the parking has space but
    an open entry with the same plate and code exists; on each of these,
    and on every answer other than 201, the store is unchanged. *)
Theorem registerEntry_failures_leave_store
    (env : Env) (plateNumber parkingCode : string) (s : Store) :
  (parkings s !! parkingCode = None →
   registerEntry env plateNumber parkingCode s = (s, ServerResponse.notFound)
   ∧ status ServerResponse.notFound = 404)
  ∧ (∀ p, parkings s !! parkingCode = Some p →
          Parking.availableSpaces p <= 0 →
          registerEntry env plateNumber parkingCode s
          = (s, ServerResponse.badRequest)
          ∧ status ServerResponse.badRequest = 400)
  ∧ (∀ p i e, parkings s !! parkingCode = Some p →
              0 < Parking.availableSpaces p →
              entries s !! i = Some e →
              Entry.plateNumber e = plateNumber →
              Entry.parkingCode e = parkingCode →
              Entry.exitDateTime e = None →
              registerEntry env plateNumber parkingCode s
              = (s, ServerResponse.conflict)
              ∧ status ServerResponse.conflict = 409)
  ∧ (status (registerEntry env plateNumber parkingCode s).2 ≠ 201 →
     (registerEntry env plateNumber parkingCode s).1 = s).
Proof.
  split; [|split; [|split]].
  - intros Hp. unfold registerEntry. by rewrite Hp.
  - intros p Hp Hfull. unfold registerEntry. rewrite Hp.
    apply Z.leb_le in Hfull. by rewrite Hfull.
  - intros p i e Hp Hroom Hi Hplate Hcode Hopen.
    unfold registerEntry. rewrite Hp.
    destruct (Parking.availableSpaces p <=? 0) eqn:E;
      [apply Z.leb_le in E; lia|].
    destruct (findFirst_Some (whereActive plateNumber parkingCode)
                (entries s) i e) as [x Hx]; [done | by repeat split |].
    by rewrite Hx.
  - unfold registerEntry. repeat case_match; simpl; done.
Qed.

Lemma registerExit_closed (env : Env) (id : string) (s : Store) (e : Entry.t) :
  entries s !! id = Some e → is_Some (Entry.exitDateTime e) →
  registerExit env id s = (s, ServerResponse.conflict).
Proof.
  intros Hi [t Ht]. unfold registerExit. by rewrite Hi, Ht.
Qed.

Lemma handle_keeps_closed (env : Env) (r : Request) (s : Store)
    (i : string) (e : Entry.t) :
  entries s !! i = Some e → is_Some (Entry.exitDateTime e) →
  entries (handle env r s).1 !! i = Some e.
Proof.
  intros Hi [t Ht]. destruct r; unfold_controllers;
    repeat case_match; simpl; try done;
    (rewrite lookup_insert_ne; [done | congruence]).
Qed.

Lemma run_keeps_closed (reqs : list (Env * Request)) (s : Store)
    (i : string) (e : Entry.t) :
  entries s !! i = Some e → is_Some (Entry.exitDateTime e) →
  entries (run reqs s) !! i = Some e.
Proof.
  revert s. induction reqs as [|[env r] reqs IH]; intros s Hi Hc; [done|].
  simpl. apply IH; [|done]. by apply handle_keeps_closed.
Qed.

(** C5: [registerExit] answers 404 when no entry has the id and 409 when
    the entry already has an exit instant, the store unchanged in both
    cases; an entry closed by a successful [registerExit] stays exactly as
    it is under every later sequence of requests, and every later
    [registerExit] on it is answered 409. *)
Theorem registerExit_failures_and_closed_is_terminal
    (env : Env) (id : string) (s : Store) :
  (entries s !! id = None →
   registerExit env id s = (s, ServerResponse.notFound)
   ∧ status ServerResponse.notFound = 404)
  ∧ (∀ e, entries s !! id = Some e → is_Some (Entry.exitDateTime e) →
          registerExit env id s = (s, ServerResponse.conflict)
          ∧ status ServerResponse.conflict = 409)
  ∧ (status (registerExit env id s).2 = 200 →
     ∃ closed,
       entries (registerExit env id s).1 !! id = Some closed
       ∧ is_Some (Entry.exitDateTime closed)
       ∧ ∀ reqs env',
           let later := run reqs (registerExit env id s).1 in
           entries later !! id = Some closed
           ∧ registerExit env' id later = (later, ServerResponse.conflict)).
Proof.
  split; [|split].
  - intros Hi. unfold registerExit. by rewrite Hi.
  - intros e Hi Hc. split; [by eapply registerExit_closed | done].
  - intros Hok.
    assert (∃ closed, entries (registerExit env id s).1 !! id = Some closed
                      ∧ is_Some (Entry.exitDateTime closed))
      as (closed & Hi & Hc).
    { revert Hok. unfold registerExit. repeat case_match; simpl; try done.
      intros _. eexists. rewrite lookup_insert_eq. split; [done|]. by eexists. }
    exists closed. split; [done|]. split; [done|].
    intros reqs env' later.
    assert (entries later !! id = Some closed) by by apply run_keeps_closed.
    split; [done|]. by eapply registerExit_closed.
Qed.

(** ** Charged exactly when exited *)

Lemma handle_chargedIffExited (env : Env) (r : Request) (s : Store) :
  chargedIffExited s → chargedIffExited (handle env r s).1.
Proof.
  intros Hs. destruct r; unfold_controllers;
    repeat case_match; simpl; try done;
    intros i e; simpl; rewrite lookup_insert_Some;
    (intros [[_ <-] | [_ Hi]]; [simpl | by eapply Hs]).
  - split; intros [x Hx]; discriminate.
  - split; intros _; by eexists.
  - split; intros _; by eexists.
Qed.

Lemma run_chargedIffExited (reqs : list (Env * Request)) (s : Store) :
  chargedIffExited s → chargedIffExited (run reqs s).
Proof.
  revert s. induction reqs as [|[env r] reqs IH]; intros s Hs; [done|].
  simpl. apply IH. by apply handle_chargedIffExited.
Qed.

(** C9: in every state the routes can reach, an entry has a charged amount
    exactly when it has an exit instant; a registered entry is created with
    neither, and a registered exit sets both in one update. *)
Theorem charged_iff_exited_in_reachable_states :
  (∀ s, reachable s → chargedIffExited s)
  ∧ (∀ env plate code s,
       status (registerEntry env plate code s).2 = 201 →
       ∃ e, entries (registerEntry env plate code s).1 !! uuid env = Some e
            ∧ Entry.exitDateTime e = None ∧ Entry.chargedAmount e = None)
  ∧ (∀ env id s,
       status (registerExit env id s).2 = 200 →
       ∃ e, entries (registerExit env id s).1 !! id = Some e
            ∧ Entry.exitDateTime e = Some (now env)
            ∧ is_Some (Entry.chargedAmount e)).
Proof.
  split; [|split].
  - intros s [reqs ->]. apply run_chargedIffExited.
    intros i e Hi. simpl in Hi. by rewrite lookup_empty in Hi.
  - intros env plate code s. unfold registerEntry.
    repeat case_match; simpl; try done. intros _.
    eexists. rewrite lookup_insert_eq. done.
  - intros env id s. unfold registerExit.
    repeat case_match; simpl; try done. intros _.
    eexists. rewrite lookup_insert_eq. split; [done|]. split; [done|].
    by eexists.
Qed.

(** ** What each controller does to the store *)

Lemma adjustment_is_delta (t total : Z) :
  (if t =? total then 0 else t - total) = t - total.
Proof. destruct (t =? total) eqn:E; [apply Z.eqb_eq in E; lia | done]. Qed.

Lemma registerEntry_cases (env : Env) (plate code : string) (s : Store) :
  ((registerEntry env plate code s).1 = s
   ∧ status (registerEntry env plate code s).2 ≠ 201)
  ∨ (∃ p, parkings s !! code = Some p
          ∧ 0 < Parking.availableSpaces p
          ∧ findFirst (whereActive plate code) (entries s) = None
          ∧ entries s !! uuid env = None
          ∧ (registerEntry env plate code s).1
            = mkStore (alter (incrementAvailable (-1)) code (parkings s))
                      (<[uuid env := Entry.mk plate code (now env) None None]>
                         (entries s))
          ∧ status (registerEntry env plate code s).2 = 201).
Proof.
  unfold registerEntry.
  destruct (parkings s !! code) as [p|] eqn:Hp; [|by left].
  destruct (Parking.availableSpaces p <=? 0) eqn:Hroom; [by left|].
  destruct (findFirst _ _) eqn:Hfirst; [by left|].
  destruct (entries s !! uuid env) eqn:Hid; [by left|].
  right. exists p. apply Z.leb_gt in Hroom. done.
Qed.

Lemma registerExit_cases (env : Env) (id : string) (s : Store) :
  ((registerExit env id s).1 = s
   ∧ status (registerExit env id s).2 ≠ 200)
  ∨ (∃ e p stored,
       entries s !! id = Some e
       ∧ Entry.exitDateTime e = None
       ∧ parkings s !! Entry.parkingCode e = Some p
       ∧ toDecimal (chargedAmountOf (Parking.hourlyFee p) (now env)
                      (Entry.entryDateTime e)) = Some stored
       ∧ (registerExit env id s).1
         = mkStore (if fitsInteger (Parking.availableSpaces p + 1)
                    then alter (incrementAvailable 1) (Entry.parkingCode e)
                           (parkings s)
                    else parkings s)
                   (<[id := Entry.mk (Entry.plateNumber e)
                              (Entry.parkingCode e) (Entry.entryDateTime e)
                              (Some (now env)) (Some stored)]> (entries s))
       ∧ status (registerExit env id s).2
         = if fitsInteger (Parking.availableSpaces p + 1) then 200 else 500).
Proof.
  unfold registerExit.
  destruct (entries s !! id) as [e|] eqn:He; [|by left].
  destruct (Entry.exitDateTime e) eqn:Hopen; [by left|].
  destruct (parkings s !! Entry.parkingCode e) as [p|] eqn:Hp; [|by left].
  destruct (toDecimal _) as [stored|] eqn:Hstored; [|by left].
  right. exists e, p, stored.
  by destruct (fitsInteger (Parking.availableSpaces p + 1)).
Qed.

Lemma createParking_cases (code name : string) (t : Z) (loc : string)
    (fee : Q) (s : Store) :
  ((createParking code name t loc fee s).1 = s
   ∧ status (createParking code name t loc fee s).2 ≠ 201)
  ∨ (∃ stored,
       parkings s !! code = None
       ∧ toDecimal fee = Some stored
       ∧ fitsInteger t = true
       ∧ (createParking code name t loc fee s).1
         = mkStore (<[code := Parking.mk name t t loc stored]> (parkings s))
                   (entries s)
       ∧ status (createParking code name t loc fee s).2 = 201).
Proof.
  unfold createParking. destruct (parkings s !! code); [by left|].
  destruct (toDecimal fee) as [stored|]; [|by left].
  destruct (fitsInteger t) eqn:Ht; [|by left].
  right. by exists stored.
Qed.

Lemma updateParking_cases (code : string) (name : option string)
    (t : option Z) (loc : option string) (fee : option Q) (s : Store) :
  ((updateParking code name t loc fee s).1 = s
   ∧ status (updateParking code name t loc fee s).2 ≠ 200)
  ∨ (∃ p stored,
       parkings s !! code = Some p
       ∧ toDecimal (orQ fee (Parking.hourlyFee p)) = Some stored
       ∧ fitsInteger (orZ t (Parking.totalSpaces p)) = true
       ∧ fitsInteger (Parking.availableSpaces p
                      + from_option (λ t, t - Parking.totalSpaces p) 0 t)
         = true
       ∧ (updateParking code name t loc fee s).1
         = mkStore
             (<[code := Parking.mk
                  (orString name (Parking.name p))
                  (orZ t (Parking.totalSpaces p))
                  (Parking.availableSpaces p
                   + from_option (λ t, t - Parking.totalSpaces p) 0 t)
                  (orString loc (Parking.location p))
                  stored]> (parkings s))
             (entries s)
       ∧ status (updateParking code name t loc fee s).2 = 200).
Proof.
  unfold updateParking.
  destruct (parkings s !! code) as [p|] eqn:Hp; [|by left].
  assert (Hadj : match t with
                 | Some t => if t =? Parking.totalSpaces p then 0
                             else t - Parking.totalSpaces p
                 | None => 0
                 end = from_option (λ t, t - Parking.totalSpaces p) 0 t).
  { destruct t as [t|]; simpl; [apply adjustment_is_delta | done]. }
  rewrite Hadj.
  destruct (toDecimal _) as [stored|] eqn:Hstored; [|by left].
  destruct (fitsInteger (orZ t _)) eqn:Htotal; [|by left].
  destruct (fitsInteger (_ + _)) eqn:Havail; [|by left].
  right. by exists p, stored.
Qed.

Lemma deleteParking_cases (code : string) (s : Store) :
  ((deleteParking code s).1 = s ∧ status (deleteParking code s).2 ≠ 200)
  ∨ (count (whereIn code) (entries s) = 0
     ∧ (deleteParking code s).1 = mkStore (delete code (parkings s)) (entries s)
     ∧ status (deleteParking code s).2 = 200).
Proof.
  unfold deleteParking.
  destruct (parkings s !! code); [|by left].
  destruct (0 <? count (whereOpenIn code) _); [by left|].
  destruct (0 <? count (whereIn code) _) eqn:E; [by left|].
  right. apply Z.ltb_ge in E.
  pose proof (count_nonneg (whereIn code) (entries s)).
  split; [lia | done].
Qed.

(** ** The space ledger *)

Lemma fitsInteger_spec (z : Z) :
  fitsInteger z = true ↔ -2147483648 <= z < 2147483648.
Proof.
  unfold fitsInteger. change (2 ^ 31) with 2147483648.
  rewrite andb_true_iff, Z.leb_le, Z.ltb_lt. done.
Qed.

Lemma notEmpty_true (x : string) : x ≠ "" → notEmpty x = true.
Proof.
  intros Hx. unfold notEmpty. destruct (String.eqb x "") eqn:E; [|done].
  by apply String.eqb_eq in E.
Qed.

Lemma availableSpaces_delta
    (env : Env) (r : Request) (s : Store) (c : string) (p p' : Parking.t) :
  parkings s !! c = Some p →
  parkings (handle env r s).1 !! c = Some p' →
  Parking.availableSpaces p' - Parking.availableSpaces p
  = allowedDelta r (handle env r s).2 s c.
Proof.
  intros Hp. destruct r as [code ? t ? ?|code ? t ? ?|code|? code|id]; simpl.
  - (* creation *)
    destruct (_ && _);
      [|simpl; intros; simplify_eq; lia].
    destruct (createParking_cases code name t location hourlyFee s)
      as [[-> _] | (stored & Hnew & _ & _ & -> & _)]; simpl.
    + intros. simplify_eq. lia.
    + rewrite lookup_insert_ne by congruence. intros. simplify_eq. lia.
  - (* update *)
    destruct (_ && _);
      [|simpl; intros; simplify_eq; destruct t; [|lia];
        destruct (parkings s !! code); [|lia]; rewrite andb_false_r; lia].
    destruct (updateParking_cases code name t location hourlyFee s)
      as [[-> Hst] | (p0 & stored & Hp0 & _ & _ & _ & -> & Hst)]; simpl.
    + intros. simplify_eq. apply Z.eqb_neq in Hst. rewrite Hst.
      destruct t; [|lia]. destruct (parkings s !! code); [|lia].
      rewrite andb_false_r. lia.
    + rewrite Hst, Hp0. simpl. destruct (decide (code = c)) as [->|Hne].
      * rewrite lookup_insert_eq. intros [= <-]. simpl. simplify_eq.
        rewrite bool_decide_eq_true_2 by done. destruct t; simpl; lia.
      * rewrite lookup_insert_ne by done. intros. simplify_eq.
        rewrite bool_decide_eq_false_2 by done. destruct t; simpl; lia.
  - (* deletion *)
    destruct (notEmpty code); [|simpl; intros; simplify_eq; lia].
    destruct (deleteParking_cases code s) as [[-> _] | (_ & -> & _)]; simpl.
    + intros. simplify_eq. lia.
    + intros [_ ?]%lookup_delete_Some. simplify_eq. lia.
  - (* entry *)
    destruct (_ && _);
      [|simpl; intros; simplify_eq; rewrite andb_false_r; lia].
    destruct (registerEntry_cases env plateNumber code s)
      as [[-> Hst] | (p0 & Hp0 & _ & _ & _ & -> & Hst)]; simpl.
    + intros. simplify_eq. apply Z.eqb_neq in Hst.
      rewrite Hst, andb_false_r. lia.
    + rewrite Hst. simpl. destruct (decide (code = c)) as [->|Hne].
      * rewrite lookup_alter_eq, Hp. intros [= <-]. simpl.
        rewrite bool_decide_eq_true_2 by done. simpl. lia.
      * rewrite lookup_alter_ne by done. intros. simplify_eq.
        rewrite bool_decide_eq_false_2 by done. simpl. lia.
  - (* exit *)
    destruct (notEmpty id);
      [|simpl; intros; simplify_eq; destruct (entries s !! id); [|lia];
        rewrite andb_false_r; lia].
    destruct (registerExit_cases env id s)
      as [[-> Hst] | (e & p0 & stored & He & _ & Hp0 & _ & -> & Hst)]; simpl.
    + intros. simplify_eq. apply Z.eqb_neq in Hst. rewrite Hst.
      destruct (entries s !! id); [|lia]. rewrite andb_false_r. lia.
    + rewrite Hst, He.
      destruct (fitsInteger (Parking.availableSpaces p0 + 1)); simpl.
      * destruct (decide (Entry.parkingCode e = c)) as [<-|Hne].
        -- rewrite lookup_alter_eq, Hp. intros [= <-]. simpl.
           rewrite bool_decide_eq_true_2 by done. simpl. lia.
        -- rewrite lookup_alter_ne by done. intros. simplify_eq.
           rewrite bool_decide_eq_false_2 by done. simpl. lia.
      * intros. simplify_eq. rewrite andb_false_r. lia.
Qed.

Lemma totalSpaces_delta
    (env : Env) (r : Request) (s : Store) (c : string) (p p' : Parking.t) :
  parkings s !! c = Some p →
  parkings (handle env r s).1 !! c = Some p' →
  match r with
  | PUT_parkings _ _ (Some _) _ _ =>
    Parking.totalSpaces p' - Parking.totalSpaces p
    = allowedDelta r (handle env r s).2 s c
  | _ => Parking.totalSpaces p' = Parking.totalSpaces p
  end.
Proof.
  intros Hp. destruct r as [code ? t ? ?|code ? t ? ?|code|? code|id];
    unfold handle.
  - destruct (_ && _); [|simpl; intros; by simplify_eq].
    destruct (createParking_cases code name t location hourlyFee s)
      as [[-> _] | (stored & Hnew & _ & _ & -> & _)]; simpl.
    + intros. by simplify_eq.
    + rewrite lookup_insert_ne by congruence. intros. by simplify_eq.
  - destruct (notEmpty code && optional isIntMin1 t) eqn:Hvalid;
      [rewrite andb_true_l|rewrite andb_false_l].
    2:{ simpl. intros. simplify_eq. destruct t; [|done].
        destruct (parkings s !! code); [|lia]. rewrite andb_false_r. lia. }
    destruct (optional isFloatMin0 hourlyFee).
    2:{ simpl. intros. simplify_eq. destruct t; [|done].
        destruct (parkings s !! code); [|lia]. rewrite andb_false_r. lia. }
    destruct (updateParking_cases code name t location hourlyFee s)
      as [[-> Hst] | (p0 & stored & Hp0 & _ & _ & _ & -> & Hst)]; simpl.
    + intros. simplify_eq. apply Z.eqb_neq in Hst. rewrite Hst.
      destruct t; [|done]. destruct (parkings s !! code); [|lia].
      rewrite andb_false_r. lia.
    + rewrite Hst, Hp0. simpl. destruct (decide (code = c)) as [->|Hne].
      * rewrite lookup_insert_eq. intros [= <-]. simpl. simplify_eq.
        rewrite bool_decide_eq_true_2 by done. destruct t as [t|]; [|done].
        simpl. apply andb_prop in Hvalid as [_ Ht]. simpl in Ht.
        apply Z.leb_le in Ht.
        destruct (t =? 0) eqn:E; [apply Z.eqb_eq in E|]; lia.
      * rewrite lookup_insert_ne by done. intros. simplify_eq.
        rewrite bool_decide_eq_false_2 by done. destruct t; simpl; [lia|done].
  - destruct (notEmpty code); [|simpl; intros; by simplify_eq].
    destruct (deleteParking_cases code s) as [[-> _] | (_ & -> & _)]; simpl.
    + intros. by simplify_eq.
    + intros [_ ?]%lookup_delete_Some. by simplify_eq.
  - destruct (_ && _); [|simpl; intros; by simplify_eq].
    destruct (registerEntry_cases env plateNumber code s)
      as [[-> Hst] | (p0 & Hp0 & _ & _ & _ & -> & Hst)]; simpl.
    + intros. by simplify_eq.
    + destruct (decide (code = c)) as [->|Hne].
      * rewrite lookup_alter_eq, Hp. by intros [= <-].
      * rewrite lookup_alter_ne by done. intros. by simplify_eq.
  - destruct (notEmpty id); [|simpl; intros; by simplify_eq].
    destruct (registerExit_cases env id s)
      as [[-> Hst] | (e & p0 & stored & He & _ & Hp0 & _ & -> & Hst)]; simpl.
    + intros. by simplify_eq.
    + destruct (fitsInteger (Parking.availableSpaces p0 + 1));
        [|intros; by simplify_eq].
      destruct (decide (Entry.parkingCode e = c)) as [<-|Hne].
      * rewrite lookup_alter_eq, Hp. by intros [= <-].
      * rewrite lookup_alter_ne by done. intros. by simplify_eq.
Qed.

Lemma parking_stays (env : Env) (r : Request) (s : Store) (c : string)
    (p : Parking.t) :
  parkings s !! c = Some p →
  parkings (handle env r s).1 !! c = None →
  r = DELETE_parkings c ∧ status (handle env r s).2 = 200.
Proof.
  intros Hp. destruct r as [code ? t ? ?|code ? t ? ?|code|? code|id];
    unfold handle.
  - destruct (_ && _); [|simpl; congruence].
    destruct (createParking_cases code name t location hourlyFee s)
      as [[-> _] | (stored & Hnew & _ & _ & -> & _)]; simpl; [congruence|].
    rewrite lookup_insert_None. intros [? _]. congruence.
  - destruct (_ && _); [|simpl; congruence].
    destruct (updateParking_cases code name t location hourlyFee s)
      as [[-> Hst] | (p0 & stored & Hp0 & _ & _ & _ & -> & Hst)]; simpl;
      [congruence|].
    rewrite lookup_insert_None. intros [? _]. congruence.
  - destruct (notEmpty code); [|simpl; congruence].
    destruct (deleteParking_cases code s) as [[-> _] | (_ & -> & Hst)]; simpl;
      [congruence|].
    rewrite lookup_delete_None. intros [-> | ?]; [done | congruence].
  - destruct (_ && _); [|simpl; congruence].
    destruct (registerEntry_cases env plateNumber code s)
      as [[-> Hst] | (p0 & Hp0 & _ & _ & _ & -> & Hst)]; simpl; [congruence|].
    rewrite lookup_alter_None. congruence.
  - destruct (notEmpty id); [|simpl; congruence].
    destruct (registerExit_cases env id s)
      as [[-> Hst] | (e & p0 & stored & He & _ & Hp0 & _ & -> & Hst)]; simpl;
      [congruence|].
    destruct (fitsInteger _); [|congruence].
    rewrite lookup_alter_None. congruence.
Qed.

Lemma registerEntry_succeeds (env : Env) (plate code : string) (s : Store)
    (p : Parking.t) :
  parkings s !! code = Some p →
  0 < Parking.availableSpaces p →
  (∀ i e, entries s !! i = Some e → ¬ whereActive plate code e) →
  entries s !! uuid env = None →
  status (registerEntry env plate code s).2 = 201.
Proof.
  intros Hp Hroom Hnone Hid. unfold registerEntry. rewrite Hp.
  destruct (Parking.availableSpaces p <=? 0) eqn:E;
    [apply Z.leb_le in E; lia|].
  apply (findFirst_None (whereActive plate code)) in Hnone.
  by rewrite Hnone, Hid.
Qed.

(** C7: whatever the request, the available spaces of a parking that is
    there before and after change by the delta of the totals for a
    successful update giving a total (and the total changes by that same
    delta), by minus one for a registered entry, by plus one for a
    registered exit, and not at all otherwise; only an update giving a
    total changes the total, and only its deletion removes a parking. And
    these transitions do happen: a registration that passes the checks of
    [registerEntry] is answered 201 and takes one space of its parking,
    the exit of an open entry is answered 200 and gives one space back
    (when amount and count fit their columns), and a valid update giving
    a total is answered 200 and moves total and available spaces by the
    difference. *)
Theorem availableSpaces_changes_only_as_allowed
    (env : Env) (r : Request) (s : Store) :
  let s' := (handle env r s).1 in
  let resp := (handle env r s).2 in
  (∀ c p p', parkings s !! c = Some p → parkings s' !! c = Some p' →
     Parking.availableSpaces p' - Parking.availableSpaces p
     = allowedDelta r resp s c
     ∧ match r with
       | PUT_parkings _ _ (Some _) _ _ =>
         Parking.totalSpaces p' - Parking.totalSpaces p
         = allowedDelta r resp s c
       | _ => Parking.totalSpaces p' = Parking.totalSpaces p
       end)
  ∧ (∀ c p, parkings s !! c = Some p → parkings s' !! c = None →
       r = DELETE_parkings c ∧ status resp = 200)
  ∧ (∀ plate code p,
       r = POST_entries plate code → plate ≠ "" → code ≠ "" →
       parkings s !! code = Some p → 0 < Parking.availableSpaces p →
       (∀ i e, entries s !! i = Some e → ¬ whereActive plate code e) →
       entries s !! uuid env = None →
       status resp = 201
       ∧ ∃ p', parkings s' !! code = Some p'
               ∧ Parking.availableSpaces p' = Parking.availableSpaces p - 1)
  ∧ (∀ id e p,
       r = PUT_entries_exit id → id ≠ "" →
       entries s !! id = Some e → Entry.exitDateTime e = None →
       parkings s !! Entry.parkingCode e = Some p →
       is_Some (toDecimal (chargedAmountOf (Parking.hourlyFee p) (now env)
                             (Entry.entryDateTime e))) →
       fitsInteger (Parking.availableSpaces p + 1) = true →
       status resp = 200
       ∧ ∃ p', parkings s' !! Entry.parkingCode e = Some p'
               ∧ Parking.availableSpaces p' = Parking.availableSpaces p + 1)
  ∧ (∀ code name t loc fee p,
       r = PUT_parkings code name (Some t) loc fee → code ≠ "" → 1 <= t →
       optional isFloatMin0 fee = true →
       parkings s !! code = Some p →
       is_Some (toDecimal (orQ fee (Parking.hourlyFee p))) →
       fitsInteger t = true →
       fitsInteger (Parking.availableSpaces p + (t - Parking.totalSpaces p))
       = true →
       status resp = 200
       ∧ ∃ p', parkings s' !! code = Some p'
               ∧ Parking.totalSpaces p' = t
               ∧ Parking.availableSpaces p'
                 = Parking.availableSpaces p + (t - Parking.totalSpaces p)).
Proof.
  intros s' resp. subst s' resp.
  split; [|split; [|split; [|split]]].
  - intros c p p' Hp Hp'. split.
    + by apply availableSpaces_delta.
    + by apply totalSpaces_delta.
  - intros c p. apply parking_stays.
  - intros plate code p -> Hplate Hcode Hp Hroom Hnone Hid. unfold handle.
    rewrite !notEmpty_true by done. cbn [andb].
    pose proof (registerEntry_succeeds env plate code s p Hp Hroom Hnone Hid)
      as Hok.
    destruct (registerEntry_cases env plate code s)
      as [[_ Hno] | (p0 & Hp0 & _ & _ & _ & -> & _)]; [done|].
    split; [done|]. cbn [parkings fst].
    rewrite lookup_alter_eq, Hp. eexists. split; [done|]. simpl. lia.
  - intros id e p -> Hid He Hopen Hp [stored Hstored] Hfits. unfold handle.
    rewrite notEmpty_true by done.
    unfold registerExit. rewrite He, Hopen, Hp, Hstored, Hfits.
    cbn [fst snd status parkings ServerResponse.success].
    split; [done|]. rewrite lookup_alter_eq, Hp. eexists. split; [done|].
    simpl. lia.
  - intros code name t loc fee p -> Hcode Ht Hfee Hp [stored Hstored]
      Hfits Havail. unfold handle.
    rewrite notEmpty_true by done. rewrite Hfee.
    assert (Hmin : optional isIntMin1 (Some t) = true)
      by by apply Z.leb_le.
    rewrite Hmin. cbn [andb].
    assert (Htotal : orZ (Some t) (Parking.totalSpaces p) = t).
    { simpl. destruct (t =? 0) eqn:E; [apply Z.eqb_eq in E; lia | done]. }
    unfold updateParking. rewrite Hp, Hstored, adjustment_is_delta, Htotal.
    rewrite Hfits, Havail.
    cbn [andb fst snd status parkings ServerResponse.success].
    split; [done|]. rewrite lookup_insert_eq. eexists. split; [done|]. done.
Qed.

(** *** Invariants of the ledger *)

Lemma foreignKey_empty : foreignKey emptyStore.
Proof. intros i e Hi. simpl in Hi. by rewrite lookup_empty in Hi. Qed.

Lemma ledgerBalanced_empty : ledgerBalanced emptyStore.
Proof. intros c p Hp. simpl in Hp. by rewrite lookup_empty in Hp. Qed.

Lemma columnsFit_empty : columnsFit emptyStore.
Proof. intros c p Hp. simpl in Hp. by rewrite lookup_empty in Hp. Qed.

Lemma handle_foreignKey (env : Env) (r : Request) (s : Store) :
  foreignKey s → foreignKey (handle env r s).1.
Proof.
  intros Hfk. destruct r as [code ? t ? ?|code ? t ? ?|code|? code|id]; simpl.
  - destruct (_ && _); [|done].
    destruct (createParking_cases code name t location hourlyFee s)
      as [[-> _] | (stored & _ & _ & _ & -> & _)]; [done|].
    intros i e Hi. simpl in *. apply lookup_insert_is_Some'. right. eauto.
  - destruct (_ && _); [|done].
    destruct (updateParking_cases code name t location hourlyFee s)
      as [[-> _] | (p & stored & _ & _ & _ & _ & -> & _)]; [done|].
    intros i e Hi. simpl in *. apply lookup_insert_is_Some'. right. eauto.
  - destruct (notEmpty code); [|done].
    destruct (deleteParking_cases code s) as [[-> _] | (Hnone & -> & _)];
      [done|].
    intros i e Hi. simpl in *. rewrite lookup_delete_ne; [eauto|].
    intros Heq. apply (proj1 (count_zero (whereIn code) (entries s)) Hnone i e Hi).
    by unfold whereIn.
  - destruct (_ && _); [|done].
    destruct (registerEntry_cases env plateNumber code s)
      as [[-> _] | (p & Hp & _ & _ & _ & -> & _)]; [done|].
    intros i e. simpl. rewrite lookup_alter_is_Some, lookup_insert_Some.
    intros [[_ <-] | [_ Hi]]; simpl; eauto.
  - destruct (notEmpty id); [|done].
    destruct (registerExit_cases env id s)
      as [[-> _] | (e0 & p & stored & He0 & _ & Hp & _ & -> & _)]; [done|].
    intros i e. simpl. rewrite lookup_insert_Some.
    assert (Hsame : ∀ c,
      is_Some ((if fitsInteger (Parking.availableSpaces p + 1)
                then alter (incrementAvailable 1) (Entry.parkingCode e0)
                       (parkings s)
                else parkings s) !! c) ↔ is_Some (parkings s !! c)).
    { intros c. destruct (fitsInteger _); [|done].
      apply lookup_alter_is_Some. }
    rewrite Hsame. intros [[_ <-] | [_ Hi]]; simpl; eauto.
Qed.

Lemma handle_columnsFit (env : Env) (r : Request) (s : Store) :
  columnsFit s → columnsFit (handle env r s).1.
Proof.
  intros Hs. destruct r as [code ? t ? ?|code ? t ? ?|code|? code|id];
    unfold handle.
  - destruct (_ && _); [|done].
    destruct (createParking_cases code name t location hourlyFee s)
      as [[-> _] | (stored & _ & Hstored & Hfits & -> & _)]; [done|].
    intros c p. simpl. rewrite lookup_insert_Some.
    intros [[_ <-] | [_ Hp]]; [|by eapply Hs]. simpl.
    split; [done|]. split; [done|]. by eapply toDecimal_stored.
  - destruct (_ && _); [|done].
    destruct (updateParking_cases code name t location hourlyFee s)
      as [[-> _] | (p0 & stored & _ & Hstored & Htotal & Havail & -> & _)];
      [done|].
    intros c p. simpl. rewrite lookup_insert_Some.
    intros [[_ <-] | [_ Hp]]; [|by eapply Hs]. simpl.
    split; [done|]. split; [done|]. by eapply toDecimal_stored.
  - destruct (notEmpty code); [|done].
    destruct (deleteParking_cases code s) as [[-> _] | (_ & -> & _)]; [done|].
    intros c p. simpl. intros [_ Hp]%lookup_delete_Some. by eapply Hs.
  - destruct (_ && _); [|done].
    destruct (registerEntry_cases env plateNumber code s)
      as [[-> _] | (p0 & Hp0 & Hroom & _ & _ & -> & _)]; [done|].
    intros c p. simpl. destruct (decide (code = c)) as [->|Hne].
    + rewrite lookup_alter_eq, Hp0. intros [= <-]. simpl.
      destruct (Hs c p0 Hp0) as (Htotal & Havail & Hfee).
      split; [done|]. split; [|done].
      apply fitsInteger_spec in Havail. apply fitsInteger_spec. lia.
    + rewrite lookup_alter_ne by done. by apply Hs.
  - destruct (notEmpty id); [|done].
    destruct (registerExit_cases env id s)
      as [[-> _] | (e0 & p0 & stored & _ & _ & Hp0 & _ & -> & _)]; [done|].
    intros c p. simpl.
    destruct (fitsInteger (Parking.availableSpaces p0 + 1)) eqn:Hfits;
      [|by apply Hs].
    destruct (decide (Entry.parkingCode e0 = c)) as [<-|Hne].
    + rewrite lookup_alter_eq, Hp0. intros [= <-]. simpl.
      destruct (Hs _ p0 Hp0) as (Htotal & Havail & Hfee). done.
    + rewrite lookup_alter_ne by done. by apply Hs.
Qed.

Lemma occupied_insert (c i : string) (e : Entry.t) (ps : gmap string Parking.t)
    (es : gmap string Entry.t) :
  occupied c (mkStore ps (<[i := e]> es))
  = count (whereOpenIn c) es
    - match es !! i with
      | Some e0 => indicator (whereOpenIn c e0)
      | None => 0
      end
    + indicator (whereOpenIn c e).
Proof. unfold occupied. simpl. apply count_insert. Qed.

Lemma indicator_open (c code plate : string) (t : Z) (a : option Q) :
  indicator (whereOpenIn c (Entry.mk plate code t None a))
  = if decide (code = c) then 1 else 0.
Proof.
  unfold indicator.
  destruct (decide (whereOpenIn c _)) as [[Hc _]|Hn], (decide (code = c));
    simpl in *; try done.
  exfalso. apply Hn. by split.
Qed.

Lemma indicator_closed (c code plate : string) (t x : Z) (a : option Q) :
  indicator (whereOpenIn c (Entry.mk plate code t (Some x) a)) = 0.
Proof.
  unfold indicator.
  by destruct (decide (whereOpenIn c _)) as [[_ Hx]|Hn].
Qed.

Lemma indicator_open_entry (c : string) (e : Entry.t) :
  Entry.exitDateTime e = None →
  indicator (whereOpenIn c e) = if decide (Entry.parkingCode e = c) then 1 else 0.
Proof. destruct e. simpl. intros ->. apply indicator_open. Qed.

Lemma count_pos (P : Entry.t → Prop) `{!∀ e, Decision (P e)}
    (m : gmap string Entry.t) :
  0 < count P m ↔ ∃ i e, m !! i = Some e ∧ P e.
Proof.
  split.
  - intros Hpos. unfold count, findMany in Hpos.
    destruct (map_choose (filter (λ kv : string * Entry.t, P kv.2) m))
      as (i & e & Hie).
    { intros Hempty. rewrite Hempty, map_size_empty in Hpos. lia. }
    apply map_lookup_filter_Some in Hie as [Hi HP]. by exists i, e.
  - intros (i & e & Hi & HP).
    pose proof (count_nonneg P m) as Hnn.
    destruct (decide (count P m = 0)) as [Hz|]; [|lia].
    by destruct (proj1 (count_zero P m) Hz i e Hi).
Qed.

(** Where the ledger is balanced and the totals fit their column, the
    count of a parking with an open entry has room for one more. *)
Lemma exit_fits (s : Store) (id : string) (e : Entry.t) (p : Parking.t) :
  ledgerBalanced s → columnsFit s →
  entries s !! id = Some e → Entry.exitDateTime e = None →
  parkings s !! Entry.parkingCode e = Some p →
  fitsInteger (Parking.availableSpaces p + 1) = true.
Proof.
  intros Hl Hfit He Hopen Hp.
  destruct (Hfit _ p Hp) as (Htotal & Havail & _).
  apply fitsInteger_spec in Htotal, Havail. apply fitsInteger_spec.
  specialize (Hl _ p Hp). unfold occupied in Hl.
  assert (0 < count (whereOpenIn (Entry.parkingCode e)) (entries s)).
  { apply count_pos. by exists id, e. }
  lia.
Qed.

Lemma handle_ledgerBalanced (env : Env) (r : Request) (s : Store) :
  ledgerBalanced s → foreignKey s → columnsFit s →
  ledgerBalanced (handle env r s).1.
Proof.
  intros Hl Hfk Hfit.
  destruct r as [code ? t ? ?|code ? t ? ?|code|? code|id]; simpl.
  - destruct (_ && _); [|done].
    destruct (createParking_cases code name t location hourlyFee s)
      as [[-> _] | (stored & Hnew & _ & _ & -> & _)]; [done|].
    intros c p. simpl. rewrite lookup_insert_Some.
    intros [[<- <-] | [_ Hp]]; [|by apply Hl]. simpl.
    assert (occupied code (mkStore (<[code := Parking.mk name t t location
                                        stored]> (parkings s)) (entries s))
            = 0) as ->; [|lia].
    unfold occupied. simpl. apply count_zero. intros i e Hi [Hc _].
    destruct (Hfk i e Hi) as [p Hp]. congruence.
  - destruct (notEmpty code && optional isIntMin1 t) eqn:Hvalid; simpl; [|done].
    destruct (optional isFloatMin0 hourlyFee); [|done].
    destruct (updateParking_cases code name t location hourlyFee s)
      as [[-> _] | (p0 & stored & Hp0 & _ & _ & _ & -> & _)]; [done|].
    intros c p. simpl. rewrite lookup_insert_Some.
    intros [[<- <-] | [_ Hp]]; [|by apply Hl]. simpl.
    specialize (Hl code p0 Hp0). unfold occupied in *. simpl.
    destruct t as [t|]; simpl; [|lia].
    apply andb_prop in Hvalid as [_ Ht]. simpl in Ht.
    apply Z.leb_le in Ht. destruct (t =? 0) eqn:E; [apply Z.eqb_eq in E|]; lia.
  - destruct (notEmpty code); [|done].
    destruct (deleteParking_cases code s) as [[-> _] | (_ & -> & _)]; [done|].
    intros c p. simpl. intros [_ Hp]%lookup_delete_Some. by apply Hl.
  - destruct (_ && _); [|done].
    destruct (registerEntry_cases env plateNumber code s)
      as [[-> _] | (p0 & Hp0 & _ & _ & Hid & -> & _)]; [done|].
    intros c p. rewrite occupied_insert, Hid, indicator_open. simpl.
    destruct (decide (code = c)) as [->|Hne].
    + rewrite lookup_alter_eq, Hp0. intros [= <-]. simpl.
      specialize (Hl c p0 Hp0). unfold occupied in Hl. lia.
    + rewrite lookup_alter_ne by done. intros Hp.
      specialize (Hl c p Hp). unfold occupied in Hl. lia.
  - destruct (notEmpty id); [|done].
    destruct (registerExit_cases env id s)
      as [[-> _] | (e0 & p0 & stored & He0 & Hopen & Hp0 & _ & -> & _)];
      [done|].
    rewrite (exit_fits s id e0 p0) by done.
    intros c p. rewrite occupied_insert, He0, indicator_closed.
    rewrite (indicator_open_entry c e0 Hopen). simpl.
    destruct (decide (Entry.parkingCode e0 = c)) as [<-|Hne].
    + rewrite lookup_alter_eq, Hp0. intros [= <-]. simpl.
      specialize (Hl _ p0 Hp0). unfold occupied in Hl. lia.
    + rewrite lookup_alter_ne by done. intros Hp.
      specialize (Hl c p Hp). unfold occupied in Hl. lia.
Qed.

Lemma run_ledgerBalanced (reqs : list (Env * Request)) (s : Store) :
  ledgerBalanced s → foreignKey s → columnsFit s →
  ledgerBalanced (run reqs s) ∧ foreignKey (run reqs s)
  ∧ columnsFit (run reqs s).
Proof.
  revert s. induction reqs as [|[env r] reqs IH]; intros s Hl Hfk Hfit; [done|].
  simpl. apply IH; [by apply handle_ledgerBalanced | by apply handle_foreignKey
                   | by apply handle_columnsFit].
Qed.

Lemma handle_nonnegative (env : Env) (r : Request) (s : Store) :
  ledgerBalanced s → keepsRoom env r s →
  (∀ c p, parkings s !! c = Some p → 0 <= Parking.availableSpaces p) →
  ∀ c p, parkings (handle env r s).1 !! c = Some p →
         0 <= Parking.availableSpaces p.
Proof.
  intros Hl Hroom Hs. revert Hroom.
  destruct r as [code ? t ? ?|code ? t ? ?|code|? code|id];
    unfold keepsRoom, handle; intros Hroom.
  - destruct (notEmpty code && notEmpty name && isIntMin1 t) eqn:Hvalid;
      [|done].
    rewrite andb_true_l.
    destruct (notEmpty location && isFloatMin0 hourlyFee); [|done].
    destruct (createParking_cases code name t location hourlyFee s)
      as [[-> _] | (stored & _ & _ & _ & -> & _)]; [done|].
    intros c p. simpl. rewrite lookup_insert_Some.
    intros [[_ <-] | [_ Hp]]; [|by eapply Hs]. simpl.
    apply andb_prop in Hvalid as [_ Ht]. apply Z.leb_le in Ht. lia.
  - destruct (_ && _); [|done].
    destruct (updateParking_cases code name t location hourlyFee s)
      as [[-> _] | (p0 & stored & Hp0 & _ & _ & _ & Hs' & Hst)]; [done|].
    rewrite Hs'. intros c p. simpl. rewrite lookup_insert_Some.
    intros [[_ <-] | [_ Hp]]; [|by eapply Hs]. simpl.
    specialize (Hl code p0 Hp0). specialize (Hs code p0 Hp0).
    destruct t as [t|]; simpl in *; [|lia]. specialize (Hroom Hst). lia.
  - destruct (notEmpty code); [|done].
    destruct (deleteParking_cases code s) as [[-> _] | (_ & -> & _)]; [done|].
    intros c p. simpl. intros [_ Hp]%lookup_delete_Some. by eapply Hs.
  - destruct (_ && _); [|done].
    destruct (registerEntry_cases env plateNumber code s)
      as [[-> _] | (p0 & Hp0 & Hfree & _ & _ & -> & _)]; [done|].
    intros c p. simpl. destruct (decide (code = c)) as [->|Hne].
    + rewrite lookup_alter_eq, Hp0. intros [= <-]. simpl. lia.
    + rewrite lookup_alter_ne by done. by apply Hs.
  - destruct (notEmpty id); [|done].
    destruct (registerExit_cases env id s)
      as [[-> _] | (e0 & p0 & stored & _ & _ & Hp0 & _ & -> & _)]; [done|].
    intros c p. simpl.
    destruct (fitsInteger (Parking.availableSpaces p0 + 1)); [|by apply Hs].
    destruct (decide (Entry.parkingCode e0 = c)) as [<-|Hne].
    + rewrite lookup_alter_eq, Hp0. intros [= <-]. simpl.
      specialize (Hs _ p0 Hp0). lia.
    + rewrite lookup_alter_ne by done. by apply Hs.
Qed.

Lemma run_nonnegative (reqs : list (Env * Request)) (s : Store) :
  ledgerBalanced s → foreignKey s → columnsFit s → roomKept reqs s →
  (∀ c p, parkings s !! c = Some p → 0 <= Parking.availableSpaces p) →
  ∀ c p, parkings (run reqs s) !! c = Some p →
         0 <= Parking.availableSpaces p.
Proof.
  revert s. induction reqs as [|[env r] reqs IH];
    intros s Hl Hfk Hfit Hroom Hs; [done|].
  destruct Hroom as [Hr Hroom]. simpl. apply IH; try done.
  - by apply handle_ledgerBalanced.
  - by apply handle_foreignKey.
  - by apply handle_columnsFit.
  - by apply handle_nonnegative.
Qed.

(** C2 (as amended): after every sequence of requests on a fresh database,
    every parking has [availableSpaces = totalSpaces - open entries], hence
    [availableSpaces <= totalSpaces]; and [0 <= availableSpaces] holds as
    well when no update that is carried out in the sequence sets the total
    of a parking below its number of open entries. *)
Theorem ledger_bounds_after_requests (reqs : list (Env * Request)) :
  ledgerBalanced (run reqs emptyStore)
  ∧ (∀ c p, parkings (run reqs emptyStore) !! c = Some p →
            Parking.availableSpaces p <= Parking.totalSpaces p)
  ∧ (roomKept reqs emptyStore → withinBounds (run reqs emptyStore)).
Proof.
  destruct (run_ledgerBalanced reqs emptyStore
              ledgerBalanced_empty foreignKey_empty columnsFit_empty)
    as (Hl & Hfk & Hfit).
  assert (Hupper : ∀ c p, parkings (run reqs emptyStore) !! c = Some p →
            Parking.availableSpaces p <= Parking.totalSpaces p).
  { intros c p Hp. rewrite (Hl c p Hp).
    pose proof (count_nonneg (whereOpenIn c) (entries (run reqs emptyStore))).
    unfold occupied. lia. }
  split; [done|]. split; [done|].
  intros Hroom c p Hp. split; [|by eapply Hupper].
  eapply (run_nonnegative reqs emptyStore);
    [apply ledgerBalanced_empty | apply foreignKey_empty
    | apply columnsFit_empty | exact Hroom | | exact Hp].
  intros c' p' Hp'. simpl in Hp'. by rewrite lookup_empty in Hp'.
Qed.

(** C2 (as stated) fails: with two vehicles inside a parking of two spaces,
    an update setting the total to one leaves [availableSpaces = -1]. *)
Lemma shrinking_update_counterexample :
  let s := run [(mkEnv 0 "p1", POST_parkings "P001" "Central Parking" 2
                                  "Downtown" (5 # 2));
                (mkEnv 1 "e1", POST_entries "RAB123A" "P001");
                (mkEnv 2 "e2", POST_entries "RAC456B" "P001");
                (mkEnv 3 "u1", PUT_parkings "P001" None (Some 1) None None)]
               emptyStore in
  Parking.availableSpaces <$> parkings s !! "P001" = Some (-1)
  ∧ Parking.totalSpaces <$> parkings s !! "P001" = Some 1
  ∧ ¬ withinBounds s.
Proof.
  intros s.
  assert (Hp : parkings s !! "P001"
               = Some (Parking.mk "Central Parking" 1 (-1) "Downtown" (5 # 2)))
    by (vm_compute; reflexivity).
  rewrite Hp. split; [done|]. split; [done|].
  intros Hb. specialize (Hb _ _ Hp). simpl in Hb. lia.
Qed.

(** ** Occupancy report *)

Lemma Qmult_le_l_nonneg (x y z : Q) :
  (x <= y)%Q → (0 <= z)%Q → (z * x <= z * y)%Q.
Proof.
  intros Hxy Hz. rewrite !(Qmult_comm z). by apply Qmult_le_compat_r.
Qed.

Lemma isBinary64_zero : isBinary64 0.
Proof. apply (isBinary64_integer 0). done. Qed.

Lemma isBinary64_one : isBinary64 1.
Proof. apply (isBinary64_integer 1). done. Qed.

Lemma isBinary64_hundred : isBinary64 100.
Proof. apply (isBinary64_integer 100). done. Qed.

(** The rate of [occ] open entries in a parking of [total] spaces, both
    integers a JavaScript number holds exactly: it is defined, and the two
    roundings move it by at most one part in [2^51]. *)
Lemma ratePercent_accuracy (occ total : Z) :
  0 <= occ < 2 ^ 53 → 0 < total < 2 ^ 53 →
  ∃ rate, ratePercent occ total = Some rate
          ∧ (inject_Z occ / inject_Z total * 100 * (1 - (1 # 2 ^ 51)) <= rate)%Q
          ∧ (rate <= inject_Z occ / inject_Z total * 100 * (1 + (1 # 2 ^ 51)))%Q.
Proof.
  intros Hocc Htotal. unfold ratePercent.
  destruct (total =? 0) eqn:E; [apply Z.eqb_eq in E; lia|]. clear E.
  assert (H53 : 2 ^ 53 = 9007199254740992) by reflexivity.
  set (x := (inject_Z occ / inject_Z total)%Q).
  assert (Hbig : isBinary64 (inject_Z (2 ^ 53))).
  { apply (isBinary64_intro _ 1 (1074 + 53)); [done | lia |].
    by rewrite <- inject_Z_mult. }
  assert (Hbig' : isBinary64 (inject_Z (2 ^ 53) * 100)).
  { apply (isBinary64_intro _ 25 (1074 + 55)); [done | lia |].
    change 100%Q with (inject_Z 100). by rewrite <- !inject_Z_mult. }
  assert (Hx0 : (0 <= x)%Q).
  { unfold x. change 0%Q with (inject_Z 0 / inject_Z 1)%Q.
    apply Qdiv_inject_le; lia. }
  assert (Hx1 : (x <= inject_Z (2 ^ 53))%Q).
  { unfold x. rewrite (Qdiv_1 (inject_Z (2 ^ 53))).
    apply Qdiv_inject_le; nia. }
  destruct (binary64_between x 0 (inject_Z (2 ^ 53)) isBinary64_zero Hbig
              Hx0 Hx1) as (q & Hq & Hq0 & Hq1).
  rewrite Hq. cbn [mbind option_bind].
  destruct (binary64_between (q * 100) 0 (inject_Z (2 ^ 53) * 100)
              isBinary64_zero Hbig') as (rate & Hrate & Hr0 & Hr1).
  { by apply Qmult_le_0_compat. }
  { by apply Qmult_le_compat_r. }
  exists rate. split; [done|].
  destruct (decide (occ = 0)) as [->|Hpos].
  - (* no open entry: the rate is zero *)
    assert (Hq' : binary64 x = Some 0%Q).
    { rewrite (binary64_comp x 0); [done|].
      unfold x, Qdiv. apply Qmult_0_l. }
    assert (q = 0%Q) as -> by congruence.
    assert (rate = 0%Q) as -> by (vm_compute in Hrate; congruence).
    unfold x, Qdiv. rewrite !Qmult_0_l. split; apply Qle_refl.
  - assert (Hnormal : (1 # 2 ^ 1021 <= x)%Q).
    { apply Qle_trans with (inject_Z 1 / inject_Z (2 ^ 53))%Q;
        [by vm_compute|].
      apply Qdiv_inject_le; nia. }
    destruct (binary64_error x q Hnormal Hq) as [Hqlo Hqhi].
    assert (Hnormal' : (1 # 2 ^ 1021 <= q * 100)%Q).
    { apply Qle_trans with (x * (1 - (1 # 2 ^ 53)) * 100)%Q;
        [|by apply Qmult_le_compat_r].
      apply Qle_trans with ((1 # 2 ^ 1021) * (1 - (1 # 2 ^ 53)) * 100)%Q;
        [by vm_compute|].
      apply Qmult_le_compat_r; [|done].
      apply Qmult_le_compat_r; [done | by vm_compute]. }
    destruct (binary64_error (q * 100) rate Hnormal' Hrate) as [Hrlo Hrhi].
    assert (Hx100 : (0 <= x * 100)%Q) by by apply Qmult_le_0_compat.
    split.
    + apply Qle_trans with (q * 100 * (1 - (1 # 2 ^ 53)))%Q; [|done].
      apply Qle_trans
        with (x * 100 * ((1 - (1 # 2 ^ 53)) * (1 - (1 # 2 ^ 53))))%Q.
      * apply Qmult_le_l_nonneg; [by vm_compute | done].
      * setoid_replace
          (x * 100 * ((1 - (1 # 2 ^ 53)) * (1 - (1 # 2 ^ 53))))%Q
          with (x * (1 - (1 # 2 ^ 53)) * 100 * (1 - (1 # 2 ^ 53)))%Q
          using relation Qeq by ring.
        apply Qmult_le_compat_r; [|by vm_compute].
        by apply Qmult_le_compat_r.
    + apply Qle_trans with (q * 100 * (1 + (1 # 2 ^ 53)))%Q; [done|].
      apply Qle_trans
        with (x * 100 * ((1 + (1 # 2 ^ 53)) * (1 + (1 # 2 ^ 53))))%Q.
      * setoid_replace
          (x * 100 * ((1 + (1 # 2 ^ 53)) * (1 + (1 # 2 ^ 53))))%Q
          with (x * (1 + (1 # 2 ^ 53)) * 100 * (1 + (1 # 2 ^ 53)))%Q
          using relation Qeq by ring.
        apply Qmult_le_compat_r; [|by vm_compute].
        by apply Qmult_le_compat_r.
      * apply Qmult_le_l_nonneg; [by vm_compute | done].
Qed.

(** C8 (as amended): for every parking (with a total that is not zero, as
    the routes guarantee, and numbers below [2^53]) the report has a row
    whose occupied spaces are the number of entries of that parking
    without exit instant and whose rate is [(occupied / totalSpaces) * 100]
    as binary64 arithmetic gives it: the quotient rounded, then the
    product rounded, at most one part in [2^51] away from the exact
    value; with a total of 100 and 30 open entries the rate is 30. *)
Theorem occupancy_report_row (s : Store) (c : string) (p : Parking.t) :
  parkings s !! c = Some p →
  0 < Parking.totalSpaces p < 2 ^ 53 →
  occupied c s < 2 ^ 53 →
  ∃ row quotient rate,
    row ∈ getParkingOccupancyReport s
    ∧ OccupancyRow.parkingCode row = c
    ∧ OccupancyRow.totalSpaces row = Parking.totalSpaces p
    ∧ OccupancyRow.occupiedSpaces row
      = Z.of_nat (size (filter (λ kv : string * Entry.t,
                                  Entry.parkingCode kv.2 = c
                                  ∧ Entry.exitDateTime kv.2 = None)
                               (entries s)))
    ∧ binary64 (inject_Z (OccupancyRow.occupiedSpaces row)
                / inject_Z (Parking.totalSpaces p)) = Some quotient
    ∧ binary64 (quotient * 100) = Some rate
    ∧ OccupancyRow.occupancyRate row = Some rate
    ∧ (inject_Z (OccupancyRow.occupiedSpaces row)
       / inject_Z (Parking.totalSpaces p) * 100 * (1 - (1 # 2 ^ 51))
       <= rate)%Q
    ∧ (rate <= inject_Z (OccupancyRow.occupiedSpaces row)
               / inject_Z (Parking.totalSpaces p) * 100 * (1 + (1 # 2 ^ 51)))%Q
    ∧ (Parking.totalSpaces p = 100 → OccupancyRow.occupiedSpaces row = 30 →
       rate = 30%Q).
Proof.
  intros Hp Htotal Hocc.
  destruct (ratePercent_accuracy (occupied c s) (Parking.totalSpaces p))
    as (rate & Hrate & Hlo & Hhi); [|done|].
  { split; [apply count_nonneg | done]. }
  assert (Hrate' := Hrate). unfold ratePercent in Hrate'.
  destruct (Parking.totalSpaces p =? 0) eqn:E;
    [apply Z.eqb_eq in E; lia|].
  destruct (binary64 (inject_Z (occupied c s)
                      / inject_Z (Parking.totalSpaces p)))
    as [quotient|] eqn:Hquotient; [|done].
  cbn [mbind option_bind] in Hrate'.
  exists (occupancyRow s (c, p)), quotient, rate.
  split; [|split; [|split; [|split; [|split; [|split; [|split;
    [|split; [|split]]]]]]]]; try done.
  - unfold getParkingOccupancyReport. apply list_elem_of_fmap.
    exists (c, p). split; [done|]. by apply elem_of_map_to_list.
  - simpl. intros Ht Ho. unfold occupied in Hrate. rewrite Ht, Ho in Hrate.
    vm_compute in Hrate. congruence.
Qed.

(** C8 (as stated) fails: with 7 open entries in a parking of 100 spaces
    the reported rate is 7.000000000000001, not 7. *)
Lemma occupancy_rate_counterexample :
  ∃ row rate,
    row ∈ getParkingOccupancyReport (parked 7 100)
    ∧ OccupancyRow.totalSpaces row = 100
    ∧ OccupancyRow.occupiedSpaces row = 7
    ∧ OccupancyRow.occupancyRate row = Some rate
    ∧ rate = (7881299347898369 # 1125899906842624)%Q
    ∧ ¬ (rate == inject_Z 7 / inject_Z 100 * 100)%Q.
Proof.
  eexists _, _. split; [vm_compute; left|].
  repeat split. vm_compute. discriminate.
Qed.

(** ** Filling a parking *)

Lemma registerEntries_available (reqs : list (Env * string)) (code : string)
    (s s' : Store) (p : Parking.t) :
  registerEntries reqs code s = Some s' →
  parkings s !! code = Some p →
  ∃ p', parkings s' !! code = Some p'
        ∧ Parking.availableSpaces p'
          = Parking.availableSpaces p - Z.of_nat (length reqs).
Proof.
  revert s p. induction reqs as [|[env plate] reqs IH]; intros s p Hrun Hp.
  - simpl in Hrun. simplify_eq. exists p. split; [done | simpl; lia].
  - simpl in Hrun.
    destruct (registerEntry env plate code s) as [s1 resp] eqn:Hstep.
    destruct (status resp =? 201) eqn:Hst; [|done].
    destruct (registerEntry_cases env plate code s)
      as [[_ Hno] | (p0 & Hp0 & _ & _ & _ & Hs1 & _)];
      rewrite Hstep in *; simpl in *.
    { apply Z.eqb_eq in Hst. done. }
    assert (Hp1 : parkings s1 !! code = Some (incrementAvailable (-1) p)).
    { rewrite Hs1. simpl. by rewrite lookup_alter_eq, Hp. }
    destruct (IH s1 _ Hrun Hp1) as (p' & Hp' & Hav).
    exists p'. split; [done|]. rewrite Hav. simpl. lia.
Qed.

Lemma registerEntries_succeed (reqs : list (Env * string)) (code : string)
    (s : Store) (p : Parking.t) :
  parkings s !! code = Some p →
  Z.of_nat (length reqs) <= Parking.availableSpaces p →
  NoDup (reqs.*2) →
  NoDup (uuid <$> reqs.*1) →
  (∀ env plate, (env, plate) ∈ reqs →
     entries s !! uuid env = None
     ∧ ∀ i e, entries s !! i = Some e → ¬ whereActive plate code e) →
  is_Some (registerEntries reqs code s).
Proof.
  revert s p. induction reqs as [|[env plate] reqs IH];
    intros s p Hp Hroom Hplates Hids Hfresh; [by eexists|].
  simpl in *.
  apply NoDup_cons in Hplates as [Hplate Hplates].
  apply NoDup_cons in Hids as [Hid Hids].
  destruct (Hfresh env plate) as [Hnew Hnone]; [left|].
  pose proof (registerEntry_succeeds env plate code s p Hp) as Hok.
  destruct (registerEntry_cases env plate code s)
    as [[_ Hno] | (p0 & Hp0 & _ & _ & _ & Hs1 & Hst)].
  { exfalso. apply Hno, Hok; [lia | done | done]. }
  destruct (registerEntry env plate code s) as [s1 resp]. simpl in *.
  rewrite Hst. simpl. subst s1.
  apply (IH _ (incrementAvailable (-1) p)); try done.
  - simpl. by rewrite lookup_alter_eq, Hp.
  - simpl. lia.
  - intros env' plate' Hin. simpl.
    destruct (Hfresh env' plate') as [Hnew' Hnone']; [by right|].
    split.
    + rewrite lookup_insert_ne; [done|]. intros Heq. apply Hid.
      rewrite Heq. apply list_elem_of_fmap. exists env'. split; [done|].
      apply list_elem_of_fmap. by exists (env', plate').
    + intros i e. rewrite lookup_insert_Some.
      intros [[_ <-] | [_ Hi]]; [|by eapply Hnone'].
      intros [Heq _]. simpl in Heq. apply Hplate. rewrite Heq.
      apply list_elem_of_fmap. by exists (env', plate').
Qed.

(** C6: in the store right after creating a parking of 50 spaces (50
    available), 50 registrations answered 201 leave no space available; any
    51st registration is answered 400 and changes nothing; after a
    registered exit of a vehicle of the parking one space is available, and
    a registration of a vehicle not inside (with an unused identifier) is
    answered 201. With distinct plates and unused distinct identifiers the
    50 registrations are all answered 201. *)
Theorem fifty_entries_fill_the_parking
    (s0 : Store) (code name location : string) (fee : Q)
    (reqs : list (Env * string)) :
  status (createParking code name 50 location fee s0).2 = 201 →
  length reqs = 50%nat →
  let s1 := (createParking code name 50 location fee s0).1 in
  Parking.availableSpaces <$> parkings s1 !! code = Some 50
  ∧ (foreignKey s0 → NoDup (reqs.*2) → NoDup (uuid <$> reqs.*1) →
     (∀ env, env ∈ reqs.*1 → entries s0 !! uuid env = None) →
     is_Some (registerEntries reqs code s1))
  ∧ ∀ s2, registerEntries reqs code s1 = Some s2 →
      Parking.availableSpaces <$> parkings s2 !! code = Some 0
      ∧ (∀ env plate,
           registerEntry env plate code s2 = (s2, ServerResponse.badRequest)
           ∧ status ServerResponse.badRequest = 400)
      ∧ ∀ env id e,
          entries s2 !! id = Some e → Entry.parkingCode e = code →
          status (registerExit env id s2).2 = 200 →
          let s3 := (registerExit env id s2).1 in
          Parking.availableSpaces <$> parkings s3 !! code = Some 1
          ∧ ∀ env' plate,
              entries s3 !! uuid env' = None →
              (∀ i e', entries s3 !! i = Some e' →
                       ¬ whereActive plate code e') →
              status (registerEntry env' plate code s3).2 = 201.
Proof.
  intros Hcreated Hlen s1.
  destruct (createParking_cases code name 50 location fee s0)
    as [[_ Hno] | (stored & Hnew & _ & _ & Hs1 & _)]; [done|].
  assert (Hp1 : parkings s1 !! code
                = Some (Parking.mk name 50 50 location stored)).
  { subst s1. rewrite Hs1. simpl. by rewrite lookup_insert_eq. }
  split; [by rewrite Hp1|]. split.
  - intros Hfk Hplates Hids Hfresh.
    eapply registerEntries_succeed; try done.
    + simpl. lia.
    + intros env plate Hin. subst s1. rewrite Hs1. simpl. split.
      * apply Hfresh. apply list_elem_of_fmap. by exists (env, plate).
      * intros i e Hi (_ & Hc & _). destruct (Hfk i e Hi) as [p Hp].
        congruence.
  - intros s2 Hrun.
    destruct (registerEntries_available reqs code s1 s2 _ Hrun Hp1)
      as (p2 & Hp2 & Hav2). simpl in Hav2. rewrite Hlen in Hav2.
    split; [rewrite Hp2; simpl; f_equal; lia|]. split.
    + intros env plate. unfold registerEntry. rewrite Hp2.
      replace (Parking.availableSpaces p2) with 0 by lia. done.
    + intros env id e He Hcode Hexit s3.
      destruct (registerExit_cases env id s2)
        as [[_ Hno] | (e0 & p0 & stored' & He0 & _ & Hp0 & _ & Hs3 & Hst)];
        [done|].
      assert (e0 = e) as -> by congruence.
      assert (p0 = p2) as -> by congruence.
      destruct (fitsInteger (Parking.availableSpaces p2 + 1));
        [|congruence].
      assert (Hp3 : parkings s3 !! code = Some (incrementAvailable 1 p2)).
      { subst s3. rewrite Hs3, Hcode. simpl. by rewrite lookup_alter_eq, Hp2. }
      split; [rewrite Hp3; simpl; f_equal; lia|].
      intros env' plate Hid Hnone.
      eapply registerEntry_succeeds; try done. simpl. lia.
Qed.

(** ** Which fee is billed *)

(** C10: the charge of [registerExit] uses the hourly fee the parking has
    at exit. After a registered entry (whose ticket shows the fee of that
    moment), an update that gives the parking another fee and is carried
    out, and the registered exit, the bill shows the fee as the update
    stored it (the fee given, when that has two decimals) and the amount
    billed and stored is that fee times the charged hours, which differs
    from the ticket's fee times the same hours whenever the fees differ
    and the hours are not zero. *)
Theorem exit_bills_the_fee_at_exit_time
    (s : Store) (envIn envOut : Env) (plate code : string) (newFee : Q) :
  let s1 := (registerEntry envIn plate code s).1 in
  let update := updateParking code None None None (Some newFee) s1 in
  let out := registerExit envOut (uuid envIn) update.1 in
  let hours := durationInHours (now envOut) (now envIn) in
  status (registerEntry envIn plate code s).2 = 201 →
  ¬ (newFee == 0)%Q →
  status update.2 = 200 →
  status out.2 = 200 →
  ∃ entry ticket stored closed bill amount,
    data (registerEntry envIn plate code s).2
    = Some (EntryTicket (uuid envIn) entry ticket)
    ∧ Parking.hourlyFee <$> parkings s !! code = Some (Ticket.hourlyFee ticket)
    ∧ toDecimal newFee = Some stored
    ∧ (∀ n, (newFee == n # 100)%Q → (stored == newFee)%Q)
    ∧ Parking.hourlyFee <$> parkings update.1 !! code = Some stored
    ∧ out.2 = ServerResponse.success (EntryBill (uuid envIn) closed bill)
    ∧ entries out.1 !! uuid envIn = Some closed
    ∧ Entry.chargedAmount closed = Some amount
    ∧ Bill.totalAmount bill = Some amount
    ∧ Bill.durationInHours bill = hours
    ∧ Bill.hourlyFee bill = stored
    ∧ (amount == stored * inject_Z hours)%Q
    ∧ (¬ (stored == Ticket.hourlyFee ticket)%Q → hours ≠ 0 →
       ¬ (amount == Ticket.hourlyFee ticket * inject_Z hours)%Q).
Proof.
  intros s1 update out hours Hin Hfee Hupdated Hout.
  assert (∃ p, parkings s !! code = Some p
               ∧ entries s !! uuid envIn = None
               ∧ registerEntry envIn plate code s
                 = (mkStore (alter (incrementAvailable (-1)) code (parkings s))
                      (<[uuid envIn := Entry.mk plate code (now envIn) None None]>
                         (entries s)),
                    ServerResponse.created
                      (EntryTicket (uuid envIn)
                         (Entry.mk plate code (now envIn) None None)
                         (Ticket.mk (uuid envIn) plate (Parking.name p)
                            (now envIn) (Parking.hourlyFee p)))))
    as (p & Hp & Hid & Hentry).
  { revert Hin. unfold registerEntry.
    destruct (parkings s !! code) as [p|]; [|done].
    destruct (_ <=? 0); [done|]. destruct (findFirst _ _); [done|].
    destruct (entries s !! uuid envIn); [done|]. intros _. by exists p. }
  assert (Hnew : orQ (Some newFee) (Parking.hourlyFee p) = newFee).
  { simpl. destruct (Qeq_bool newFee 0) eqn:E; [|done].
    apply Qeq_bool_iff in E. done. }
  assert (Hp1 : parkings s1 !! code = Some (incrementAvailable (-1) p)).
  { subst s1. rewrite Hentry. simpl. by rewrite lookup_alter_eq, Hp. }
  destruct (updateParking_cases code None None None (Some newFee) s1)
    as [[_ Hno] | (p1 & stored & Hp1' & Hstored & _ & _ & Hs2 & _)];
    [done|].
  assert (p1 = incrementAvailable (-1) p) as -> by congruence.
  cbn [Parking.hourlyFee incrementAvailable] in Hstored.
  rewrite Hnew in Hstored.
  assert (He2 : entries update.1 !! uuid envIn
                = Some (Entry.mk plate code (now envIn) None None)).
  { subst update. rewrite Hs2. subst s1. rewrite Hentry. simpl.
    by rewrite lookup_insert_eq. }
  assert (Hp2 : parkings update.1 !! code
                = Some (Parking.mk (Parking.name p) (Parking.totalSpaces p)
                          (Parking.availableSpaces p + -1 + 0)
                          (Parking.location p) stored)).
  { subst update. rewrite Hs2. simpl. by rewrite lookup_insert_eq. }
  assert (Hcases : ∃ amount,
            toDecimal (chargedAmountOf stored (now envOut) (now envIn))
            = Some amount
            ∧ out = (out.1,
                     let closed := Entry.mk plate code (now envIn)
                                     (Some (now envOut)) (Some amount) in
                     ServerResponse.success
                       (EntryBill (uuid envIn) closed
                          (Bill.mk (uuid envIn) plate (Parking.name p)
                             (now envIn) (Some (now envOut)) hours stored
                             (Some amount))))
            ∧ entries out.1 !! uuid envIn
              = Some (Entry.mk plate code (now envIn)
                        (Some (now envOut)) (Some amount))).
  { revert Hout. subst out. unfold registerExit. rewrite He2.
    cbn [Entry.exitDateTime Entry.parkingCode]. rewrite Hp2.
    cbn [Parking.hourlyFee Entry.entryDateTime Parking.availableSpaces].
    destruct (toDecimal (chargedAmountOf stored (now envOut) (now envIn)))
      as [amount|]; [|done].
    destruct (fitsInteger _); [|done]. intros _.
    exists amount. split; [done|]. split; [done|]. simpl.
    by rewrite lookup_insert_eq. }
  destruct Hcases as (amount & Hamount & Hout' & Hclosed).
  assert (Heq : (amount == stored * inject_Z hours)%Q).
  { eapply toDecimal_multiple; [exact Hstored | exact Hamount]. }
  eexists _, _, stored, _, _, amount.
  rewrite Hentry. split; [reflexivity|]. split; [by rewrite Hp|].
  split; [done|]. split.
  { intros n Hn. apply toDecimal_Some in Hstored as [_ ->].
    by rewrite (hundredths_of newFee n Hn), Qred_correct. }
  split; [by rewrite Hp2|]. rewrite Hout'.
  split; [reflexivity|]. split; [exact Hclosed|].
  split; [reflexivity|]. split; [reflexivity|]. split; [reflexivity|].
  split; [reflexivity|]. split; [exact Heq|].
  simpl. intros Hne Hh Heq'. apply Hne.
  apply (Qmult_inj_r _ _ (inject_Z hours)).
  - intros H0. apply Hh. by apply (inject_Z_injective hours 0).
  - by rewrite <- Heq.
Qed.

(** ** The theorems at concrete inputs *)

Lemma ledger_bounds_after_requests_witness :
  let reqs := [(mkEnv 0 "p1", POST_parkings "P001" "Central Parking" 2
                                 "Downtown" (5 # 2));
               (mkEnv 1 "e1", POST_entries "RAB123A" "P001");
               (mkEnv 2 "e2", POST_entries "RAC456B" "P001");
               (mkEnv 3 "u0", PUT_parkings "P001" None (Some 1) None
                                (Some (-1)%Q));
               (mkEnv 4 "u1", PUT_parkings "P001" None (Some 2) None None);
               (mkEnv 5 "x1", PUT_entries_exit "e1")] in
  status (handle (mkEnv 3 "u0")
            (PUT_parkings "P001" None (Some 1) None (Some (-1)%Q))
            (run (take 3 reqs) emptyStore)).2 = 400
  ∧ roomKept reqs emptyStore ∧ withinBounds (run reqs emptyStore).
Proof.
  intros reqs. split; [vm_compute; reflexivity|].
  assert (Hroom : roomKept reqs emptyStore).
  { split; [done|]. split; [done|]. split; [done|].
    split; [vm_compute; discriminate|].
    split; [intros _; vm_compute; discriminate|]. done. }
  split; [exact Hroom|].
  apply (ledger_bounds_after_requests reqs). exact Hroom.
Defined.

Lemma registerEntry_failures_leave_store_witness :
  registerEntry (mkEnv 9 "u") "RA0" "P001" emptyStore
  = (emptyStore, ServerResponse.notFound)
  ∧ registerEntry (mkEnv 9 "u") "RA1" "P001" (parked 1 1)
    = (parked 1 1, ServerResponse.badRequest)
  ∧ registerEntry (mkEnv 9 "u") "RA0" "P001" (parked 1 2)
    = (parked 1 2, ServerResponse.conflict).
Proof.
  split; [|split].
  - apply (registerEntry_failures_leave_store
             (mkEnv 9 "u") "RA0" "P001" emptyStore).
    reflexivity.
  - apply (proj1 (proj2 (registerEntry_failures_leave_store
                           (mkEnv 9 "u") "RA1" "P001" (parked 1 1)))
             (Parking.mk "Central Parking" 1 0 "Downtown" (5 # 2)));
      [vm_compute; reflexivity | simpl; lia].
  - apply (proj1 (proj2 (proj2 (registerEntry_failures_leave_store
                                  (mkEnv 9 "u") "RA0" "P001" (parked 1 2))))
             (Parking.mk "Central Parking" 2 1 "Downtown" (5 # 2))
             "entry-0" (Entry.mk "RA0" "P001" 0 None None));
      vm_compute; reflexivity.
Defined.

Lemma registerExit_failures_and_closed_is_terminal_witness :
  registerExit (mkEnv 9 "u") "entry-7" (parked 1 2)
  = (parked 1 2, ServerResponse.notFound)
  ∧ (let s := (registerExit (mkEnv 9 "u") "entry-0" (parked 1 2)).1 in
     registerExit (mkEnv 10 "v") "entry-0" s = (s, ServerResponse.conflict))
  ∧ ∃ closed,
      entries (registerExit (mkEnv 9 "u") "entry-0" (parked 1 2)).1 !! "entry-0"
      = Some closed
      ∧ is_Some (Entry.exitDateTime closed).
Proof.
  split; [|split].
  - apply (registerExit_failures_and_closed_is_terminal
             (mkEnv 9 "u") "entry-7" (parked 1 2)).
    vm_compute. reflexivity.
  - intros s.
    apply (proj1 (proj2 (registerExit_failures_and_closed_is_terminal
                           (mkEnv 10 "v") "entry-0" s))
             (Entry.mk "RA0" "P001" 0 (Some 9) (Some (5 # 2)))).
    + vm_compute. reflexivity.
    + by eexists.
  - destruct (proj2 (proj2 (registerExit_failures_and_closed_is_terminal
                              (mkEnv 9 "u") "entry-0" (parked 1 2))))
      as (closed & Hclosed & Hexit & _).
    + vm_compute. reflexivity.
    + by exists closed.
Defined.

Lemma fifty_entries_fill_the_parking_witness :
  let s2 := parked 50 50 in
  let s3 := (registerExit (mkEnv 60 "u") "entry-0" s2).1 in
  registerEntries (arrivals 50) "P001" (seeded 50) = Some s2
  ∧ Parking.availableSpaces <$> parkings s2 !! "P001" = Some 0
  ∧ registerEntry (mkEnv 51 "entry-51") "RAB123A" "P001" s2
    = (s2, ServerResponse.badRequest)
  ∧ Parking.availableSpaces <$> parkings s3 !! "P001" = Some 1
  ∧ status (registerEntry (mkEnv 61 "entry-51") "RAB123A" "P001" s3).2 = 201.
Proof.
  intros s2 s3.
  assert (Hrun : registerEntries (arrivals 50) "P001" (seeded 50) = Some s2)
    by (vm_compute; reflexivity).
  destruct (fifty_entries_fill_the_parking emptyStore "P001"
              "Central Parking" "Downtown" (5 # 2) (arrivals 50))
    as (_ & _ & Hfull); [reflexivity | reflexivity |].
  destruct (Hfull s2 Hrun) as (Hzero & Hrefused & Hexit).
  split; [exact Hrun|]. split; [exact Hzero|].
  split; [apply Hrefused|].
  destruct (Hexit (mkEnv 60 "u") "entry-0" (Entry.mk "RA0" "P001" 0 None None))
    as [Hone Hagain]; [vm_compute; reflexivity | reflexivity
                      | vm_compute; reflexivity |].
  split; [exact Hone|].
  apply Hagain; [vm_compute; reflexivity|].
  apply (findFirst_None (whereActive "RAB123A" "P001")).
  vm_compute. reflexivity.
Defined.

Lemma availableSpaces_changes_only_as_allowed_witness :
  let s := parked 1 2 in
  let p := Parking.mk "Central Parking" 2 1 "Downtown" (5 # 2) in
  let entry := handle (mkEnv 7 "entry-7") (POST_entries "RAB123A" "P001") s in
  let exit := handle (mkEnv 3600001 "x") (PUT_entries_exit "entry-0") s in
  parkings s !! "P001" = Some p
  ∧ (status entry.2 = 201
     ∧ ∃ p', parkings entry.1 !! "P001" = Some p'
             ∧ Parking.availableSpaces p' = 1 - 1)
  ∧ (status exit.2 = 200
     ∧ ∃ p', parkings exit.1 !! "P001" = Some p'
             ∧ Parking.availableSpaces p' = 1 + 1)
  ∧ 0 - 1 = allowedDelta (POST_entries "RAB123A" "P001") entry.2 s "P001"
  ∧ 2 - 1 = allowedDelta (PUT_entries_exit "entry-0") exit.2 s "P001".
Proof.
  intros s p entry exit.
  assert (Hp : parkings s !! "P001" = Some p) by (vm_compute; reflexivity).
  split; [exact Hp|].
  destruct (availableSpaces_changes_only_as_allowed
              (mkEnv 7 "entry-7") (POST_entries "RAB123A" "P001") s)
    as (Hdelta & _ & Hentry & _).
  destruct (availableSpaces_changes_only_as_allowed
              (mkEnv 3600001 "x") (PUT_entries_exit "entry-0") s)
    as (Hdelta' & _ & _ & Hexit & _).
  split; [|split; [|split]].
  - apply (Hentry "RAB123A" "P001" p); try done.
    apply (findFirst_None (whereActive "RAB123A" "P001")).
    vm_compute. reflexivity.
  - by apply (Hexit "entry-0" (Entry.mk "RA0" "P001" 0 None None) p).
  - apply (Hdelta "P001" p
             (Parking.mk "Central Parking" 2 0 "Downtown" (5 # 2)));
      [exact Hp | vm_compute; reflexivity].
  - apply (Hdelta' "P001" p
             (Parking.mk "Central Parking" 2 2 "Downtown" (5 # 2)));
      [exact Hp | vm_compute; reflexivity].
Defined.

Lemma occupancy_report_row_witness :
  ∃ row rate,
    row ∈ getParkingOccupancyReport (parked 30 100)
    ∧ OccupancyRow.parkingCode row = "P001"
    ∧ OccupancyRow.totalSpaces row = 100
    ∧ OccupancyRow.occupiedSpaces row = 30
    ∧ OccupancyRow.occupancyRate row = Some rate
    ∧ rate = 30%Q.
Proof.
  destruct (occupancy_report_row (parked 30 100) "P001"
              (Parking.mk "Central Parking" 100 70 "Downtown" (5 # 2)))
    as (row & quotient & rate & Hin & Hcode & Htotal & Hocc & _ & _ & Hrate
        & _ & _ & H30);
    [vm_compute; reflexivity | vm_compute; split; reflexivity
    | vm_compute; reflexivity |].
  assert (Hocc' : OccupancyRow.occupiedSpaces row = 30)
    by (rewrite Hocc; vm_compute; reflexivity).
  exists row, rate. repeat split; try assumption. by apply H30.
Defined.

Lemma charged_iff_exited_in_reachable_states_witness :
  let s := run [(mkEnv 0 "p1", POST_parkings "P001" "Central Parking" 2
                                  "Downtown" (5 # 2));
                (mkEnv 1 "e1", POST_entries "RAB123A" "P001");
                (mkEnv 2 "e2", POST_entries "RAC456B" "P001");
                (mkEnv 3900001 "x1", PUT_entries_exit "e1")] emptyStore in
  reachable s ∧ chargedIffExited s
  ∧ Entry.chargedAmount <$> entries s !! "e1" = Some (Some 5%Q)
  ∧ Entry.chargedAmount <$> entries s !! "e2" = Some None.
Proof.
  intros s.
  assert (Hreach : reachable s) by (eexists; reflexivity).
  split; [exact Hreach|].
  split; [exact (proj1 charged_iff_exited_in_reachable_states s Hreach)|].
  split; vm_compute; reflexivity.
Defined.

Lemma exit_bills_the_fee_at_exit_time_witness :
  let s1 := (registerEntry (mkEnv 0 "entry-0") "RA0" "P001" (seeded 2)).1 in
  let update := updateParking "P001" None None None (Some 3%Q) s1 in
  let out := registerExit (mkEnv 3900000 "u") "entry-0" update.1 in
  status update.2 = 200
  ∧ status out.2 = 200
  ∧ ∃ entry ticket closed bill amount,
      data (registerEntry (mkEnv 0 "entry-0") "RA0" "P001" (seeded 2)).2
      = Some (EntryTicket "entry-0" entry ticket)
      ∧ Ticket.hourlyFee ticket = (5 # 2)%Q
      ∧ out.2 = ServerResponse.success (EntryBill "entry-0" closed bill)
      ∧ Bill.hourlyFee bill = 3%Q
      ∧ Bill.totalAmount bill = Some amount
      ∧ Bill.durationInHours bill = 2
      ∧ (amount == 6)%Q
      ∧ ¬ (amount == Ticket.hourlyFee ticket * 2)%Q.
Proof.
  intros s1 update out.
  assert (Hupdated : status update.2 = 200) by (vm_compute; reflexivity).
  assert (Hexited : status out.2 = 200) by (vm_compute; reflexivity).
  split; [exact Hupdated|]. split; [exact Hexited|].
  destruct (exit_bills_the_fee_at_exit_time (seeded 2) (mkEnv 0 "entry-0")
              (mkEnv 3900000 "u") "RA0" "P001" 3%Q)
    as (entry & ticket & stored & closed & bill & amount & Hticket & Hfee
        & Hstored & _ & _ & Hout & _ & _ & Htotal & Hhours & Hbill & Hamount
        & Hdiffer);
    [vm_compute; reflexivity | vm_compute; discriminate
    | exact Hupdated | exact Hexited |].
  assert (Hfee' : Ticket.hourlyFee ticket = (5 # 2)%Q).
  { assert (Hp : parkings (seeded 2) !! "P001"
                 = Some (Parking.mk "Central Parking" 2 2 "Downtown" (5 # 2)))
      by (vm_compute; reflexivity).
    rewrite Hp in Hfee. simpl in Hfee. congruence. }
  assert (Hstored' : stored = 3%Q) by (vm_compute in Hstored; congruence).
  rewrite Hstored' in Hbill, Hamount, Hdiffer.
  exists entry, ticket, closed, bill, amount.
  split; [exact Hticket|]. split; [exact Hfee'|].
  split; [exact Hout|]. split; [exact Hbill|]. split; [exact Htotal|].
  split; [rewrite Hhours; vm_compute; reflexivity|].
  split; [rewrite Hamount; vm_compute; reflexivity|].
  rewrite Hfee'.
  assert (Hh : durationInHours 3900000 0 = 2) by (vm_compute; reflexivity).
  change (now (mkEnv 3900000 "u")) with 3900000 in Hdiffer.
  change (now (mkEnv 0 "entry-0")) with 0 in Hdiffer.
  rewrite Hh, Hfee' in Hdiffer.
  apply Hdiffer; [vm_compute; discriminate | lia].
Defined.

(** * Further properties of the controllers *)

(** ** Listing entries *)

Lemma active_ids (s : Store) (j : string) :
  j ∈ (EntryRow.id <$> listed (getActiveEntries s))
  ↔ ∃ e, entries s !! j = Some e ∧ Entry.exitDateTime e = None.
Proof.
  unfold getActiveEntries, listed, findMany. simpl.
  rewrite list_elem_of_fmap. split.
  - intros (row & -> & Hrow). apply list_elem_of_fmap in Hrow
      as ([i e] & -> & Hin). simpl.
    apply elem_of_map_to_list, map_lookup_filter_Some in Hin as [Hi Hopen].
    by exists e.
  - intros (e & Hj & Hopen). exists (includeParking s (j, e)).
    split; [done|]. apply list_elem_of_fmap. exists (j, e). split; [done|].
    apply elem_of_map_to_list, map_lookup_filter_Some. done.
Qed.

Lemma all_ids (s : Store) (j : string) :
  j ∈ (EntryRow.id <$> listed (getAllEntries s)) ↔ is_Some (entries s !! j).
Proof.
  unfold getAllEntries, listed. simpl. rewrite list_elem_of_fmap. split.
  - intros (row & -> & Hrow). apply list_elem_of_fmap in Hrow
      as ([i e] & -> & Hin). simpl.
    apply elem_of_map_to_list in Hin. by exists e.
  - intros [e Hj]. exists (includeParking s (j, e)).
    split; [done|]. apply list_elem_of_fmap. exists (j, e). split; [done|].
    by apply elem_of_map_to_list.
Qed.

(** X1: after a registration answered 201 the identifier, unknown before
    (404), is found by [getEntryById] with the plate, the parking code, the
    clock of the request as entry instant, no exit and no charge, joined to
    the parking with one space less; and [getActiveEntries] lists it. *)
Theorem registered_entry_is_found_and_active
    (env : Env) (plate code : string) (s : Store) :
  status (registerEntry env plate code s).2 = 201 →
  let s' := (registerEntry env plate code s).1 in
  ∃ p, parkings s !! code = Some p
       ∧ getEntryById (uuid env) s = replyNotFound
       ∧ getEntryById (uuid env) s'
         = replySuccessWith
             (EntryRow.mk (uuid env)
                (Entry.mk plate code (now env) None None)
                (Some (Parking.mk (Parking.name p) (Parking.totalSpaces p)
                         (Parking.availableSpaces p - 1)
                         (Parking.location p) (Parking.hourlyFee p))))
       ∧ uuid env ∈ (EntryRow.id <$> listed (getActiveEntries s'))
       ∧ uuid env ∈ (EntryRow.id <$> listed (getAllEntries s')).
Proof.
  intros Hok s'.
  destruct (registerEntry_cases env plate code s)
    as [[_ Hno] | (p & Hp & _ & _ & Hid & Hs' & _)]; [done|].
  exists p. split; [done|]. subst s'. rewrite Hs'.
  split; [unfold getEntryById; by rewrite Hid|]. split.
  - unfold getEntryById, includeParking. simpl.
    rewrite lookup_insert_eq. simpl. by rewrite lookup_alter_eq, Hp.
  - split.
    + apply active_ids. simpl. eexists. by rewrite lookup_insert_eq.
    + apply all_ids. simpl. by rewrite lookup_insert_eq.
Qed.

(** X2: after an exit answered 200 the entry is no longer listed by
    [getActiveEntries] but still by [getAllEntries], every other entry is
    active exactly when it was before, and [getEntryById] shows the entry
    with the clock of the request as exit instant and a charge. *)
Theorem exited_entry_leaves_the_active_list
    (env : Env) (id : string) (s : Store) :
  status (registerExit env id s).2 = 200 →
  let s' := (registerExit env id s).1 in
  id ∈ (EntryRow.id <$> listed (getActiveEntries s))
  ∧ (id ∉ (EntryRow.id <$> listed (getActiveEntries s')))
  ∧ id ∈ (EntryRow.id <$> listed (getAllEntries s'))
  ∧ (∀ j, j ≠ id →
       (j ∈ (EntryRow.id <$> listed (getActiveEntries s'))
        ↔ j ∈ (EntryRow.id <$> listed (getActiveEntries s))))
  ∧ ∃ row, replyData (getEntryById id s') = Some row
           ∧ Entry.exitDateTime (EntryRow.entry row) = Some (now env)
           ∧ is_Some (Entry.chargedAmount (EntryRow.entry row)).
Proof.
  intros Hok s'.
  destruct (registerExit_cases env id s)
    as [[_ Hno] | (e & p & stored & He & Hopen & Hp & _ & Hs' & _)]; [done|].
  subst s'. rewrite Hs'. split; [|split; [|split; [|split]]].
  - apply active_ids. by exists e.
  - rewrite active_ids. simpl. rewrite lookup_insert_eq.
    intros (e' & [= <-] & Hx). done.
  - apply all_ids. simpl. by rewrite lookup_insert_eq.
  - intros j Hj. rewrite !active_ids. simpl.
    by rewrite lookup_insert_ne.
  - unfold getEntryById. simpl. rewrite lookup_insert_eq. simpl.
    eexists. split; [done|]. simpl. split; [done | by eexists].
Qed.

(** ** One open entry per vehicle *)

Lemma handle_oneOpenEntryPerVehicle (env : Env) (r : Request) (s : Store) :
  oneOpenEntryPerVehicle s → oneOpenEntryPerVehicle (handle env r s).1.
Proof.
  intros Hs. destruct r as [code ? t ? ?|code ? t ? ?|code|plate code|id];
    unfold handle.
  - destruct (_ && _); [|done].
    by destruct (createParking_cases code name t location hourlyFee s)
      as [[-> _] | (stored & _ & _ & _ & -> & _)].
  - destruct (_ && _); [|done].
    by destruct (updateParking_cases code name t location hourlyFee s)
      as [[-> _] | (p & stored & _ & _ & _ & _ & -> & _)].
  - destruct (notEmpty code); [|done].
    by destruct (deleteParking_cases code s) as [[-> _] | (_ & -> & _)].
  - destruct (_ && _); [|done].
    destruct (registerEntry_cases env plate code s)
      as [[-> _] | (p & _ & _ & Hnone & Hid & -> & _)]; [done|].
    pose proof (proj1 (findFirst_None (whereActive plate code) (entries s))
                  Hnone) as Hfree. clear Hnone. rename Hfree into Hnone.
    intros i j e e'. simpl. rewrite !lookup_insert_Some.
    intros [[<- <-] | [Hi He]] [[<- <-] | [Hj He']]; simpl; try done.
    + intros _ Hopen Hplate Hcode. exfalso.
      apply (Hnone j e' He'). by repeat split.
    + intros Hopen _ Hplate Hcode. exfalso.
      apply (Hnone i e He). by repeat split.
    + by apply Hs.
  - destruct (notEmpty id); [|done].
    destruct (registerExit_cases env id s)
      as [[-> _] | (e0 & p & stored & He0 & _ & _ & _ & -> & _)]; [done|].
    intros i j e e'. simpl. rewrite !lookup_insert_Some.
    intros [[<- <-] | [Hi He]] [[<- <-] | [Hj He']]; simpl; try done.
    by apply Hs.
Qed.

Lemma run_oneOpenEntryPerVehicle (reqs : list (Env * Request)) (s : Store) :
  oneOpenEntryPerVehicle s → oneOpenEntryPerVehicle (run reqs s).
Proof.
  revert s. induction reqs as [|[env r] reqs IH]; intros s Hs; [done|].
  simpl. apply IH. by apply handle_oneOpenEntryPerVehicle.
Qed.

(** X3: in every state the routes can reach from a fresh database, a
    vehicle has at most one open entry in a parking: two entries without
    exit instant that agree on plate and parking code are the same entry. *)
Theorem one_open_entry_per_vehicle_in_reachable_states (s : Store) :
  reachable s → oneOpenEntryPerVehicle s.
Proof.
  intros [reqs ->]. apply run_oneOpenEntryPerVehicle.
  intros i j e e' Hi. simpl in Hi. by rewrite lookup_empty in Hi.
Qed.

(** ** Exits in reachable states *)

Lemma reachable_invariants (s : Store) :
  reachable s → ledgerBalanced s ∧ foreignKey s ∧ columnsFit s.
Proof.
  intros [reqs ->].
  apply (run_ledgerBalanced reqs emptyStore
           ledgerBalanced_empty foreignKey_empty columnsFit_empty).
Qed.

Lemma reachable_foreignKey (s : Store) : reachable s → foreignKey s.
Proof. intros Hs. apply (reachable_invariants s Hs). Qed.

Lemma reachable_ledgerBalanced (s : Store) : reachable s → ledgerBalanced s.
Proof. intros Hs. apply (reachable_invariants s Hs). Qed.

Lemma reachable_columnsFit (s : Store) : reachable s → columnsFit s.
Proof. intros Hs. apply (reachable_invariants s Hs). Qed.

(** X4: in every reachable state [registerExit] is answered 404 exactly
    when the entry does not exist and 409 exactly when it is closed; an
    open entry has its parking, and its exit is answered 200 when the
    amount fits the DECIMAL(10,2) column and 500 when it does not. Every
    answer other than 200 leaves the store as it is. *)
Theorem registerExit_outcome_in_reachable_states
    (env : Env) (id : string) (s : Store) :
  reachable s →
  (status (registerExit env id s).2 = 404 ↔ entries s !! id = None)
  ∧ (status (registerExit env id s).2 = 409
     ↔ ∃ e, entries s !! id = Some e ∧ is_Some (Entry.exitDateTime e))
  ∧ (∀ e, entries s !! id = Some e → Entry.exitDateTime e = None →
       ∃ p, parkings s !! Entry.parkingCode e = Some p
            ∧ (status (registerExit env id s).2 = 200
               ↔ is_Some (toDecimal (chargedAmountOf (Parking.hourlyFee p)
                                       (now env) (Entry.entryDateTime e))))
            ∧ (status (registerExit env id s).2 = 500
               ↔ toDecimal (chargedAmountOf (Parking.hourlyFee p)
                              (now env) (Entry.entryDateTime e)) = None))
  ∧ (status (registerExit env id s).2 = 200
     ∨ status (registerExit env id s).2 = 500
     → ∃ e, entries s !! id = Some e ∧ Entry.exitDateTime e = None)
  ∧ (status (registerExit env id s).2 ≠ 200 → (registerExit env id s).1 = s).
Proof.
  intros Hreach. destruct (reachable_invariants s Hreach) as (Hl & Hfk & Hfit).
  assert (Hopen : ∀ e, entries s !! id = Some e → Entry.exitDateTime e = None →
            ∃ p, parkings s !! Entry.parkingCode e = Some p
                 ∧ registerExit env id s
                   = match toDecimal (chargedAmountOf (Parking.hourlyFee p)
                                        (now env) (Entry.entryDateTime e)) with
                     | None => (s, ServerResponse.error)
                     | Some stored =>
                       ((registerExit env id s).1,
                        mkResponse 200 true (data (registerExit env id s).2))
                     end).
  { intros e He Hx. destruct (Hfk id e He) as [p Hp]. exists p.
    split; [done|]. unfold registerExit. rewrite He, Hx, Hp.
    destruct (toDecimal _); [|done].
    by rewrite (exit_fits s id e p). }
  split; [|split; [|split; [|split]]].
  - destruct (entries s !! id) as [e|] eqn:He.
    + split; [|done]. destruct (Entry.exitDateTime e) as [t|] eqn:Hx.
      * unfold registerExit. by rewrite He, Hx.
      * destruct (Hopen e eq_refl Hx) as (p & _ & ->).
        by destruct (toDecimal _).
    + unfold registerExit. by rewrite He.
  - destruct (entries s !! id) as [e|] eqn:He.
    + destruct (Entry.exitDateTime e) as [t|] eqn:Hx.
      * unfold registerExit. rewrite He, Hx. split; [intros _|done].
        exists e. split; [done|]. rewrite Hx. by eexists.
      * destruct (Hopen e eq_refl Hx) as (p & _ & ->). split.
        -- by destruct (toDecimal _).
        -- intros (e' & [= <-] & [t Ht]). congruence.
    + unfold registerExit. rewrite He. split; [done|].
      by intros (e' & [=] & _).
  - intros e He Hx. destruct (Hopen e He Hx) as (p & Hp & ->).
    exists p. split; [done|].
    destruct (toDecimal _); simpl; split; split; try done;
      by intros [x Hx'].
  - destruct (entries s !! id) as [e|] eqn:He.
    + destruct (Entry.exitDateTime e) as [t|] eqn:Hx.
      * unfold registerExit. rewrite He, Hx. simpl. by intros [|].
      * intros _. by exists e.
    + unfold registerExit. rewrite He. simpl. by intros [|].
  - by destruct (registerExit_cases env id s)
      as [[-> _] | (e & p & stored & He & Hx & Hp & Hstored & _ & Hst)];
      [|rewrite Hst, (exit_fits s id e p)].
Qed.

(** ** Entry followed by exit *)

(** X5: after a registration answered 201 the exit of that entry is
    answered 200 when the amount fits its column (and the count, back at
    its value of before, fits too), and then leaves the parkings table
    exactly as it was before the registration, the available spaces
    restored, while the entries table has gained the one closed entry;
    when the amount does not fit the exit is answered 500 and changes
    nothing: the entry stays open and the space taken. *)
Theorem entry_then_exit_restores_the_parkings
    (envIn envOut : Env) (plate code : string) (s : Store) :
  status (registerEntry envIn plate code s).2 = 201 →
  let s1 := (registerEntry envIn plate code s).1 in
  let out := registerExit envOut (uuid envIn) s1 in
  ∃ p, parkings s !! code = Some p
       ∧ (∀ amount,
            toDecimal (chargedAmountOf (Parking.hourlyFee p)
                         (now envOut) (now envIn)) = Some amount →
            fitsInteger (Parking.availableSpaces p) = true →
            status out.2 = 200
            ∧ parkings out.1 = parkings s
            ∧ entries out.1
              = <[uuid envIn :=
                    Entry.mk plate code (now envIn) (Some (now envOut))
                      (Some amount)]> (entries s))
       ∧ (toDecimal (chargedAmountOf (Parking.hourlyFee p)
                       (now envOut) (now envIn)) = None →
          status out.2 = 500 ∧ out.1 = s1).
Proof.
  intros Hok s1 out.
  destruct (registerEntry_cases envIn plate code s)
    as [[_ Hno] | (p & Hp & _ & _ & Hid & Hs1 & _)]; [done|].
  exists p. split; [done|].
  assert (Hout : out = registerExit envOut (uuid envIn) s1) by done.
  clearbody out. subst s1. rewrite Hs1 in Hout |- *.
  unfold registerExit in Hout. simpl in Hout.
  rewrite lookup_insert_eq in Hout. simpl in Hout.
  rewrite lookup_alter_eq, Hp in Hout. simpl in Hout.
  replace (Parking.availableSpaces p + -1 + 1)
    with (Parking.availableSpaces p) in Hout by lia.
  split.
  - intros amount Hamount Hfits. rewrite Hamount, Hfits in Hout.
    rewrite Hout. simpl. split; [done|]. split.
    + apply map_eq. intros c. destruct (decide (code = c)) as [<-|Hne].
      * rewrite !lookup_alter_eq, Hp. simpl. destruct p. simpl.
        unfold incrementAvailable. simpl. do 2 f_equal. lia.
      * by rewrite !lookup_alter_ne.
    + by rewrite insert_insert_eq.
  - intros Hnone. rewrite Hnone in Hout. by rewrite Hout.
Qed.

(** ** Billed hours *)

Lemma ceil_div_mono (a a' b : Z) :
  0 < b → a <= a' → ceil_div a b <= ceil_div a' b.
Proof.
  intros Hb Hle. unfold ceil_div.
  assert ((- a') / b <= (- a) / b) by (apply Z.div_le_mono; lia). lia.
Qed.

(** X6: the hours billed on exit cover the stay and exceed it by less than
    an hour, [duration <= hours * 3600000 < duration + 3600000]; a later
    exit never bills fewer hours, nor, for a fee that is not negative, a
    smaller amount. *)
Theorem billed_hours_cover_the_stay (f : Q) (entry exit exit' : Z) :
  (0 <= f)%Q → exit <= exit' →
  exit - entry <= durationInHours exit entry * 3600000
                < exit - entry + 3600000
  ∧ durationInHours exit entry <= durationInHours exit' entry
  ∧ (chargedAmountOf f exit entry <= chargedAmountOf f exit' entry)%Q.
Proof.
  intros Hf Hle. rewrite !durationInHours_ceil.
  split; [apply ceil_div_bounds; lia|].
  assert (Hmono : ceil_div (exit - entry) 3600000
                  <= ceil_div (exit' - entry) 3600000)
    by (apply ceil_div_mono; lia).
  split; [done|].
  unfold chargedAmountOf. rewrite !durationInHours_ceil.
  rewrite !(Qmult_comm f). apply Qmult_le_compat_r; [|done].
  by rewrite <- Zle_Qle.
Qed.

Lemma billed_hours_cover_the_stay_witness :
  durationInHours 3900000 0 = 2
  ∧ (chargedAmountOf (5 # 2) 3900000 0 <= chargedAmountOf (5 # 2) 7200001 0)%Q.
Proof.
  destruct (billed_hours_cover_the_stay (5 # 2) 0 3900000 7200001)
    as (Hcover & _ & Hcharge); [vm_compute; discriminate | lia |].
  split; [|exact Hcharge]. lia.
Defined.

(** ** Creating and deleting parkings *)

(** Rounding to hundredths moves a value by at most half a hundredth. *)
Lemma toDecimal_close (q d : Q) :
  toDecimal q = Some d → (Qabs (d - q) <= 1 # 200)%Q.
Proof.
  intros [_ ->]%toDecimal_Some.
  rewrite (Qabs_wd _ ((hundredths q # 100) - q)%Q)
    by (by rewrite Qred_correct).
  unfold hundredths.
  pose proof (Qfloor_le (Qabs q * 100 + (1 # 2))) as Hlo.
  pose proof (Qlt_floor (Qabs q * 100 + (1 # 2))) as Hhi.
  set (n := Qfloor (Qabs q * 100 + (1 # 2))) in *.
  destruct q as [a b]. apply Qabs_Qle_condition.
  revert Hlo Hhi.
  unfold Qabs, Qle, Qlt, Qopp, Qminus, Qplus, Qmult, inject_Z. simpl.
  destruct a as [|a|a]; simpl; lia.
Qed.

(** X7: [createParking] on a code already in use is answered 409 and
    changes nothing. On a new code it is answered 201 exactly when the
    total fits the INTEGER column and the fee, rounded to two decimals,
    the DECIMAL(10,2) column, and 500 with nothing changed otherwise;
    after a 201 [getParkingByCode] (404 before) returns the parking with
    all its spaces available and the fee as the column holds it (the fee
    given when that has two decimals, never more than half a hundredth
    away from it), every other code is answered as before, and the
    entries are untouched. *)
Theorem created_parking_is_found
    (code name : string) (t : Z) (loc : string) (fee : Q) (s : Store) :
  (is_Some (parkings s !! code) →
   createParking code name t loc fee s = (s, ServerResponse.conflict))
  ∧ (parkings s !! code = None →
     let out := createParking code name t loc fee s in
     (status out.2 = 201
      ↔ fitsInteger t = true ∧ is_Some (toDecimal fee))
     ∧ (status out.2 ≠ 201 → out = (s, ServerResponse.error))
     ∧ (status out.2 = 201 →
        ∃ stored,
          toDecimal fee = Some stored
          ∧ (Qabs (stored - fee) <= 1 # 200)%Q
          ∧ (∀ n, (fee == n # 100)%Q → (stored == fee)%Q)
          ∧ getParkingByCode code s = replyNotFound
          ∧ getParkingByCode code out.1
            = replySuccessWith (code, Parking.mk name t t loc stored)
          ∧ (∀ c, c ≠ code →
               getParkingByCode c out.1 = getParkingByCode c s)
          ∧ entries out.1 = entries s)).
Proof.
  unfold createParking, getParkingByCode. split.
  - intros [p Hp]. by rewrite Hp.
  - intros Hnew. rewrite Hnew.
    destruct (toDecimal fee) as [stored|] eqn:Hstored.
    2:{ simpl. split; [|done]. split; [done|]. by intros [_ [x Hx]]. }
    destruct (fitsInteger t) eqn:Hfits.
    2:{ simpl. split; [|done]. split; [done|]. by intros [? _]. }
    simpl. split; [done|]. split; [done|]. intros _. exists stored.
    split; [done|]. split; [by apply toDecimal_close|]. split.
    { intros n Hn. apply toDecimal_Some in Hstored as [_ ->].
      by rewrite (hundredths_of fee n Hn), Qred_correct. }
    rewrite lookup_insert_eq. repeat split.
    intros c Hc. by rewrite lookup_insert_ne.
Qed.

(** X8: [deleteParking] is answered 404 for an unknown code, 409 while an
    open entry refers to the parking, 500 when only closed entries still
    refer to it (the foreign key of the entries table refuses the delete),
    and 200 exactly when the parking exists and no entry refers to it; only
    then the store changes: the parking is gone ([getParkingByCode] answers
    404), the other parkings and all entries are untouched. *)
Theorem deleteParking_outcomes (code : string) (s : Store) :
  (status (deleteParking code s).2 = 404 ↔ parkings s !! code = None)
  ∧ (status (deleteParking code s).2 = 409
     ↔ is_Some (parkings s !! code)
       ∧ ∃ i e, entries s !! i = Some e ∧ Entry.parkingCode e = code
                ∧ Entry.exitDateTime e = None)
  ∧ (status (deleteParking code s).2 = 500
     ↔ is_Some (parkings s !! code)
       ∧ (∀ i e, entries s !! i = Some e → Entry.parkingCode e = code →
                 is_Some (Entry.exitDateTime e))
       ∧ ∃ i e, entries s !! i = Some e ∧ Entry.parkingCode e = code)
  ∧ (status (deleteParking code s).2 = 200
     ↔ is_Some (parkings s !! code)
       ∧ ∀ i e, entries s !! i = Some e → Entry.parkingCode e ≠ code)
  ∧ (status (deleteParking code s).2 ≠ 200 → (deleteParking code s).1 = s)
  ∧ (status (deleteParking code s).2 = 200 →
     let s' := (deleteParking code s).1 in
     getParkingByCode code s' = replyNotFound
     ∧ (∀ c, c ≠ code → getParkingByCode c s' = getParkingByCode c s)
     ∧ entries s' = entries s).
Proof.
  unfold deleteParking.
  destruct (parkings s !! code) as [p|] eqn:Hp.
  2:{ simpl. repeat split; try done; try (by intros [[? ?] _]). }
  destruct (0 <? count (whereOpenIn code) (entries s)) eqn:Hopen.
  { apply Z.ltb_lt, count_pos in Hopen as (i & e & Hi & Hc & Hx). simpl.
    split; [done|]. split; [|split; [|split; [|split]]]; try done.
    - split; [intros _|done]. split; [by eexists|]. by exists i, e.
    - split; [done|]. intros (_ & Hclosed & _).
      destruct (Hclosed i e Hi Hc) as [t Ht]. congruence.
    - split; [done|]. intros [_ Hnone]. by destruct (Hnone i e Hi). }
  apply Z.ltb_ge in Hopen.
  assert (Hnoopen : ∀ i e, entries s !! i = Some e →
            Entry.parkingCode e = code → is_Some (Entry.exitDateTime e)).
  { intros i e Hi Hc. destruct (Entry.exitDateTime e) eqn:Hx; [by eexists|].
    assert (0 < count (whereOpenIn code) (entries s)); [|lia].
    apply count_pos. by exists i, e. }
  destruct (0 <? count (whereIn code) (entries s)) eqn:Hany.
  { apply Z.ltb_lt, count_pos in Hany as (i & e & Hi & Hc). simpl.
    split; [done|]. split; [|split; [|split; [|split]]]; try done.
    - split; [done|]. intros (_ & j & e' & Hj & Hc' & Hx).
      destruct (Hnoopen j e' Hj Hc') as [t Ht]. congruence.
    - split; [intros _|done]. split; [by eexists|]. split; [done|].
      by exists i, e.
    - split; [done|]. intros [_ Hnone]. by destruct (Hnone i e Hi). }
  apply Z.ltb_ge in Hany.
  assert (Hnone : ∀ i e, entries s !! i = Some e → Entry.parkingCode e ≠ code).
  { intros i e Hi Hc.
    assert (0 < count (whereIn code) (entries s)); [|lia].
    apply count_pos. by exists i, e. }
  simpl. split; [done|]. split; [|split; [|split; [|split]]]; try done.
  - split; [done|]. intros (_ & i & e & Hi & Hc & _). by destruct (Hnone i e).
  - split; [done|]. intros (_ & _ & i & e & Hi & Hc). by destruct (Hnone i e).
  - intros _. unfold getParkingByCode. simpl. rewrite lookup_delete_eq.
    split; [done|]. split; [|done]. intros c Hc.
    by rewrite lookup_delete_ne.
Qed.

Lemma handle_keeps_referenced (env : Env) (r : Request) (s : Store)
    (i : string) (e : Entry.t) :
  entries s !! i = Some e →
  is_Some (parkings s !! Entry.parkingCode e) →
  ∃ e', entries (handle env r s).1 !! i = Some e'
        ∧ Entry.plateNumber e' = Entry.plateNumber e
        ∧ Entry.parkingCode e' = Entry.parkingCode e
        ∧ Entry.entryDateTime e' = Entry.entryDateTime e
        ∧ is_Some (parkings (handle env r s).1 !! Entry.parkingCode e).
Proof.
  intros Hi Hp.
  destruct r as [code ? t ? ?|code ? t ? ?|code|plate code|id]; unfold handle.
  - destruct (_ && _); [|by exists e].
    destruct (createParking_cases code name t location hourlyFee s)
      as [[-> _] | (stored & _ & _ & _ & -> & _)]; [by exists e|].
    exists e. simpl. repeat split; try done.
    apply lookup_insert_is_Some'. by right.
  - destruct (_ && _); [|by exists e].
    destruct (updateParking_cases code name t location hourlyFee s)
      as [[-> _] | (p & stored & _ & _ & _ & _ & -> & _)]; [by exists e|].
    exists e. simpl. repeat split; try done.
    apply lookup_insert_is_Some'. by right.
  - destruct (notEmpty code); [|by exists e].
    destruct (deleteParking_cases code s) as [[-> _] | (Hnone & -> & _)];
      [by exists e|].
    exists e. simpl. repeat split; try done.
    rewrite lookup_delete_ne; [done|]. intros Heq.
    by apply (proj1 (count_zero (whereIn code) (entries s)) Hnone i e Hi).
  - destruct (_ && _); [|by exists e].
    destruct (registerEntry_cases env plate code s)
      as [[-> _] | (p & _ & _ & _ & Hid & -> & _)]; [by exists e|].
    exists e. simpl. rewrite lookup_insert_ne by congruence.
    repeat split; try done. by apply lookup_alter_is_Some.
  - destruct (notEmpty id); [|by exists e].
    destruct (registerExit_cases env id s)
      as [[-> _] | (e0 & p & stored & He0 & _ & _ & _ & -> & _)];
      [by exists e|].
    assert (Hsame :
      is_Some ((if fitsInteger (Parking.availableSpaces p + 1)
                then alter (incrementAvailable 1) (Entry.parkingCode e0)
                       (parkings s)
                else parkings s) !! Entry.parkingCode e)).
    { destruct (fitsInteger _); [|done]. by apply lookup_alter_is_Some. }
    simpl. destruct (decide (id = i)) as [->|Hne].
    + rewrite lookup_insert_eq. assert (e0 = e) as -> by congruence.
      eexists. split; [done|]. simpl. by repeat split.
    + rewrite lookup_insert_ne by done. exists e. by repeat split.
Qed.

(** X9: an entry is never deleted and keeps its plate, parking code and
    entry instant under every sequence of requests, and the parking it
    refers to is never deleted: every later request to delete that parking
    is answered with something other than 200. *)
Theorem referenced_parking_is_never_deleted
    (reqs : list (Env * Request)) (s : Store) (i : string) (e : Entry.t) :
  entries s !! i = Some e →
  is_Some (parkings s !! Entry.parkingCode e) →
  (∃ e', entries (run reqs s) !! i = Some e'
         ∧ Entry.plateNumber e' = Entry.plateNumber e
         ∧ Entry.parkingCode e' = Entry.parkingCode e
         ∧ Entry.entryDateTime e' = Entry.entryDateTime e)
  ∧ is_Some (parkings (run reqs s) !! Entry.parkingCode e)
  ∧ ∀ env,
      status (handle env (DELETE_parkings (Entry.parkingCode e))
                (run reqs s)).2 ≠ 200.
Proof.
  revert s e. induction reqs as [|[env r] reqs IH]; intros s e Hi Hp.
  - simpl. split; [by exists e|]. split; [done|].
    intros env. unfold handle. destruct (notEmpty _); [|done].
    destruct (deleteParking_cases (Entry.parkingCode e) s)
      as [[_ Hno] | (Hnone & _ & _)]; [done|].
    by destruct (proj1 (count_zero (whereIn (Entry.parkingCode e))
                          (entries s)) Hnone i e Hi).
  - simpl.
    destruct (handle_keeps_referenced env r s i e Hi Hp)
      as (e1 & Hi1 & Hplate & Hcode & Htime & Hp1).
    rewrite <- Hcode in Hp1.
    destruct (IH _ e1 Hi1 Hp1) as ((e' & Hi' & Hpl' & Hc' & Ht') & Hp' & Hdel).
    rewrite Hcode in Hp', Hdel.
    split; [|by split]. exists e'. repeat split; congruence.
Qed.

(** ** Updating parkings *)

Lemma orString_twice (x : option string) (d : string) :
  orString x (orString x d) = orString x d.
Proof. destruct x as [v|]; simpl; [|done]. by destruct (String.eqb v ""). Qed.

Lemma orQ_twice (x : option Q) (d : Q) : orQ x (orQ x d) = orQ x d.
Proof. destruct x as [v|]; simpl; [|done]. by destruct (Qeq_bool v 0). Qed.

(** X10: the update route is idempotent: sending the same PUT a second
    time changes nothing and is answered with the same status. *)
Theorem update_route_is_idempotent
    (env env' : Env) (code : string) (name : option string)
    (t : option Z) (loc : option string) (fee : option Q) (s : Store) :
  let r := PUT_parkings code name t loc fee in
  let s1 := (handle env r s).1 in
  (handle env' r s1).1 = s1
  ∧ status (handle env' r s1).2 = status (handle env r s).2.
Proof.
  intros r s1. subst r s1. unfold handle.
  destruct (notEmpty code && optional isIntMin1 t) eqn:Hvalid;
    [rewrite andb_true_l | done].
  destruct (optional isFloatMin0 fee); [|done].
  destruct (updateParking_cases code name t loc fee s)
    as [[Hs Hst] | (p & stored & Hp & Hstored & Htotal & Havail & Hs1 & Hst)].
  - rewrite Hs. done.
  - rewrite Hs1, Hst. unfold updateParking. simpl.
    rewrite lookup_insert_eq. cbn [Parking.hourlyFee Parking.totalSpaces
      Parking.availableSpaces Parking.name Parking.location].
    assert (Hfee : toDecimal (orQ fee stored) = Some stored).
    { destruct fee as [f|]; simpl in *; [|by eapply toDecimal_stored].
      destruct (Qeq_bool f 0); [by eapply toDecimal_stored | done]. }
    assert (Hsame : orZ t (orZ t (Parking.totalSpaces p))
                    = orZ t (Parking.totalSpaces p)).
    { destruct t as [t|]; simpl; [|done]. by destruct (t =? 0). }
    assert (Hadj : match t with
                   | Some t0 => if t0 =? orZ t (Parking.totalSpaces p) then 0
                                else t0 - orZ t (Parking.totalSpaces p)
                   | None => 0
                   end = 0).
    { destruct t as [t|]; [|done].
      apply andb_prop in Hvalid as [_ Ht]. simpl in Ht. apply Z.leb_le in Ht.
      assert (E : (t =? 0) = false) by (apply Z.eqb_neq; lia).
      simpl. by rewrite E, Z.eqb_refl. }
    rewrite Hfee, Hsame, Hadj, Z.add_0_r, Htotal, Havail. simpl.
    split; [|done]. rewrite insert_insert_eq. do 2 f_equal.
    by rewrite !orString_twice.
Qed.

(** X11: a value that JavaScript takes for false in the body of an update
    leaves the field as it is: an update with [hourlyFee] 0 (which the
    validation admits) is answered 200 and keeps the fee, and so do an
    empty [name] and an empty [location]. Any other fee is written to the
    column: one between zero and half a hundredth is stored as 0.00, so an
    update can make the fee of a parking zero. (The row is taken to fit
    its columns, as it does in every reachable state.) *)
Theorem falsy_update_fields_keep_the_old_value
    (env : Env) (r : Request) (s : Store) (c : string) (p p' : Parking.t) :
  parkings s !! c = Some p →
  parkings (handle env r s).1 !! c = Some p' →
  fitsInteger (Parking.totalSpaces p) = true →
  fitsInteger (Parking.availableSpaces p) = true →
  toDecimal (Parking.hourlyFee p) = Some (Parking.hourlyFee p) →
  c ≠ "" →
  (∀ name loc f, r = PUT_parkings c name None loc (Some f) → (f == 0)%Q →
     status (handle env r s).2 = 200
     ∧ Parking.hourlyFee p' = Parking.hourlyFee p)
  ∧ (∀ name loc f, r = PUT_parkings c name None loc (Some f) →
       (0 < f)%Q → (f < 1 # 200)%Q →
       status (handle env r s).2 = 200
       ∧ Parking.hourlyFee p' = 0%Q)
  ∧ (∀ t f, r = PUT_parkings c (Some "") t (Some "") f →
       Parking.name p' = Parking.name p
       ∧ Parking.location p' = Parking.location p).
Proof.
  intros Hp Hp' Htotal Havail Hfee Hc.
  assert (Hupdate : ∀ name loc f stored,
            r = PUT_parkings c name None loc (Some f) → (0 <= f)%Q →
            toDecimal (orQ (Some f) (Parking.hourlyFee p)) = Some stored →
            status (handle env r s).2 = 200
            ∧ Parking.hourlyFee p' = stored).
  { intros name loc f stored -> Hf Hstored. revert Hp'. unfold handle.
    rewrite (notEmpty_true c Hc).
    assert (optional isFloatMin0 (Some f) = true) as ->
      by by apply Qle_bool_iff.
    unfold updateParking. rewrite Hp, Hstored.
    cbn [optional andb orZ]. rewrite Z.add_0_r, Htotal, Havail. simpl.
    rewrite lookup_insert_eq. by intros [= <-]. }
  split; [|split].
  - intros name loc f Hr Hf. apply (Hupdate name loc f); [done| |].
    + rewrite Hf. apply Qle_refl.
    + simpl. apply Qeq_bool_iff in Hf. by rewrite Hf.
  - intros name loc f Hr Hpos Hsmall. apply (Hupdate name loc f); [done| |].
    + by apply Qlt_le_weak.
    + simpl. destruct (Qeq_bool f 0) eqn:E.
      * apply Qeq_bool_iff in E. rewrite E in Hpos. by apply Qlt_irrefl in Hpos.
      * apply toDecimal_small; [by apply Qlt_le_weak | done].
  - intros t f ->. revert Hp'. unfold handle.
    destruct (_ && _); [|simpl; intros; by simplify_eq].
    destruct (updateParking_cases c (Some "") t (Some "") f s)
      as [[-> _] | (p0 & stored & Hp0 & _ & _ & _ & -> & _)].
    + intros. by simplify_eq.
    + simpl. rewrite lookup_insert_eq. intros [= <-]. by simplify_eq.
Qed.

Lemma handle_parkingsValidated (env : Env) (r : Request) (s : Store) :
  parkingsValidated s → parkingsValidated (handle env r s).1.
Proof.
  intros Hs.
  destruct r as [code ? t ? ?|code ? t ? ?|code|plate code|id]; unfold handle.
  - destruct (notEmpty code && notEmpty name && isIntMin1 t && notEmpty location)
      eqn:Hvalid; [rewrite andb_true_l|done].
    destruct (isFloatMin0 hourlyFee) eqn:Hfee; [|done].
    destruct (createParking_cases code name t location hourlyFee s)
      as [[-> _] | (stored & _ & Hstored & _ & -> & _)]; [done|].
    intros c p. simpl. rewrite lookup_insert_Some.
    intros [[_ <-] | [_ Hp]]; [|by eapply Hs]. simpl.
    apply andb_prop in Hvalid as [Hvalid _].
    apply andb_prop in Hvalid as [_ Ht]. apply Z.leb_le in Ht.
    split; [done|]. apply (toDecimal_nonneg hourlyFee); [|done].
    by apply Qle_bool_iff.
  - destruct (notEmpty code && optional isIntMin1 t) eqn:Hvalid;
      [rewrite andb_true_l|done].
    destruct (optional isFloatMin0 hourlyFee) eqn:Hfee; [|done].
    destruct (updateParking_cases code name t location hourlyFee s)
      as [[-> _] | (p0 & stored & Hp0 & Hstored & _ & _ & -> & _)]; [done|].
    intros c p. simpl. rewrite lookup_insert_Some.
    intros [[_ <-] | [_ Hp]]; [|by eapply Hs]. simpl.
    destruct (Hs code p0 Hp0) as [Htotal Hfee0]. split.
    + destruct t as [t|]; simpl; [|done].
      apply andb_prop in Hvalid as [_ Ht]. simpl in Ht. apply Z.leb_le in Ht.
      destruct (t =? 0); lia.
    + eapply toDecimal_nonneg; [|exact Hstored].
      destruct hourlyFee as [f|]; simpl; [|done].
      destruct (Qeq_bool f 0); [done|]. by apply Qle_bool_iff.
  - destruct (notEmpty code); [|done].
    destruct (deleteParking_cases code s) as [[-> _] | (_ & -> & _)]; [done|].
    intros c p. simpl. intros [_ Hp]%lookup_delete_Some. by eapply Hs.
  - destruct (_ && _); [|done].
    destruct (registerEntry_cases env plate code s)
      as [[-> _] | (p0 & Hp0 & _ & _ & _ & -> & _)]; [done|].
    intros c p. simpl. destruct (decide (code = c)) as [->|Hne].
    + rewrite lookup_alter_eq, Hp0. intros [= <-]. exact (Hs c p0 Hp0).
    + rewrite lookup_alter_ne by done. by apply Hs.
  - destruct (notEmpty id); [|done].
    destruct (registerExit_cases env id s)
      as [[-> _] | (e & p0 & stored & _ & _ & Hp0 & _ & -> & _)]; [done|].
    intros c p. simpl. destruct (fitsInteger _); [|by apply Hs].
    destruct (decide (Entry.parkingCode e = c)) as [<-|Hne].
    + rewrite lookup_alter_eq, Hp0. intros [= <-]. exact (Hs _ p0 Hp0).
    + rewrite lookup_alter_ne by done. by apply Hs.
Qed.

Lemma reachable_parkingsValidated (s : Store) :
  reachable s → parkingsValidated s.
Proof.
  intros [reqs ->].
  assert (H : ∀ s, parkingsValidated s → parkingsValidated (run reqs s)).
  { induction reqs as [|[env r] reqs IH]; intros s Hs; [done|].
    simpl. apply IH. by apply handle_parkingsValidated. }
  apply H. intros c p Hp. simpl in Hp. by rewrite lookup_empty in Hp.
Qed.

(** X12: in every reachable state every parking has at least one space in
    total and an hourly fee that is not negative (the validation chains
    admit nothing else), and every value fits its column; hence the exit
    of an open entry, registered with the clock at or after the entry
    instant, is either answered 200 and stores a charge that is not
    negative, or (the amount not fitting the column) answered 500 and
    changes nothing. *)
Theorem reachable_parkings_are_validated
    (s : Store) (env : Env) (id : string) :
  reachable s →
  parkingsValidated s
  ∧ columnsFit s
  ∧ ∀ e, entries s !! id = Some e → Entry.exitDateTime e = None →
         Entry.entryDateTime e <= now env →
         (status (registerExit env id s).2 = 200
          ∧ ∃ closed amount,
              entries (registerExit env id s).1 !! id = Some closed
              ∧ Entry.chargedAmount closed = Some amount
              ∧ (0 <= amount)%Q)
         ∨ (status (registerExit env id s).2 = 500
            ∧ (registerExit env id s).1 = s).
Proof.
  intros Hreach. pose proof (reachable_parkingsValidated s Hreach) as Hv.
  destruct (reachable_invariants s Hreach) as (Hl & Hfk & Hfit).
  split; [done|]. split; [done|]. intros e He Hopen Hclock.
  destruct (Hfk id e He) as [p Hp].
  unfold registerExit. rewrite He, Hopen, Hp.
  destruct (toDecimal _) as [stored|] eqn:Hstored; [|by right].
  rewrite (exit_fits s id e p) by done. left. simpl.
  rewrite lookup_insert_eq. split; [done|]. eexists _, _. split; [done|].
  simpl. split; [done|]. eapply toDecimal_nonneg; [|exact Hstored].
  apply chargedAmountOf_nonneg; [|done]. exact (proj2 (Hv _ p Hp)).
Qed.

(** ** Occupancy report in reachable states *)

(** Rounding moves the rate neither across zero nor across 100. *)
Lemma ratePercent_bounds (occ total : Z) :
  0 <= occ < 2 ^ 53 → 1 <= total < 2 ^ 52 →
  ∃ rate, ratePercent occ total = Some rate
          ∧ (0 <= rate)%Q
          ∧ ((rate <= 100)%Q ↔ occ <= total).
Proof.
  intros Hocc Htotal.
  assert (H53 : 2 ^ 53 = 9007199254740992) by reflexivity.
  assert (H52 : 2 ^ 52 = 4503599627370496) by reflexivity.
  destruct (ratePercent_accuracy occ total) as (rate & Hrate & _);
    [done | lia |].
  exists rate. split; [done|].
  unfold ratePercent in Hrate.
  destruct (total =? 0); [done|].
  set (x := (inject_Z occ / inject_Z total)%Q) in *.
  destruct (binary64 x) as [q|] eqn:Hq; [|done].
  cbn [mbind option_bind] in Hrate.
  assert (Hx0 : (0 <= x)%Q).
  { unfold x. change 0%Q with (inject_Z 0 / inject_Z 1)%Q.
    apply Qdiv_inject_le; lia. }
  assert (Hbig : isBinary64 (inject_Z (2 ^ 53))).
  { apply (isBinary64_intro _ 1 (1074 + 53)); [done | lia |].
    by rewrite <- inject_Z_mult. }
  assert (Hbig' : isBinary64 (inject_Z (2 ^ 53) * 100)).
  { apply (isBinary64_intro _ 25 (1074 + 55)); [done | lia |].
    change 100%Q with (inject_Z 100). by rewrite <- !inject_Z_mult. }
  assert (Hx1 : (x <= inject_Z (2 ^ 53))%Q).
  { unfold x. rewrite (Qdiv_1 (inject_Z (2 ^ 53))).
    apply Qdiv_inject_le; nia. }
  (* the quotient and the rate between bounds that are binary64 numbers *)
  assert (Hbetween : ∀ lo hi lo' hi',
            isBinary64 lo → isBinary64 hi → isBinary64 lo' → isBinary64 hi' →
            (lo <= x)%Q → (x <= hi)%Q →
            (lo' <= lo * 100)%Q → (hi * 100 <= hi')%Q →
            (lo' <= rate)%Q ∧ (rate <= hi')%Q).
  { intros lo hi lo' hi' Hlo Hhi Hlo' Hhi' Hlox Hxhi Hlo100 Hhi100.
    destruct (binary64_between x lo hi Hlo Hhi Hlox Hxhi)
      as (q' & Hq' & Hq0 & Hq1).
    assert (q' = q) as -> by congruence.
    destruct (binary64_between (q * 100) lo' hi' Hlo' Hhi')
      as (rate' & Hrate' & Hr0 & Hr1).
    - eapply Qle_trans; [exact Hlo100|]. by apply Qmult_le_compat_r.
    - eapply Qle_trans; [|exact Hhi100]. by apply Qmult_le_compat_r.
    - assert (rate' = rate) as -> by congruence. done. }
  split.
  - apply (Hbetween 0 (inject_Z (2 ^ 53)) 0 (inject_Z (2 ^ 53) * 100))%Q;
      try done; try apply isBinary64_zero; try apply Qle_refl.
  - split.
    + (* a rate of at most 100 needs no more entries than spaces *)
      intros Hle. destruct (Z.le_gt_cases occ total) as [|Hgt]; [done|].
      exfalso.
      set (lo := (inject_Z (2 ^ 52 + 1) / inject_Z (2 ^ 52))%Q).
      set (lo' := (inject_Z (100 * 2 ^ 46 + 1) / inject_Z (2 ^ 46))%Q).
      assert (Hlo : isBinary64 lo) by (apply isBinary64_dyadic; lia).
      assert (Hlo' : isBinary64 lo').
      { apply isBinary64_dyadic; [|lia].
        change (2 ^ 46) with 70368744177664. lia. }
      destruct (Hbetween lo (inject_Z (2 ^ 53)) lo'
                  (inject_Z (2 ^ 53) * 100)%Q) as [Hrate' _];
        try done; try apply Qle_refl.
      * unfold x, lo. rewrite H52. apply Qdiv_inject_le; lia.
      * assert (Habove : (100 < lo')%Q) by by vm_compute.
        apply (Qlt_irrefl 100).
        eapply Qlt_le_trans; [exact Habove|]. by eapply Qle_trans.
    + intros Hle.
      apply (Hbetween 0 1 0 100)%Q; try done;
        try apply isBinary64_zero; try apply isBinary64_one;
        try apply isBinary64_hundred.
      unfold x. rewrite (Qdiv_1 1). apply (Qdiv_inject_le occ total 1 1); lia.
Qed.

(** X13: in every reachable state each row of the occupancy report adds
    up, [occupiedSpaces + availableSpaces = totalSpaces], has a total of at
    least one and a rate that is defined and not negative, at most 100
    exactly when the available spaces are not negative; the report has one
    row per parking. *)
Theorem occupancy_rows_add_up (s : Store) (row : OccupancyRow.t) :
  reachable s →
  row ∈ getParkingOccupancyReport s →
  OccupancyRow.occupiedSpaces row + OccupancyRow.availableSpaces row
  = OccupancyRow.totalSpaces row
  ∧ 1 <= OccupancyRow.totalSpaces row
  ∧ (∃ rate, OccupancyRow.occupancyRate row = Some rate
             ∧ (0 <= rate)%Q
             ∧ ((rate <= 100)%Q ↔ 0 <= OccupancyRow.availableSpaces row))
  ∧ length (getParkingOccupancyReport s) = size (parkings s).
Proof.
  intros Hreach Hrow.
  pose proof (reachable_ledgerBalanced s Hreach) as Hl.
  pose proof (reachable_parkingsValidated s Hreach) as Hv.
  pose proof (reachable_columnsFit s Hreach) as Hfit.
  unfold getParkingOccupancyReport in *.
  apply list_elem_of_fmap in Hrow as ([c p] & -> & Hin).
  apply elem_of_map_to_list in Hin.
  specialize (Hl c p Hin). destruct (Hv c p Hin) as [Htotal _].
  destruct (Hfit c p Hin) as (Hfits & Hfits' & _).
  apply fitsInteger_spec in Hfits, Hfits'.
  unfold occupied in Hl. simpl.
  split; [lia|]. split; [done|]. split.
  - pose proof (count_nonneg (whereOpenIn c) (entries s)) as Hnn.
    destruct (ratePercent_bounds (count (whereOpenIn c) (entries s))
                (Parking.totalSpaces p)) as (rate & Hrate & Hpos & Hle).
    { change (2 ^ 53) with 9007199254740992. lia. }
    { change (2 ^ 52) with 4503599627370496. lia. }
    exists rate. split; [done|]. split; [done|]. rewrite Hle. lia.
  - by rewrite length_fmap, length_map_to_list.
Qed.

(** ** Parkings with room *)

Lemma available_listing (s : Store) (c : string) (p : Parking.t) :
  (c, p) ∈ listed (getAvailableParkings s)
  ↔ parkings s !! c = Some p ∧ 0 < Parking.availableSpaces p.
Proof.
  unfold getAvailableParkings, listed. simpl.
  by rewrite elem_of_map_to_list, map_lookup_filter_Some.
Qed.

Lemma all_parkings_listing (s : Store) (c : string) (p : Parking.t) :
  (c, p) ∈ listed (getAllParkings s) ↔ parkings s !! c = Some p.
Proof.
  unfold getAllParkings, listed. simpl. by rewrite elem_of_map_to_list.
Qed.

(** X14: [registerEntry] is answered 404 exactly for a code that
    [getAllParkings] does not list and 400 exactly for a parking that is
    listed there but not by [getAvailableParkings]; into a parking listed
    by [getAvailableParkings] a registration is answered 201, or 409 for a
    vehicle already inside, or 500 for an identifier already in use. *)
Theorem registerEntry_and_available_parkings
    (env : Env) (plate code : string) (s : Store) :
  (status (registerEntry env plate code s).2 = 404
   ↔ ∀ p, (code, p) ∉ listed (getAllParkings s))
  ∧ (status (registerEntry env plate code s).2 = 400
     ↔ ∃ p, (code, p) ∈ listed (getAllParkings s)
            ∧ (code, p) ∉ listed (getAvailableParkings s))
  ∧ ((∃ p, (code, p) ∈ listed (getAvailableParkings s)) →
     status (registerEntry env plate code s).2 = 201
     ∨ (status (registerEntry env plate code s).2 = 409
        ∧ ∃ i e, entries s !! i = Some e ∧ whereActive plate code e)
     ∨ (status (registerEntry env plate code s).2 = 500
        ∧ is_Some (entries s !! uuid env))).
Proof.
  setoid_rewrite available_listing. setoid_rewrite all_parkings_listing.
  unfold registerEntry.
  destruct (parkings s !! code) as [p|] eqn:Hp.
  2:{ simpl. split; [|split]; try done.
      - split; [done|]. by intros (p & [=] & _).
      - by intros (p & [=] & _). }
  destruct (Parking.availableSpaces p <=? 0) eqn:Hroom.
  { apply Z.leb_le in Hroom. simpl. split; [|split].
    - split; [done|]. intros Hnone. by destruct (Hnone p).
    - split; [intros _|done]. exists p. split; [done|].
      intros [_ Hpos]. lia.
    - intros (p' & [= <-] & Hpos). lia. }
  apply Z.leb_gt in Hroom.
  assert (Hlisted : ¬ ∃ p0, Some p = Some p0
                      ∧ ¬ (Some p = Some p0 ∧ 0 < Parking.availableSpaces p0)).
  { intros (p0 & [= <-] & Hn). by apply Hn. }
  destruct (findFirst (whereActive plate code) (entries s)) as [[i e]|] eqn:Hf.
  { simpl. split; [|split].
    - split; [done|]. intros Hnone. by destruct (Hnone p).
    - split; [done|]. intros H. by destruct Hlisted.
    - intros _. right. left. split; [done|].
      unfold findFirst in Hf. apply head_Some_elem_of in Hf.
      apply elem_of_map_to_list, map_lookup_filter_Some in Hf as [Hi Hw].
      by exists i, e. }
  destruct (entries s !! uuid env) eqn:Hid; simpl.
  - split; [|split].
    + split; [done|]. intros Hnone. by destruct (Hnone p).
    + split; [done|]. intros H. by destruct Hlisted.
    + intros _. right. right. split; [done | by eexists].
  - split; [|split].
    + split; [done|]. intros Hnone. by destruct (Hnone p).
    + split; [done|]. intros H. by destruct Hlisted.
    + intros _. by left.
Qed.

(** ** Authentication and authorization *)

Lemma split_without_separator (sep : Ascii.ascii) (s : string) :
  occursIn sep s = false → split sep s = [s].
Proof.
  induction s as [|c rest IH]; simpl; [done|].
  intros Hno. apply orb_false_iff in Hno as [Hc Hrest].
  rewrite Hc, (IH Hrest). done.
Qed.

Lemma authenticate_denied (verify : string → Verified)
    (users : gmap string User.t) (authorization : option string)
    (denied : Response) :
  authenticate verify users authorization = inl denied →
  denied = unauthorized ∨ denied = ServerResponse.error.
Proof.
  unfold authenticate.
  repeat case_match; intros [= <-]; first [by left | by right].
Qed.

(** X15: [authenticate] lets a request through only when the authorization
    header starts with "Bearer ", the text between the first and the second
    space is a token that is not empty and verifies with a string [id], and
    the user it names exists; the user attached to the request is then that
    user, with the role the users table gives. It answers 500 when the
    token verifies but its payload has no string [id] (the user lookup
    throws), and 401 in every other case. For the header "Bearer " followed
    by a token without spaces the outcome is decided by the token and the
    users table alone. *)
Theorem authenticate_admits_only_verified_users
    (verify : string → Verified) (users : gmap string User.t)
    (authorization : option string) :
  match authenticate verify users authorization with
  | inl denied =>
    (denied = ServerResponse.error ∧ status denied = 500
     ∧ ∃ header token,
         authorization = Some header
         ∧ String.prefix "Bearer " header = true
         ∧ split Ascii.Space header !! 1%nat = Some token
         ∧ token ≠ ""
         ∧ verify token = PayloadWithoutId)
    ∨ (denied = unauthorized ∧ status denied = 401
       ∧ ∀ header token,
           authorization = Some header →
           String.prefix "Bearer " header = true →
           split Ascii.Space header !! 1%nat = Some token →
           token ≠ "" →
           verify token = TokenRejected
           ∨ ∃ id, verify token = PayloadWithId id ∧ users !! id = None)
  | inr user =>
    ∃ header token record,
      authorization = Some header
      ∧ String.prefix "Bearer " header = true
      ∧ split Ascii.Space header !! 1%nat = Some token
      ∧ token ≠ ""
      ∧ verify token = PayloadWithId (ReqUser.id user)
      ∧ users !! ReqUser.id user = Some record
      ∧ ReqUser.email user = User.email record
      ∧ ReqUser.role user = User.role record
  end
  ∧ ∀ token, token ≠ "" → occursIn Ascii.Space token = false →
      authenticate verify users (Some ("Bearer " +:+ token))
      = match verify token with
        | TokenRejected => inl unauthorized
        | PayloadWithoutId => inl ServerResponse.error
        | PayloadWithId id =>
          match users !! id with
          | None => inl unauthorized
          | Some record =>
            inr (ReqUser.mk id (User.email record) (User.role record))
          end
        end.
Proof.
  split.
  - unfold authenticate.
    destruct authorization as [header|];
      [|right; split; [done|]; split; [done|]; by intros].
    destruct (String.prefix "Bearer " header) eqn:Hprefix; simpl;
      [|right; split; [done|]; split; [done|]; intros; simplify_eq;
        congruence].
    destruct (split Ascii.Space header !! 1%nat) as [token|] eqn:Htoken;
      [|right; split; [done|]; split; [done|]; intros; simplify_eq;
        congruence].
    destruct (String.eqb token "") eqn:Hempty.
    { apply String.eqb_eq in Hempty. right. split; [done|]. split; [done|].
      intros. by simplify_eq. }
    assert (token ≠ "") as Hne.
    { intros ->. by rewrite String.eqb_refl in Hempty. }
    destruct (verify token) as [| |id] eqn:Hverify.
    + right. split; [done|]. split; [done|]. intros. simplify_eq. by left.
    + left. split; [done|]. split; [done|]. by exists header, token.
    + destruct (users !! id) as [record|] eqn:Huser.
      * by exists header, token, record.
      * right. split; [done|]. split; [done|]. intros. simplify_eq.
        right. by exists id.
  - intros token Hne Hnospace. unfold authenticate.
    change (String.prefix "Bearer " ("Bearer " +:+ token)) with
      (String.prefix "" token).
    assert (String.prefix "" token = true) as -> by by destruct token.
    assert (split Ascii.Space ("Bearer " +:+ token)
            = "Bearer" :: split Ascii.Space token) as -> by reflexivity.
    rewrite (split_without_separator _ _ Hnospace).
    cbn [negb lookup list_lookup].
    destruct (String.eqb token "") eqn:E; [by apply String.eqb_eq in E|].
    done.
Qed.

Lemma authenticate_admits_only_verified_users_witness :
  let verify := λ token : string,
                  if String.eqb token "t0k3n" then PayloadWithId "u1"
                  else if String.eqb token "n01d" then PayloadWithoutId
                  else TokenRejected in
  let users : gmap string User.t :=
    {["u1" := User.mk "Regular" "User" "user@example.com" "hash" USER]} in
  authenticate verify users (Some "Bearer t0k3n")
  = inr (ReqUser.mk "u1" "user@example.com" USER)
  ∧ authenticate verify users (Some "Bearer n01d")
    = inl ServerResponse.error.
Proof.
  intros verify users. split.
  - exact (proj2 (authenticate_admits_only_verified_users verify users None)
             "t0k3n" ltac:(discriminate) eq_refl).
  - exact (proj2 (authenticate_admits_only_verified_users verify users None)
             "n01d" ltac:(discriminate) eq_refl).
Defined.

Lemma handle_entry_requests_fixedPart (env : Env) (r : Request) (s : Store)
    (c : string) :
  match r with POST_entries _ _ | PUT_entries_exit _ => True | _ => False end →
  fixedPart <$> parkings (handle env r s).1 !! c
  = fixedPart <$> parkings s !! c.
Proof.
  destruct r as [| | |plate code|id]; try done; intros _; unfold handle.
  - destruct (_ && _); [|done].
    destruct (registerEntry_cases env plate code s)
      as [[-> _] | (p & Hp & _ & _ & _ & -> & _)]; [done|]. simpl.
    destruct (decide (code = c)) as [->|Hne].
    + by rewrite lookup_alter_eq, Hp.
    + by rewrite lookup_alter_ne.
  - destruct (notEmpty id); [|done].
    destruct (registerExit_cases env id s)
      as [[-> _] | (e & p & stored & _ & _ & Hp & _ & -> & _)]; [done|].
    simpl. destruct (fitsInteger _); [|done].
    destruct (decide (Entry.parkingCode e = c)) as [<-|Hne].
    + by rewrite lookup_alter_eq, Hp.
    + by rewrite lookup_alter_ne.
Qed.

(** X16: a request that [authenticate] turns down is answered as it
    says, 401 or 500, and changes nothing; a request on the parking routes
    by a user who is not ADMIN is answered 403 and changes nothing,
    whatever its body; an ADMIN gets what validation and the controller
    decide, and so does every authenticated user on the entry routes. So
    whoever is not an ADMIN never creates or deletes a parking nor changes
    its name, total, location or fee: only the count of available spaces
    can move. *)
Theorem only_admins_change_parkings
    (verify : string → Verified) (users : gmap string User.t)
    (authorization : option string) (env : Env) (r : Request) (s : Store) :
  let isParkingRoute :=
    match r with
    | POST_entries _ _ | PUT_entries_exit _ => false
    | _ => true
    end in
  match authenticate verify users authorization with
  | inl denied =>
    api verify users authorization env r s = (s, denied)
    ∧ (status denied = 401 ∨ status denied = 500)
  | inr user =>
    if isParkingRoute && bool_decide (ReqUser.role user ≠ ADMIN)
    then api verify users authorization env r s = (s, forbidden)
         ∧ status forbidden = 403
    else api verify users authorization env r s = handle env r s
  end
  ∧ ((∀ user, authenticate verify users authorization = inr user →
               ReqUser.role user ≠ ADMIN) →
     ∀ c, fixedPart <$> parkings (api verify users authorization env r s).1 !! c
          = fixedPart <$> parkings s !! c).
Proof.
  intros isParkingRoute. unfold api.
  destruct (authenticate verify users authorization) as [denied|user] eqn:Ha.
  - split; [|done]. split; [done|].
    by destruct (authenticate_denied _ _ _ _ Ha) as [-> | ->]; [left | right].
  - unfold authorizeAdmin.
    destruct (bool_decide (ReqUser.role user ≠ ADMIN)) eqn:Hrole.
    + rewrite andb_true_r. split.
      * subst isParkingRoute. by destruct r.
      * intros _ c. destruct r; try done;
          by apply handle_entry_requests_fixedPart.
    + rewrite andb_false_r. split; [by destruct r|].
      intros Hnot. apply bool_decide_eq_false in Hrole.
      exfalso. apply Hrole. by apply Hnot.
Qed.

Lemma only_admins_change_parkings_witness :
  let verify := λ token : string,
                  if String.eqb token "t0k3n" then PayloadWithId "u1"
                  else TokenRejected in
  let users : gmap string User.t :=
    {["u1" := User.mk "Regular" "User" "user@example.com" "hash" USER]} in
  let r := PUT_parkings "P001" None (Some 1) None (Some 0%Q) in
  fixedPart <$> parkings (api verify users (Some "Bearer t0k3n")
                            (mkEnv 9 "u") r (parked 1 2)).1 !! "P001"
  = fixedPart <$> parkings (parked 1 2) !! "P001".
Proof.
  intros verify users r.
  apply (only_admins_change_parkings verify users (Some "Bearer t0k3n")
           (mkEnv 9 "u") r (parked 1 2)).
  intros user Hauth. vm_compute in Hauth. by inversion Hauth.
Defined.

(** ** Date-range reports *)


Lemma setHoursEndOfDay_bounds (tz t : Z) :
  t <= setHoursEndOfDay tz t < t + msPerDay.
Proof.
  unfold setHoursEndOfDay, msPerDay.
  assert (HD : 0 < 24 * 60 * 60 * 1000) by lia.
  set (D := 24 * 60 * 60 * 1000) in *.
  pose proof (Z.div_mod (t + tz) D ltac:(lia)) as Ht.
  pose proof (Z.mod_pos_bound (t + tz) D HD) as Htm. nia.
Qed.

#[local] Instance keyLe_total key : Total (keyLe key).
Proof. intros a b. unfold keyLe. lia. Qed.

Lemma orderByAsc_ids (key : Entry.t → Z) (m : gmap string Entry.t)
    (s : Store) (i : string) :
  i ∈ (EntryRow.id <$> (includeParking s <$> orderByAsc key (map_to_list m)))
  ↔ is_Some (m !! i).
Proof.
  unfold orderByAsc. rewrite <- list_fmap_compose.
  rewrite (merge_sort_Permutation (keyLe key) (map_to_list m)).
  rewrite list_elem_of_fmap. split.
  - intros ([j e] & -> & Hin). simpl. apply elem_of_map_to_list in Hin.
    by exists e.
  - intros [e Hi]. exists (i, e). split; [done|].
    by apply elem_of_map_to_list.
Qed.








Lemma entriesReportRow_ids (s : Store) (rows : list (string * Entry.t))
    (report : list EntriesReportRow.t) :
  mapM (entriesReportRow s) rows = Some report →
  EntriesReportRow.id <$> report = rows.*1.
Proof.
  intros H. apply mapM_Some in H. induction H as [|[i e] row rows report Hrow _ IH];
    [done|].
  csimpl. rewrite IH. f_equal.
  unfold entriesReportRow in Hrow. simpl in Hrow.
  destruct (parkings s !! Entry.parkingCode e); by simplify_eq.
Qed.

(** X19: [generateEntriesReport] is answered 400 when a date is missing
    or does not parse and also, unlike the other reports, when the start is
    after the end. Where every entry has its parking (as in every reachable
    state) it is otherwise answered 200, never 500, with exactly the
    entries that came in between the start and the end instant themselves:
    the end is not extended to the end of its day, so every entry it lists
    is also listed by [getIncomingCarsByDateRange] for the same dates. *)
Theorem entries_report_uses_the_given_instants
    (tz : Z) (startDate endDate : DateInput) (s : Store) :
  foreignKey s →
  let reply := generateEntriesReport startDate endDate s in
  (replyStatus reply = 400
   ↔ getTime startDate = None ∨ getTime endDate = None
     ∨ ∃ start stop, getTime startDate = Some start
                     ∧ getTime endDate = Some stop ∧ stop < start)
  ∧ replyStatus reply ≠ 500
  ∧ ∀ start stop, getTime startDate = Some start →
      getTime endDate = Some stop → start <= stop →
      replyStatus reply = 200
      ∧ (∀ i, i ∈ (EntriesReportRow.id <$> listed reply)
              ↔ ∃ e, entries s !! i = Some e
                     ∧ start <= Entry.entryDateTime e <= stop)
      ∧ ∀ i, i ∈ (EntriesReportRow.id <$> listed reply) →
             ∃ report,
               replyData (getIncomingCarsByDateRange tz startDate endDate s)
               = Some report
               ∧ i ∈ (EntryRow.id <$> IncomingReport.entries report).
Proof.
  intros Hfk reply. subst reply. unfold generateEntriesReport.
  destruct startDate as [| |start], endDate as [| |stop]; simpl;
    try (split; [split; [intros _; first [by left | by (right; left)]
                        | intros _; reflexivity]
                | split; [done | intros ? ? ? ?; simplify_eq]]).
  destruct (stop <? start) eqn:Hord.
  { apply Z.ltb_lt in Hord. simpl. split; [|split; [done|]].
    - split; [intros _|done]. right. right. by exists start, stop.
    - intros ? ? [= <-] [= <-] ?. lia. }
  apply Z.ltb_ge in Hord.
  destruct (mapM _ _) as [report|] eqn:Hreport.
  2:{ exfalso. apply mapM_None in Hreport.
      apply Exists_exists in Hreport as ([i e] & Hin & Hnone).
      apply elem_of_map_to_list, map_lookup_filter_Some in Hin as [Hi _].
      destruct (Hfk i e Hi) as [p Hp].
      unfold entriesReportRow in Hnone. simpl in Hnone.
      by rewrite Hp in Hnone. }
  simpl. split; [|split; [done|]].
  - split; [done|]. intros [[=] | [[=] | (a & b & [= <-] & [= <-] & Hlt)]]. lia.
  - intros ? ? [= <-] [= <-] _. split; [done|].
    pose proof (entriesReportRow_ids s _ report Hreport) as Hids.
    assert (Hlist : ∀ i, i ∈ (EntriesReportRow.id <$> report)
                         ↔ ∃ e, entries s !! i = Some e
                                ∧ start <= Entry.entryDateTime e <= stop).
    { intros i. rewrite Hids, list_elem_of_fmap. unfold findMany. split.
      - intros ([j e] & -> & Hin). simpl.
        apply elem_of_map_to_list, map_lookup_filter_Some in Hin as [Hj Hw].
        by exists e.
      - intros (e & Hi & Hw). exists (i, e). split; [done|].
        by apply elem_of_map_to_list, map_lookup_filter_Some. }
    split; [exact Hlist|].
    intros i Hi. apply Hlist in Hi as (e & Hi & Hge & Hle).
    unfold getIncomingCarsByDateRange. simpl. eexists. split; [done|].
    simpl. apply orderByAsc_ids. exists e. unfold findMany.
    apply map_lookup_filter_Some. split; [done|]. simpl. split; [done|].
    pose proof (setHoursEndOfDay_bounds tz stop). lia.
Qed.

Lemma entries_report_uses_the_given_instants_witness :
  replyStatus (generateEntriesReport (Instant 5) (Instant 0) (parked 3 5)) = 400
  ∧ length (listed (generateEntriesReport (Instant 0) (Instant 1)
                      (parked 3 5))) = 2%nat.
Proof.
  assert (Hfk : foreignKey (parked 3 5)).
  { apply reachable_foreignKey.
    exists ((mkEnv 0 "", POST_parkings "P001" "Central Parking" 5
                            "Downtown" (5 # 2))
            :: ((λ a : Env * string, (a.1, POST_entries a.2 "P001"))
                  <$> arrivals 3)).
    vm_compute. reflexivity. }
  split.
  - apply (proj1 (entries_report_uses_the_given_instants
                    0 (Instant 5) (Instant 0) (parked 3 5) Hfk)).
    right. right. exists 5, 0. repeat split; lia.
  - vm_compute. reflexivity.
Defined.

(** ** Dashboard statistics *)

Lemma foldl_add_sumZ {A} (f : A → Z) (l : list A) (a : Z) :
  foldl (λ sum x, sum + f x) a l = a + sumZ (f <$> l).
Proof.
  revert a. unfold sumZ. induction l as [|x l IH]; intros a; csimpl; [lia|].
  rewrite IH. lia.
Qed.

Lemma sumZ_difference {A} (f g h : A → Z) (l : list A) :
  (∀ x, x ∈ l → f x = g x - h x) →
  sumZ (f <$> l) = sumZ (g <$> l) - sumZ (h <$> l).
Proof.
  induction l as [|x l IH]; intros Hl; [done|].
  unfold sumZ in *. csimpl. rewrite IH.
  - rewrite (Hl x) by left. lia.
  - intros y Hy. apply Hl. by right.
Qed.

Lemma sumZ_plus {A} (f g : A → Z) (l : list A) :
  sumZ ((λ x, f x + g x) <$> l) = sumZ (f <$> l) + sumZ (g <$> l).
Proof.
  induction l as [|x l IH]; [done|]. unfold sumZ in *. csimpl. rewrite IH. lia.
Qed.

Lemma sumZ_zero {A} (f : A → Z) (l : list A) :
  (∀ x, x ∈ l → f x = 0) → sumZ (f <$> l) = 0.
Proof.
  induction l as [|x l IH]; intros Hl; [done|].
  unfold sumZ in *. csimpl. rewrite IH, (Hl x); [done | by left |].
  intros y Hy. apply Hl. by right.
Qed.

Lemma sumZ_one_key {A} (k : string) (l : list (string * A)) :
  NoDup (l.*1) → k ∈ l.*1 →
  sumZ ((λ kv, if decide (k = kv.1) then 1 else 0) <$> l) = 1.
Proof.
  induction l as [|[c x] l IH]; intros Hnd Hin; [by apply elem_of_nil in Hin|].
  rewrite fmap_cons in Hnd, Hin. apply NoDup_cons in Hnd as [Hc Hnd].
  rewrite fmap_cons. unfold sumZ. cbn [foldr fst]. fold (sumZ
    ((λ kv : string * A, if decide (k = kv.1) then 1 else 0) <$> l)).
  destruct (decide (k = c)) as [->|Hne].
  - rewrite (sumZ_zero (λ kv, if decide (c = kv.1) then 1 else 0) l); [lia|].
    intros [c' x'] Hx. cbn [fst]. destruct (decide (c = c')) as [<-|]; [|done].
    exfalso. apply Hc. apply list_elem_of_fmap. by exists (c, x').
  - rewrite IH; [lia | done |].
    apply elem_of_cons in Hin as [|]; [done | done].
Qed.

Lemma count_empty (P : Entry.t → Prop) `{!∀ e, Decision (P e)} :
  count P ∅ = 0.
Proof. unfold count, findMany. by rewrite map_filter_empty, map_size_empty. Qed.

Lemma open_entries_by_parking (ps : gmap string Parking.t)
    (es : gmap string Entry.t) :
  (∀ i e, es !! i = Some e → is_Some (ps !! Entry.parkingCode e)) →
  sumZ ((λ kv : string * Parking.t, count (whereOpenIn kv.1) es)
          <$> map_to_list ps)
  = count whereOpen es.
Proof.
  induction es as [|i e m Hi IH] using map_ind; intros Hfk.
  - rewrite count_empty. apply sumZ_zero. intros kv _. apply count_empty.
  - rewrite (count_insert whereOpen), Hi.
    assert (Hm : ∀ j e', m !! j = Some e' →
                         is_Some (ps !! Entry.parkingCode e')).
    { intros j e' Hj. apply (Hfk j). rewrite lookup_insert_ne; [done|].
      congruence. }
    rewrite <- (IH Hm).
    transitivity
      (sumZ ((λ kv : string * Parking.t,
                count (whereOpenIn kv.1) m + indicator (whereOpenIn kv.1 e))
               <$> map_to_list ps)).
    { f_equal. apply list_fmap_ext. intros _ kv _.
      rewrite (count_insert (whereOpenIn kv.1)), Hi. lia. }
    rewrite sumZ_plus.
    assert (sumZ ((λ kv : string * Parking.t, indicator (whereOpenIn kv.1 e))
                    <$> map_to_list ps)
            = indicator (whereOpen e)) as ->; [|lia].
    destruct (Entry.exitDateTime e) as [t|] eqn:Hexit.
    + unfold indicator at 2. rewrite decide_False by (unfold whereOpen; congruence).
      apply sumZ_zero. intros kv _. unfold indicator.
      rewrite decide_False; [done|]. intros [_ Hx]. congruence.
    + unfold indicator at 2. rewrite decide_True by done.
      rewrite <- (sumZ_one_key (Entry.parkingCode e) (map_to_list ps)).
      * f_equal. apply list_fmap_ext. intros _ kv _.
        by apply indicator_open_entry.
      * apply NoDup_fst_map_to_list.
      * destruct (Hfk i e) as [p Hp]; [by rewrite lookup_insert_eq|].
        apply list_elem_of_fmap. exists (Entry.parkingCode e, p).
        split; [done|]. by apply elem_of_map_to_list.
Qed.

Lemma insertRecent_length (x : EntryRow.t) (l : list EntryRow.t) :
  length (insertRecent x l) = S (length l).
Proof.
  induction l as [|y l IH]; [done|]. simpl.
  destruct (_ <=? 0); simpl; [done|]. by rewrite IH.
Qed.

Lemma sortRecent_length (l : list EntryRow.t) :
  length (sortRecent l) = length l.
Proof.
  induction l as [|x l IH]; [done|]. unfold sortRecent in *. simpl.
  by rewrite insertRecent_length, IH.
Qed.

(** X20: computed from the answers of one reachable state, the numbers of
    the dashboard add up: available spaces plus occupied spaces (the
    active entries) is the sum of the total spaces of all parkings; the
    occupied spaces do not exceed the number of all entries, and the recent
    entries are five, or all entries when there are fewer. *)
Theorem dashboard_numbers_add_up (isAdmin : bool) (totalUsers : Z) (s : Store) :
  reachable s →
  let stats := dashboardStats isAdmin totalUsers
                 (listed (getAllParkings s)) (listed (getActiveEntries s))
                 (listed (getAllEntries s)) in
  DashboardStats.availableSpaces stats + DashboardStats.occupiedSpaces stats
  = sumZ ((λ p : string * Parking.t, Parking.totalSpaces p.2)
            <$> listed (getAllParkings s))
  ∧ DashboardStats.totalParkings stats = Z.of_nat (size (parkings s))
  ∧ DashboardStats.totalVehicles stats = Z.of_nat (size (entries s))
  ∧ DashboardStats.occupiedSpaces stats <= DashboardStats.totalVehicles stats
  ∧ length (DashboardStats.recentEntries stats)
    = Nat.min 5 (size (entries s)).
Proof.
  intros Hreach stats. subst stats.
  pose proof (reachable_ledgerBalanced s Hreach) as Hl.
  pose proof (reachable_foreignKey s Hreach) as Hfk.
  unfold dashboardStats, getAllParkings, getActiveEntries, getAllEntries,
    listed. simpl.
  rewrite foldl_add_sumZ, !length_fmap, !length_map_to_list.
  assert (Hocc : Z.of_nat (size (findMany whereOpen (entries s)))
                 = count whereOpen (entries s)) by done.
  split; [|split; [done|split; [done|split]]].
  - rewrite Hocc, <- (open_entries_by_parking (parkings s) (entries s) Hfk).
    rewrite (sumZ_difference
               (λ p : string * Parking.t, Parking.availableSpaces p.2)
               (λ p : string * Parking.t, Parking.totalSpaces p.2)
               (λ p : string * Parking.t, count (whereOpenIn p.1) (entries s))).
    + lia.
    + intros [c p] Hin. apply elem_of_map_to_list in Hin. simpl.
      apply (Hl c p Hin).
  - apply inj_le. unfold findMany. apply map_size_filter.
  - rewrite length_take, sortRecent_length, length_fmap, length_map_to_list.
    done.
Qed.

(** ** Guards of the dashboard calculator *)

Lemma calculateParkingFee_nonneg
    (now : Z) (hourlyFee : option Q) (entryDateTime exitDateTime : DateInput)
    (charge : Q) :
  calculateParkingFee now hourlyFee entryDateTime exitDateTime = Some charge →
  (0 <= charge)%Q.
Proof.
  unfold calculateParkingFee.
  destruct hourlyFee as [fee|]; [|by intros [= <-]].
  destruct (Qle_bool fee 0) eqn:Efee; simpl; [by intros [= <-]|].
  destruct (truthy entryDateTime); simpl; [|by intros [= <-]].
  destruct (getTime entryDateTime) as [en|]; [|by intros [= <-]].
  destruct (computedExit now exitDateTime) as [ex|]; [|by intros [= <-]].
  destruct (ex <? en) eqn:E; [by intros [= <-]|].
  apply Z.ltb_ge in E.
  assert (Hfee : (0 <= fee)%Q).
  { apply Qnot_lt_le. intros Hlt. apply Qlt_le_weak in Hlt.
    apply Qle_bool_iff in Hlt. congruence. }
  destruct (binary64 fee) as [fee64|] eqn:Hfee64; [|done].
  cbn [mbind option_bind].
  destruct (binary64 (inject_Z (ex - en))) as [d0|] eqn:Hd0; [|done].
  cbn [mbind option_bind].
  destruct (binary64 (d0 / inject_Z (1000 * 60))) as [d1|] eqn:Hd1; [|done].
  cbn [mbind option_bind].
  destruct (binary64 (d1 / 60)) as [d2|] eqn:Hd2; [|done].
  cbn [mbind option_bind].
  assert (H0 : (0 <= d0)%Q).
  { apply (binary64_nonneg (inject_Z (ex - en))); [|done].
    change 0%Q with (inject_Z 0). rewrite <- Zle_Qle. lia. }
  assert (H1 : (0 <= d1)%Q).
  { apply (binary64_nonneg (d0 / inject_Z (1000 * 60))); [|done].
    apply Qle_shift_div_l; [done|]. by rewrite Qmult_0_l. }
  assert (H2 : (0 <= d2)%Q).
  { apply (binary64_nonneg (d1 / 60)); [|done].
    apply Qle_shift_div_l; [done|]. by rewrite Qmult_0_l. }
  apply binary64_nonneg. apply Qmult_le_0_compat.
  - change 0%Q with (inject_Z 0) at 1. rewrite <- Zle_Qle.
    exact (Qceiling_resp_le 0 d2 H2).
  - exact (binary64_nonneg fee fee64 Hfee Hfee64).
Qed.

(** X21: the dashboard calculator returns zero whenever the hourly fee is
    not a number or not positive, the entry is absent or does not parse,
    or the exit it settles on is invalid or strictly before the entry; and
    whatever it returns is never negative. *)
Theorem calculateParkingFee_zero_on_bad_input
    (now : Z) (hourlyFee : option Q) (entryDateTime exitDateTime : DateInput) :
  (hourlyFee = None
   ∨ (∃ f, hourlyFee = Some f ∧ (f <= 0)%Q)
   ∨ entryDateTime = Absent
   ∨ entryDateTime = Unparseable
   ∨ computedExit now exitDateTime = None
   ∨ (∃ en ex, getTime entryDateTime = Some en
               ∧ computedExit now exitDateTime = Some ex ∧ ex < en) →
   calculateParkingFee now hourlyFee entryDateTime exitDateTime = Some 0%Q)
  ∧ (∀ charge,
       calculateParkingFee now hourlyFee entryDateTime exitDateTime
       = Some charge →
       (0 <= charge)%Q).
Proof.
  split; [apply calculateParkingFee_zero | apply calculateParkingFee_nonneg].
Qed.

(** ** The further properties at concrete inputs *)

Lemma calculateParkingFee_zero_on_bad_input_witness :
  calculateParkingFee 0 (Some (5 # 2)%Q) (Instant 7200000) (Instant 0)
  = Some 0%Q
  ∧ calculateParkingFee 0 (Some (-1)%Q) (Instant 0) (Instant 7200000)
    = Some 0%Q
  ∧ (0 <= 5)%Q.
Proof.
  split; [|split].
  - apply (calculateParkingFee_zero_on_bad_input
             0 (Some (5 # 2)%Q) (Instant 7200000) (Instant 0)).
    do 5 right. exists 7200000, 0. repeat split; lia.
  - apply (calculateParkingFee_zero_on_bad_input
             0 (Some (-1)%Q) (Instant 0) (Instant 7200000)).
    right. left. exists (-1)%Q. split; [done | by vm_compute].
  - apply (proj2 (calculateParkingFee_zero_on_bad_input
                    0 (Some (5 # 2)%Q) (Instant 0) (Instant 3600001))).
    by vm_compute.
Defined.

Lemma busyDay_reachable : reachable (run busyDay emptyStore).
Proof. by exists busyDay. Qed.

Lemma registered_entry_is_found_and_active_witness :
  "entry-9" ∈ (EntryRow.id <$> listed (getActiveEntries
     (registerEntry (mkEnv 7 "entry-9") "RAB123A" "P001" (seeded 2)).1)).
Proof.
  destruct (registered_entry_is_found_and_active
              (mkEnv 7 "entry-9") "RAB123A" "P001" (seeded 2))
    as (p & _ & _ & _ & Hactive & _); [vm_compute; reflexivity|].
  exact Hactive.
Defined.

Lemma exited_entry_leaves_the_active_list_witness :
  "entry-0" ∉ (EntryRow.id <$> listed (getActiveEntries
     (registerExit (mkEnv 9 "u") "entry-0" (parked 1 2)).1)).
Proof.
  destruct (exited_entry_leaves_the_active_list
              (mkEnv 9 "u") "entry-0" (parked 1 2))
    as (_ & Hgone & _); [vm_compute; reflexivity|].
  exact Hgone.
Defined.

Lemma one_open_entry_per_vehicle_in_reachable_states_witness :
  oneOpenEntryPerVehicle (run busyDay emptyStore).
Proof.
  apply one_open_entry_per_vehicle_in_reachable_states.
  apply busyDay_reachable.
Defined.

(** A reachable state whose one parking has the largest fee the column
    holds, and one vehicle inside. *)
Lemma costly_reachable :
  reachable (run [(mkEnv 0 "p1", POST_parkings "P001" "Central Parking" 2
                                   "Downtown" (9999999999 # 100));
                  (mkEnv 0 "e1", POST_entries "RAB123A" "P001")] emptyStore).
Proof. by eexists. Qed.

Lemma registerExit_outcome_in_reachable_states_witness :
  status (registerExit (mkEnv 4000000 "x2") "e2" (run busyDay emptyStore)).2
  = 200
  ∧ status (registerExit (mkEnv 3600001 "x") "e1"
              (run [(mkEnv 0 "p1", POST_parkings "P001" "Central Parking" 2
                                     "Downtown" (9999999999 # 100));
                    (mkEnv 0 "e1", POST_entries "RAB123A" "P001")]
                 emptyStore)).2
    = 500.
Proof.
  split.
  - destruct (registerExit_outcome_in_reachable_states
                (mkEnv 4000000 "x2") "e2" (run busyDay emptyStore)
                busyDay_reachable) as (_ & _ & Hopen & _).
    destruct (Hopen (Entry.mk "RAC456B" "P001" 2000 None None))
      as (p & Hp & Hok & _); [vm_compute; reflexivity | reflexivity |].
    apply Hok. vm_compute in Hp. injection Hp as <-. vm_compute. by eexists.
  - destruct (registerExit_outcome_in_reachable_states
                (mkEnv 3600001 "x") "e1" _ costly_reachable)
      as (_ & _ & Hopen & _).
    destruct (Hopen (Entry.mk "RAB123A" "P001" 0 None None))
      as (p & Hp & _ & Hrefused); [vm_compute; reflexivity | reflexivity |].
    apply Hrefused. vm_compute in Hp. injection Hp as <-.
    vm_compute. reflexivity.
Defined.

Lemma entry_then_exit_restores_the_parkings_witness :
  parkings (registerExit (mkEnv 9 "u") "entry-9"
              (registerEntry (mkEnv 7 "entry-9") "RAB123A" "P001"
                 (seeded 2)).1).1
  = parkings (seeded 2).
Proof.
  destruct (entry_then_exit_restores_the_parkings
              (mkEnv 7 "entry-9") (mkEnv 9 "u") "RAB123A" "P001" (seeded 2))
    as (p & Hp & Hfits & _); [vm_compute; reflexivity|].
  vm_compute in Hp. injection Hp as <-.
  destruct (Hfits (5 # 2)%Q) as (_ & Hsame & _);
    [vm_compute; reflexivity | reflexivity |].
  exact Hsame.
Defined.

Lemma created_parking_is_found_witness :
  getParkingByCode "P002"
    (createParking "P002" "North Parking" 50 "North District" 2 (seeded 2)).1
  = replySuccessWith
      ("P002", Parking.mk "North Parking" 50 50 "North District" 2)
  ∧ createParking "P002" "North Parking" (2 ^ 31) "North District" 2
      (seeded 2)
    = (seeded 2, ServerResponse.error).
Proof.
  destruct (proj2 (created_parking_is_found "P002" "North Parking" 50
                     "North District" 2 (seeded 2)))
    as (_ & _ & Hfound); [vm_compute; reflexivity|].
  destruct (proj2 (created_parking_is_found "P002" "North Parking" (2 ^ 31)
                     "North District" 2 (seeded 2)))
    as (_ & Hrefused & _); [vm_compute; reflexivity|].
  split.
  - destruct Hfound as (stored & Hstored & _ & _ & _ & Hfound & _);
      [vm_compute; reflexivity|].
    vm_compute in Hstored. injection Hstored as <-. exact Hfound.
  - apply Hrefused. vm_compute. discriminate.
Defined.

Lemma deleteParking_outcomes_witness :
  status (deleteParking "P001" (run busyDay emptyStore)).2 = 409.
Proof.
  apply (proj1 (proj2 (deleteParking_outcomes "P001"
                         (run busyDay emptyStore)))).
  split; [vm_compute; by eexists|].
  exists "e2", (Entry.mk "RAC456B" "P001" 2000 None None).
  repeat split; vm_compute; reflexivity.
Defined.

Lemma referenced_parking_is_never_deleted_witness :
  is_Some (parkings (run [(mkEnv 5000000 "x2", PUT_entries_exit "e2");
                          (mkEnv 6000000 "d1", DELETE_parkings "P001")]
                       (run busyDay emptyStore)) !! "P001").
Proof.
  apply (referenced_parking_is_never_deleted
           [(mkEnv 5000000 "x2", PUT_entries_exit "e2");
            (mkEnv 6000000 "d1", DELETE_parkings "P001")]
           (run busyDay emptyStore) "e1"
           (Entry.mk "RAB123A" "P001" 1000 (Some 3900000) (Some 5%Q))).
  - vm_compute. reflexivity.
  - vm_compute. by eexists.
Defined.

Lemma falsy_update_fields_keep_the_old_value_witness :
  let keep := PUT_parkings "P001" None None None (Some 0%Q) in
  let zero := PUT_parkings "P001" None None None (Some (1 # 250)%Q) in
  let s := parked 1 2 in
  (status (handle (mkEnv 9 "u") keep s).2 = 200
   ∧ Parking.hourlyFee <$> parkings (handle (mkEnv 9 "u") keep s).1 !! "P001"
     = Some (5 # 2)%Q)
  ∧ (status (handle (mkEnv 9 "u") zero s).2 = 200
     ∧ Parking.hourlyFee <$> parkings (handle (mkEnv 9 "u") zero s).1 !! "P001"
       = Some 0%Q).
Proof.
  intros keep zero s.
  assert (Hp : parkings s !! "P001"
               = Some (Parking.mk "Central Parking" 2 1 "Downtown" (5 # 2)))
    by (vm_compute; reflexivity).
  assert (Hkept : parkings (handle (mkEnv 9 "u") keep s).1 !! "P001"
                  = Some (Parking.mk "Central Parking" 2 1 "Downtown" (5 # 2)))
    by (vm_compute; reflexivity).
  assert (Hzeroed : parkings (handle (mkEnv 9 "u") zero s).1 !! "P001"
                    = Some (Parking.mk "Central Parking" 2 1 "Downtown" 0))
    by (vm_compute; reflexivity).
  split.
  - destruct (falsy_update_fields_keep_the_old_value (mkEnv 9 "u") keep s
                "P001" _ _ Hp Hkept) as (Hkeep & _);
      [reflexivity | reflexivity | vm_compute; reflexivity | discriminate |].
    destruct (Hkeep None None 0%Q) as [Hstatus Hfee];
      [reflexivity | reflexivity |].
    split; [exact Hstatus|]. by rewrite Hkept.
  - destruct (falsy_update_fields_keep_the_old_value (mkEnv 9 "u") zero s
                "P001" _ _ Hp Hzeroed) as (_ & Hsmall & _);
      [reflexivity | reflexivity | vm_compute; reflexivity | discriminate |].
    destruct (Hsmall None None (1 # 250)%Q) as [Hstatus Hfee];
      [reflexivity | reflexivity | reflexivity |].
    split; [exact Hstatus|]. by rewrite Hzeroed.
Defined.

Lemma reachable_parkings_are_validated_witness :
  parkingsValidated (run busyDay emptyStore).
Proof.
  apply (reachable_parkings_are_validated (run busyDay emptyStore)
           (mkEnv 0 "") "e2" busyDay_reachable).
Defined.

Lemma occupancy_rows_add_up_witness :
  let row := OccupancyRow.mk "P001" "Central Parking" 2 1 1 (Some 50%Q) in
  OccupancyRow.occupiedSpaces row + OccupancyRow.availableSpaces row
  = OccupancyRow.totalSpaces row.
Proof.
  intros row.
  apply (occupancy_rows_add_up (run busyDay emptyStore) row
           busyDay_reachable).
  vm_compute. left.
Defined.

Lemma registerEntry_and_available_parkings_witness :
  status (registerEntry (mkEnv 9 "u") "RAD789C" "P001" (parked 2 2)).2 = 400.
Proof.
  apply (proj1 (proj2 (registerEntry_and_available_parkings
                         (mkEnv 9 "u") "RAD789C" "P001" (parked 2 2)))).
  exists (Parking.mk "Central Parking" 2 0 "Downtown" (5 # 2)). split.
  - apply all_parkings_listing. vm_compute. reflexivity.
  - rewrite available_listing. intros [_ Hroom]. simpl in Hroom. lia.
Defined.

Lemma dashboard_numbers_add_up_witness :
  let s := run busyDay emptyStore in
  let stats := dashboardStats true 2 (listed (getAllParkings s))
                 (listed (getActiveEntries s)) (listed (getAllEntries s)) in
  DashboardStats.availableSpaces stats + DashboardStats.occupiedSpaces stats
  = 2.
Proof.
  intros s stats.
  destruct (dashboard_numbers_add_up true 2 s busyDay_reachable)
    as (Hsum & _).
  etransitivity; [exact Hsum|]. vm_compute. reflexivity.
Defined.
